(** * deno-context: contexts, cancel signals and context promises

    A shallow embedding of [context.ts] (the variant with the [CancelSignal]
    class): the [Context] implementations [Background], [WithValue],
    [WithCancel] and [WithTimeout], the [CancelSignal] they share, and
    [ContextPromise].

    Contexts are immutable once built, so they are an inductive type; the
    mutable objects (signals, timers, promises) live in a store, the [World],
    and are named by their index in it.  The platform pieces the code runs on
    (the listener list of an [AbortSignal], [setTimeout]/[clearTimeout], the
    resolving functions of a [Promise]) are written out as far as the code
    uses them. *)

From Stdlib Require Import ZArith String Floats.SpecFloat.
From stdpp Require Import base option list.

(** ** JavaScript values used as keys and values *)

(** The value of [typeof]. *)
Inductive JSType : Type :=
| TUndefined | TObject | TBoolean | TNumber | TBigInt | TString | TSymbol
| TFunction.

(** Numbers are IEEE-754 doubles; objects, arrays, functions and symbols are
    known by their identity only. *)
Inductive JSValue : Type :=
| JSUndefined
| JSNull
| JSBoolean (b : bool)
| JSNumber (x : spec_float)
| JSBigInt (z : Z)
| JSString (s : string)
| JSSymbol (id : nat)
| JSObject (ref : nat)
| JSArray (ref : nat)
| JSFunction (ref : nat).

Definition NaN : JSValue := JSNumber S754_nan.

Definition typeof (v : JSValue) : JSType :=
  match v with
  | JSUndefined => TUndefined
  | JSNull => TObject
  | JSBoolean _ => TBoolean
  | JSNumber _ => TNumber
  | JSBigInt _ => TBigInt
  | JSString _ => TString
  | JSSymbol _ => TSymbol
  | JSObject _ | JSArray _ => TObject
  | JSFunction _ => TFunction
  end.

Definition JSType_eqb (a b : JSType) : bool :=
  match a, b with
  | TUndefined, TUndefined | TObject, TObject | TBoolean, TBoolean
  | TNumber, TNumber | TBigInt, TBigInt | TString, TString
  | TSymbol, TSymbol | TFunction, TFunction => true
  | _, _ => false
  end.

(** [v instanceof Array] *)
Definition instanceof_Array (v : JSValue) : bool :=
  match v with JSArray _ => true | _ => false end.

(** [a === b]: no conversion; numbers compare as IEEE-754 values (NaN differs
    from everything, itself included, and the two zeros are equal); objects,
    arrays, functions and symbols compare by identity. *)
Definition strict_equals (a b : JSValue) : bool :=
  match a, b with
  | JSUndefined, JSUndefined => true
  | JSNull, JSNull => true
  | JSBoolean x, JSBoolean y => Bool.eqb x y
  | JSNumber x, JSNumber y => SFeqb x y
  | JSBigInt x, JSBigInt y => Z.eqb x y
  | JSString x, JSString y => String.eqb x y
  | JSSymbol x, JSSymbol y => Nat.eqb x y
  | JSObject x, JSObject y => Nat.eqb x y
  | JSArray x, JSArray y => Nat.eqb x y
  | JSFunction x, JSFunction y => Nat.eqb x y
  | _, _ => false
  end.

(** ** Contexts *)

(** [new Error(message)], the only exception the module throws. *)
Record Error : Type := mkError { message : string }.

(** The cause a signal records: an instance of [Canceled] or of
    [DeadlineExceeded].  Two instances of one class are not told apart (the
    tests compare them with [assertEquals]). *)
Inductive Cause : Type := Canceled | DeadlineExceeded.

#[global] Instance Cause_eq_dec : EqDecision Cause.
Proof. solve_decision. Defined.

(** A context holds its parent; a cancelable context holds its signal, a
    reference into the store. *)
Inductive Context : Type :=
| Background
| WithValue (_parent : Context) (_key _val : JSValue)
| WithCancel (_parent : Context) (_signal : nat)
| WithTimeout (_parent : Context) (_signal : nat).

(** [new WithValue(parent, key, val)] *)
Definition new_WithValue (parent : Context) (key val : JSValue)
  : Error + Context :=
  if strict_equals key JSUndefined || strict_equals key JSNull then
    inl (mkError "undefined or null key"%string)
  else if instanceof_Array key then
    inl (mkError "array key"%string)
  else if JSType_eqb (typeof key) TObject then
    inl (mkError "object key"%string)
  else if JSType_eqb (typeof key) TFunction then
    inl (mkError "function key"%string)
  else inr (WithValue parent key val).

(** [ctx.value(key)] *)
Fixpoint value (ctx : Context) (key : JSValue) : JSValue :=
  match ctx with
  | Background => JSNull
  | WithValue parent k v =>
      if strict_equals k key then v else value parent key
  | WithCancel parent _ | WithTimeout parent _ => value parent key
  end.

(** [ctx.done()]: the signal of the nearest cancelable context, [None] for
    [null]. *)
Fixpoint done (ctx : Context) : option nat :=
  match ctx with
  | Background => None
  | WithValue parent _ _ => done parent
  | WithCancel _ s | WithTimeout _ s => Some s
  end.

(** ** The store: signals, timers and promises *)

(** The closures the module creates.  Each constructor is one arrow function
    of the source together with the variables it captures. *)
Inductive Code : Type :=
| CPropagate (child parentSignal : nat)
    (** [() => this._signal.cancel(parentSignal.error()!)], the [handler] of
        the [WithCancel] constructor *)
| CUnlisten (parentSignal handler : nat)
    (** [() => { parentSignal.removeEventListener("abort", handler); }] *)
| CClearTimeout (id : nat)
    (** [() => clearTimeout(id)] *)
| CReject (promise : nat).
    (** [(reason) => { this.reject(reason); }] of [ContextPromise] *)

#[global] Instance Code_eq_dec : EqDecision Code.
Proof. solve_decision. Defined.

(** A function object: what it does, and which object it is. *)
Record Closure : Type := mkClosure { fn_id : nat; fn_code : Code }.

(** An entry of the listener list of a signal.  The registered callback is
    the arrow function [() => fn(this._error)] that [onCanceled] builds
    around [fn]: [l_id] is the identity of that arrow function, [l_fn] the
    [fn] it calls. *)
Record Listener : Type :=
  mkListener { l_id : nat; l_fn : Closure; l_once : bool }.

(** [CancelSignal]: [_error], and of its [AbortController] the [aborted] flag
    and the listeners of the "abort" event. *)
Record CancelSignal : Type :=
  mkSignal { _error : option Cause; aborted : bool; listeners : list Listener }.

(** A timer of [setTimeout]; the only callback the module schedules is
    [() => { this._signal.cancel(new DeadlineExceeded()); }]. *)
Record Timer : Type := mkTimer { t_due : Z; t_signal : nat; t_armed : bool }.

(** A rejection reason: what a signal hands to its observers ([this._error],
    an error or [null]), or any value a caller passes to [reject]. *)
Inductive Reason : Type :=
| RCause (e : option Cause)
| RValue (v : JSValue).

(** What [resolve] is called with, a value of [T | PromiseLike<T>]: a plain
    value, or a thenable (an object whose [then] is callable: a promise, a
    [ContextPromise], ...), known by its identity and other than the promise
    being resolved. *)
Inductive Resolution : Type :=
| Plain (v : JSValue)
| Thenable (t : nat).

(** A promise is [Pending] until one of its resolving functions is called.
    Resolved with a thenable it is [Following] it: not settled yet, and its
    resolving functions do nothing any more. *)
Inductive PromiseState : Type :=
| Pending
| Following (t : nat)
| Fulfilled (v : JSValue)
| Rejected (r : Reason).

Record World : Type := mkWorld {
  signals : list CancelSignal;
  timers : list Timer;
  promises : list PromiseState;
  next_fn : nat;  (** identity of the next function object *)
  now : Z         (** the clock, in milliseconds *)
}.

Definition empty_world : World := mkWorld [] [] [] 0 0.

Definition set_signals (x : list CancelSignal) (w : World) : World :=
  mkWorld x (timers w) (promises w) (next_fn w) (now w).
Definition set_timers (x : list Timer) (w : World) : World :=
  mkWorld (signals w) x (promises w) (next_fn w) (now w).
Definition set_promises (x : list PromiseState) (w : World) : World :=
  mkWorld (signals w) (timers w) x (next_fn w) (now w).
Definition set_now (x : Z) (w : World) : World :=
  mkWorld (signals w) (timers w) (promises w) (next_fn w) x.
(** A new function object has been created. *)
Definition bump_fn (w : World) : World :=
  mkWorld (signals w) (timers w) (promises w) (S (next_fn w)) (now w).

Definition put_signal (s : nat) (sg : CancelSignal) (w : World) : World :=
  set_signals (<[s := sg]> (signals w)) w.

(** *** Platform: event listeners, timers, promise settlement *)

(** [signal.addEventListener("abort", callback, {once})].  The callback is
    always a function object created for this call, so it is never in the
    list already and is appended. *)
Definition addEventListener (s : nat) (l : Listener) (w : World)
  : option World :=
  sg ← signals w !! s;
  Some (put_signal s
          (mkSignal (_error sg) (aborted sg) (listeners sg ++ [l])) w).

(** [signal.removeEventListener("abort", callback)]: drops the entry whose
    callback is that very function object, if there is one. *)
Definition removeEventListener (s : nat) (callback : nat) (w : World)
  : option World :=
  sg ← signals w !! s;
  Some (put_signal s
          (mkSignal (_error sg) (aborted sg)
             (filter (λ l, l_id l ≠ callback) (listeners sg))) w).

(** The longest delay a timer takes, [2^31 - 1] milliseconds. *)
Definition TIMEOUT_MAX : Z := 2147483647.

(** The delay of a timer set with [ms]: a negative one counts as 0, one
    above [TIMEOUT_MAX] is set to 1. *)
Definition timeout_delay (ms : Z) : Z :=
  if (TIMEOUT_MAX <? ms)%Z then 1%Z else Z.max 0 ms.

(** [setTimeout(callback, ms)] returns the new timer's id. *)
Definition setTimeout (s : nat) (ms : Z) (w : World) : nat * World :=
  (length (timers w),
   set_timers (timers w ++ [mkTimer (now w + timeout_delay ms) s true]) w).

(** [clearTimeout(id)]; an unknown id is ignored. *)
Definition clearTimeout (id : nat) (w : World) : World :=
  match timers w !! id with
  | Some t =>
      set_timers (<[id := mkTimer (t_due t) (t_signal t) false]> (timers w)) w
  | None => w
  end.

(** The resolving functions of a promise, the pair handed to the executor
    of [new Promise]: the first call of either puts the promise in the state
    [st], later calls do nothing. *)
Definition settle (p : nat) (st : PromiseState) (w : World) : option World :=
  cur ← promises w !! p;
  Some (match cur with
        | Pending => set_promises (<[p := st]> (promises w)) w
        | _ => w
        end).

(** [resolve(x)] fulfils the promise with a plain value, and makes it
    follow a thenable. *)
Definition resolved_with (x : Resolution) : PromiseState :=
  match x with
  | Plain v => Fulfilled v
  | Thenable t => Following t
  end.

Definition promise_resolve (p : nat) (x : Resolution) (w : World)
  : option World :=
  settle p (resolved_with x) w.
Definition promise_reject (p : nat) (r : Reason) (w : World) : option World :=
  settle p (Rejected r) w.

(** *** ContextPromise: the methods *)

(** [promise.resolve(value)] is [this._resolve(value)] and
    [promise.reject(reason)] is [this._reject(reason)], the resolving
    functions the constructor has kept. *)
Definition resolve (p : nat) (x : Resolution) (w : World) : option World :=
  promise_resolve p x w.
Definition reject (p : nat) (r : Reason) (w : World) : option World :=
  promise_reject p r w.

(** *** CancelSignal *)

(** Calling one of the module's closures.  [cancel] is [CancelSignal.cancel];
    [arg] is the argument the listener passes, [this._error] of the signal
    that fired. *)
Definition call (cancel : nat → option Cause → World → option World)
    (fn : Closure) (arg : option Cause) (w : World) : option World :=
  match fn_code fn with
  | CPropagate child parentSignal =>
      psg ← signals w !! parentSignal;
      cancel child (_error psg) w
  | CUnlisten parentSignal handler =>
      removeEventListener parentSignal handler w
  | CClearTimeout id => Some (clearTimeout id w)
  | CReject p => reject p (RCause arg) w
  end.

(** Firing the "abort" event at signal [s]: the listeners present when the
    event is fired run in registration order; one removed meanwhile is
    skipped; a [once] listener is removed just before it runs. *)
Fixpoint dispatch (cancel : nat → option Cause → World → option World)
    (s : nat) (ls : list Listener) (w : World) : option World :=
  match ls with
  | [] => Some w
  | l :: ls' =>
      sg ← signals w !! s;
      if decide (l_id l ∈ l_id <$> listeners sg) then
        let w1 :=
          if l_once l then
            put_signal s
              (mkSignal (_error sg) (aborted sg)
                 (filter (λ l', l_id l' ≠ l_id l) (listeners sg))) w
          else w in
        w2 ← call cancel (l_fn l) (_error sg) w1;
        dispatch cancel s ls' w2
      else dispatch cancel s ls' w
  end.

(** [new CancelSignal()] *)
Definition new_CancelSignal : CancelSignal := mkSignal None false [].

(** [CancelSignal.cancel(error)]:
    [this._error = error; this._abort.abort();]
    where [abort()] does nothing on a controller that has aborted, and
    otherwise sets the flag and fires the event.  Listeners cancel further
    signals, so the recursion is bounded by [fuel]. *)
Fixpoint cancel_signal (fuel : nat) (s : nat) (error : option Cause)
    (w : World) : option World :=
  match fuel with
  | 0 => None
  | S fuel' =>
      sg ← signals w !! s;
      if aborted sg then
        Some (put_signal s (mkSignal error true (listeners sg)) w)
      else
        dispatch (cancel_signal fuel') s (listeners sg)
          (put_signal s (mkSignal error true (listeners sg)) w)
  end.

(** Every nested firing is that of a signal not yet aborted, so one more
    than the number of signals is enough fuel. *)
Definition enough_fuel (w : World) : nat := S (length (signals w)).

Definition signal_cancel (s : nat) (error : option Cause) (w : World)
  : option World :=
  cancel_signal (enough_fuel w) s error w.

(** [CancelSignal.onCanceled(fn)] *)
Definition onCanceled (s : nat) (fn : Closure) (w : World) : option World :=
  sg ← signals w !! s;
  if aborted sg then call signal_cancel fn (_error sg) w
  else addEventListener s (mkListener (next_fn w) fn true) (bump_fn w).

(** ** The cancelable contexts *)

(** The body of the [WithCancel] constructor; gives the new signal. *)
Definition WithCancel_constructor (ctx : Context) (w : World)
  : option (nat * World) :=
  let s := length (signals w) in
  let w1 := set_signals (signals w ++ [new_CancelSignal]) w in
  match done ctx with
  | None => Some (s, w1)
  | Some parentSignal =>
      let handler := mkClosure (next_fn w1) (CPropagate s parentSignal) in
      w2 ← onCanceled parentSignal handler (bump_fn w1);
      let unlisten :=
        mkClosure (next_fn w2) (CUnlisten parentSignal (fn_id handler)) in
      w3 ← onCanceled s unlisten (bump_fn w2);
      Some (s, w3)
  end.

(** [new WithCancel(ctx)] *)
Definition new_WithCancel (ctx : Context) (w : World)
  : option (Context * World) :=
  '(s, w') ← WithCancel_constructor ctx w;
  Some (WithCancel ctx s, w').

(** [new WithTimeout(ctx, ms)] *)
Definition new_WithTimeout (ctx : Context) (ms : Z) (w : World)
  : option (Context * World) :=
  '(s, w1) ← WithCancel_constructor ctx w;
  let '(id, w2) := setTimeout s ms w1 in
  w3 ← onCanceled s (mkClosure (next_fn w2) (CClearTimeout id)) (bump_fn w2);
  Some (WithTimeout ctx s, w3).

(** [ctx.error()] *)
Fixpoint error (ctx : Context) (w : World) : option Cause :=
  match ctx with
  | Background => None
  | WithValue parent _ _ => error parent w
  | WithCancel _ s | WithTimeout _ s => sg ← signals w !! s; _error sg
  end.

(** [ctx.done().aborted], for a context that has a signal. *)
Definition is_aborted (s : nat) (w : World) : bool :=
  match signals w !! s with Some sg => aborted sg | None => false end.

(** [ctx.cancel()], a method of [WithCancel] and [WithTimeout] only. *)
Definition cancel (ctx : Context) (w : World) : option World :=
  match ctx with
  | WithCancel _ s | WithTimeout _ s => signal_cancel s (Some Canceled) w
  | _ => None
  end.

(** *** The event loop's timers *)

(** A timer's callback runs, unless it was cleared. *)
Definition fire_timer (id : nat) (w : World) : option World :=
  t ← timers w !! id;
  if t_armed t then
    signal_cancel (t_signal t) (Some DeadlineExceeded)
      (set_now (Z.max (now w) (t_due t))
         (set_timers
            (<[id := mkTimer (t_due t) (t_signal t) false]> (timers w)) w))
  else Some w.

Fixpoint run_timers (ids : list nat) (w : World) : option World :=
  match ids with
  | [] => Some w
  | id :: ids' => w' ← fire_timer id w; run_timers ids' w'
  end.

(** The ids in [ids], with [id] put after those that are due no later. *)
Fixpoint insert_due (ts : list Timer) (id : nat) (ids : list nat)
  : list nat :=
  match ids with
  | [] => [id]
  | i :: ids' =>
      match ts !! id, ts !! i with
      | Some t, Some u =>
          if (t_due t <? t_due u)%Z then id :: ids
          else i :: insert_due ts id ids'
      | _, _ => id :: ids
      end
  end.

Definition is_due (target : Z) (w : World) (id : nat) : bool :=
  match timers w !! id with
  | Some t => t_armed t && (t_due t <=? target)%Z
  | None => false
  end.

(** The armed timers due by [target], earliest first, and in the order they
    were set when due together. *)
Definition due_timers (target : Z) (w : World) : list nat :=
  foldr (insert_due (timers w)) []
    (reverse
       (filter (λ id, is_due target w id = true)
          (seq 0 (length (timers w))))).

(** [ms] milliseconds pass, as in [await delay(ms)] of the tests: the timers
    that come due within [ms] run, in order.  No callback of the module
    sets a timer, so the due timers are known beforehand; one cleared by an
    earlier callback does not run. *)
Definition delay (ms : Z) (w : World) : option World :=
  let target := (now w + Z.max 0 ms)%Z in
  w' ← run_timers (due_timers target w) w;
  Some (set_now target w').

(** ** ContextPromise *)

(** A call of one of the resolving functions of a promise; an executor is
    the list of the calls it makes before it returns (one that throws makes
    a last call of the rejecting function, by the platform). *)
Inductive Settle : Type :=
| DoResolve (x : Resolution)
| DoReject (r : Reason).

Definition settle_with (p : nat) (a : Settle) (w : World) : option World :=
  match a with
  | DoResolve x => promise_resolve p x w
  | DoReject r => promise_reject p r w
  end.

Fixpoint run_executor (p : nat) (calls : list Settle) (w : World)
  : option World :=
  match calls with
  | [] => Some w
  | a :: calls' => w' ← settle_with p a w; run_executor p calls' w'
  end.

(** [new ContextPromise(ctx, executor)] gives the new promise. *)
Definition new_ContextPromise (ctx : Context) (executor : list Settle)
    (w : World) : option (nat * World) :=
  let p := length (promises w) in
  w1 ← run_executor p executor (set_promises (promises w ++ [Pending]) w);
  match done ctx with
  | None => Some (p, w1)
  | Some s =>
      w2 ← onCanceled s (mkClosure (next_fn w1) (CReject p)) (bump_fn w1);
      Some (p, w2)
  end.

(** The state a call of a resolving function puts a pending promise in. *)
Definition outcome (a : Settle) : PromiseState :=
  match a with
  | DoResolve x => resolved_with x
  | DoReject r => Rejected r
  end.

(** The thenable that promise [p] follows calls one of the resolving
    functions its [then] was handed (or [then] throws, which is a call of
    the rejecting one): the first such call decides; the promise follows
    another thenable when it is resolved with one again. *)
Definition thenable_calls (p : nat) (a : Settle) (w : World) : option World :=
  cur ← promises w !! p;
  Some (match cur with
        | Following _ => set_promises (<[p := outcome a]> (promises w)) w
        | _ => w
        end).

(** * Properties *)

(** ** Keys and values *)

(** The keys the specification rules out: undefined, null, objects, arrays
    and functions. *)
Definition structural_key (key : JSValue) : bool :=
  match key with
  | JSUndefined | JSNull | JSObject _ | JSArray _ | JSFunction _ => true
  | _ => false
  end.

(** The message of the error thrown for such a key. *)
Definition key_error (key : JSValue) : Error :=
  mkError
    match key with
    | JSArray _ => "array key"%string
    | JSObject _ => "object key"%string
    | JSFunction _ => "function key"%string
    | _ => "undefined or null key"%string
    end.

(** Some ancestor of [ctx], or [ctx] itself, binds a key that [key] is
    strictly equal to. *)
Fixpoint binds (ctx : Context) (key : JSValue) : bool :=
  match ctx with
  | Background => false
  | WithValue parent k _ => strict_equals k key || binds parent key
  | WithCancel parent _ | WithTimeout parent _ => binds parent key
  end.

Lemma SFeqb_refl (x : spec_float) : x ≠ S754_nan → SFeqb x x = true.
Proof.
  intros Hx. unfold SFeqb.
  destruct x as [s|s| |s m e]; try done; cbn.
  - by destruct s.
  - rewrite Z.compare_refl.
    change (Pos.compare_cont Eq m m) with (Pos.compare m m).
    rewrite Pos.compare_refl. by destruct s.
Qed.

Lemma strict_equals_refl (k : JSValue) : k ≠ NaN → strict_equals k k = true.
Proof.
  intros Hk. destruct k; cbn; try done.
  - by destruct b.
  - apply SFeqb_refl. intros ->. by apply Hk.
  - apply Z.eqb_refl.
  - apply String.eqb_refl.
  - apply Nat.eqb_refl.
  - apply Nat.eqb_refl.
  - apply Nat.eqb_refl.
  - apply Nat.eqb_refl.
Qed.

Lemma strict_equals_NaN_l (k : JSValue) : strict_equals NaN k = false.
Proof. by destruct k as [| | |[]| | | | | |]. Qed.

Lemma strict_equals_NaN_r (k : JSValue) : strict_equals k NaN = false.
Proof. by destruct k as [| | |[]| | | | | |]. Qed.

Lemma value_unbound (ctx : Context) (key : JSValue) :
  binds ctx key = false → value ctx key = JSNull.
Proof.
  induction ctx as [|parent IH k v|parent IH s|parent IH s]; cbn; try done.
  intros [Hk Hp]%orb_false_iff. rewrite Hk. by apply IH.
Qed.

(** C6.  [new WithValue] throws, and builds nothing, exactly for a key that
    is undefined, null, an object, an array or a function; for every other
    key, and so for every string, number and boolean (0, the empty string and
    false among them), it returns the node holding that key and value.
    Lookup, [error] and [done] are total functions: nothing throws later. *)
Theorem new_WithValue_key_check (parent : Context) (key val : JSValue) :
  new_WithValue parent key val =
    (if structural_key key then inl (key_error key)
     else inr (WithValue parent key val))
  ∧ (∀ s, new_WithValue parent (JSString s) val
          = inr (WithValue parent (JSString s) val))
  ∧ (∀ x, new_WithValue parent (JSNumber x) val
          = inr (WithValue parent (JSNumber x) val))
  ∧ (∀ b, new_WithValue parent (JSBoolean b) val
          = inr (WithValue parent (JSBoolean b) val))
  ∧ new_WithValue parent (JSNumber (S754_zero false)) val
    = inr (WithValue parent (JSNumber (S754_zero false)) val)
  ∧ new_WithValue parent (JSString EmptyString) val
    = inr (WithValue parent (JSString EmptyString) val)
  ∧ new_WithValue parent (JSBoolean false) val
    = inr (WithValue parent (JSBoolean false) val).
Proof.
  split; [by destruct key|].
  repeat split; done.
Qed.

(** C5, as stated, fails for the key NaN: both bindings are there, and the
    lookup of NaN finds neither. *)
Lemma value_shadowing_counterexample :
  ∃ mid tail,
    new_WithValue Background NaN (JSString "v1"%string) = inr mid
    ∧ new_WithValue mid NaN (JSString "v2"%string) = inr tail
    ∧ value tail NaN ≠ JSString "v2"%string
    ∧ value mid NaN ≠ JSString "v1"%string.
Proof.
  eexists _, _. split; [reflexivity|]. split; [reflexivity|].
  split; cbn; discriminate.
Qed.

(** C5, amended.  For every key [K] other than NaN, in the chain
    Background -> WithValue(K, V1) -> WithValue(K, V2) the lookup of [K]
    gives [V2] at the tail and [V1] at the middle node; and in every context
    a key that no node on the way to the root binds gives null. *)
Theorem value_shadowing (K V1 V2 : JSValue) (mid tail : Context) :
  K ≠ NaN →
  new_WithValue Background K V1 = inr mid →
  new_WithValue mid K V2 = inr tail →
  value tail K = V2
  ∧ value mid K = V1
  ∧ (∀ ctx key, binds ctx key = false → value ctx key = JSNull).
Proof.
  intros HK Hmid Htail.
  pose proof (strict_equals_refl K HK) as Hrefl.
  destruct (new_WithValue_key_check Background K V1) as [E1 _].
  destruct (new_WithValue_key_check mid K V2) as [E2 _].
  rewrite Hmid in E1. rewrite Htail in E2.
  destruct (structural_key K); [discriminate|].
  injection E1 as ->. injection E2 as ->.
  cbn. rewrite Hrefl. repeat split; try done.
  apply value_unbound.
Qed.

Lemma value_shadowing_witness :
  value (WithValue (WithValue Background (JSString "key"%string) (JSString "v1"%string))
           (JSString "key"%string) (JSString "v2"%string)) (JSString "key"%string) = JSString "v2"%string
  ∧ value (WithValue Background (JSString "key"%string) (JSString "v1"%string))
      (JSString "key"%string) = JSString "v1"%string
  ∧ (∀ ctx key, binds ctx key = false → value ctx key = JSNull).
Proof.
  apply (value_shadowing (JSString "key"%string) (JSString "v1"%string) (JSString "v2"%string));
    [discriminate | reflexivity | reflexivity].
Defined.

(** C10.  A node can be built with the key NaN, and looking NaN up never
    finds a binding: at the node bound to NaN the lookup goes on to the
    parent, and at every context the result is null. *)
Theorem value_NaN (parent : Context) (val : JSValue) :
  new_WithValue parent NaN val = inr (WithValue parent NaN val)
  ∧ value (WithValue parent NaN val) NaN = value parent NaN
  ∧ (∀ ctx, binds ctx NaN = false)
  ∧ (∀ ctx, value ctx NaN = JSNull).
Proof.
  assert (Hb : ∀ ctx, binds ctx NaN = false).
  { induction ctx as [|p IH k v|p IH s|p IH s]; cbn; try done.
    by rewrite strict_equals_NaN_r. }
  repeat split; try done.
  intros ctx. by apply value_unbound.
Qed.

(** ** How the store changes when signals fire *)

(** Firing allocates nothing: a signal can only lose listeners and become
    aborted, a timer can only be disarmed, a promise that is not pending
    stays as it is. *)
Definition signal_le (sg sg' : CancelSignal) : Prop :=
  listeners sg' `sublist_of` listeners sg
  ∧ (aborted sg = true → aborted sg' = true).
Definition timer_le (t t' : Timer) : Prop :=
  t_due t' = t_due t ∧ t_signal t' = t_signal t
  ∧ (t_armed t' = true → t_armed t = true).
Definition promise_le (st st' : PromiseState) : Prop :=
  st ≠ Pending → st' = st.

Record evolves (w w' : World) : Prop := mkEvolves {
  ev_signals : Forall2 signal_le (signals w) (signals w');
  ev_timers : Forall2 timer_le (timers w) (timers w');
  ev_promises : Forall2 promise_le (promises w) (promises w');
  ev_next_fn : next_fn w' = next_fn w
}.

#[local] Instance signal_le_po : PreOrder signal_le.
Proof.
  split.
  - by intros sg.
  - intros a b c [H1 H2] [H3 H4]. split; [by etrans|auto].
Qed.

#[local] Instance timer_le_po : PreOrder timer_le.
Proof.
  split.
  - by intros t.
  - intros a b c (H1 & H2 & H3) (H4 & H5 & H6).
    split_and!; [congruence|congruence|auto].
Qed.

#[local] Instance promise_le_po : PreOrder promise_le.
Proof.
  split.
  - by intros st.
  - intros a b c H1 H2 Ha. rewrite (H2 ltac:(by rewrite (H1 Ha))). auto.
Qed.

#[local] Instance evolves_po : PreOrder evolves.
Proof.
  split.
  - intros w. by split.
  - intros a b c [] []. split; [by etrans|by etrans|by etrans|congruence].
Qed.

Lemma Forall2_insert_same {A} (R : relation A) `{!Reflexive R}
    (l : list A) (i : nat) (x y : A) :
  l !! i = Some x → R x y → Forall2 R l (<[i:=y]> l).
Proof.
  intros Hx Hxy. rewrite <-(list_insert_id l i x) at 1 by done.
  by apply Forall2_insert.
Qed.

Lemma evolves_put_signal (s : nat) (sg sg' : CancelSignal) (w : World) :
  signals w !! s = Some sg → signal_le sg sg' → evolves w (put_signal s sg' w).
Proof.
  intros Hs Hle. split; cbn; try done.
  by eapply Forall2_insert_same.
Qed.

Lemma evolves_clearTimeout (id : nat) (w : World) :
  evolves w (clearTimeout id w).
Proof.
  unfold clearTimeout. destruct (timers w !! id) as [t|] eqn:Ht; [|done].
  split; cbn; try done.
  eapply Forall2_insert_same; [apply _|done|]. by split_and!.
Qed.

Lemma evolves_settle (p : nat) (st : PromiseState) (w w' : World) :
  settle p st w = Some w' → evolves w w'.
Proof.
  unfold settle. intros H.
  destruct (promises w !! p) as [cur|] eqn:Hp; simplify_eq/=.
  destruct cur; try done.
  split; cbn; try done.
  eapply Forall2_insert_same; [apply _|done|]. by intros ?.
Qed.

Lemma filter_listeners_le (P : Listener → Prop) `{!∀ l, Decision (P l)}
    (sg : CancelSignal) :
  signal_le sg (mkSignal (_error sg) (aborted sg) (filter P (listeners sg))).
Proof.
  split; cbn; [|done]. apply sublist_filter.
Qed.

Lemma evolves_removeEventListener (s h : nat) (w w' : World) :
  removeEventListener s h w = Some w' → evolves w w'.
Proof.
  unfold removeEventListener. intros H.
  destruct (signals w !! s) as [sg|] eqn:Hs; simplify_eq/=.
  eapply evolves_put_signal; [done|]. apply filter_listeners_le.
Qed.

Section evolution.
Variable cancel_fn : nat → option Cause → World → option World.
Hypothesis cancel_fn_evolves :
  ∀ c e w w', cancel_fn c e w = Some w' → evolves w w'.

Lemma call_evolves (fn : Closure) (arg : option Cause) (w w' : World) :
  call cancel_fn fn arg w = Some w' → evolves w w'.
Proof using cancel_fn_evolves.
  unfold call. destruct (fn_code fn) as [c p|p h|id|p]; intros H.
  - destruct (signals w !! p); simplify_eq/=. eauto.
  - by eapply evolves_removeEventListener.
  - simplify_eq. apply evolves_clearTimeout.
  - by eapply evolves_settle.
Qed.

Lemma dispatch_evolves (s : nat) (ls : list Listener) (w w' : World) :
  dispatch cancel_fn s ls w = Some w' → evolves w w'.
Proof using cancel_fn_evolves.
  revert w. induction ls as [|l ls IH]; intros w H; simplify_eq/=; [done|].
  destruct (signals w !! s) as [sg|] eqn:Hs; simplify_eq/=.
  case_decide as Hin; [|by eauto].
  match type of H with
  | context [call _ _ _ ?w1] =>
      assert (evolves w w1) as Hw1; [|destruct (call cancel_fn (l_fn l) (_error sg) w1) as [w2|] eqn:Hcall]
  end; simplify_eq/=.
  - destruct (l_once l); [|done].
    eapply evolves_put_signal; [done|]. apply filter_listeners_le.
  - etrans; [done|]. etrans; [by eapply call_evolves|]. by apply IH.
Qed.
End evolution.

Lemma cancel_signal_evolves (fuel s : nat) (e : option Cause) (w w' : World) :
  cancel_signal fuel s e w = Some w' → evolves w w'.
Proof.
  revert s e w w'. induction fuel as [|k IH]; intros s e w w' H;
    simplify_eq/=.
  destruct (signals w !! s) as [sg|] eqn:Hs; simplify_eq/=.
  assert (evolves w (put_signal s (mkSignal e true (listeners sg)) w)) as H0.
  { eapply evolves_put_signal; [done|]. by split. }
  destruct (aborted sg); simplify_eq/=; [done|].
  etrans; [done|]. eapply dispatch_evolves; [|done]. apply IH.
Qed.

(** ** Well-formed stores *)

(** [l] is a listener of signal [q]. *)
Definition listener_at (w : World) (q : nat) (l : Listener) : Prop :=
  ∃ sg, signals w !! q = Some sg ∧ l ∈ listeners sg.

(** What the constructors guarantee of a closure listening on signal [q]:
    a handler sits on the parent signal it reads and fires a signal created
    later; the function an unlisten closure wants to remove is never the
    registered callback of any listener (the registered one is the arrow
    function [onCanceled] wrapped around it); references are allocated.
    Registered callbacks are distinct function objects. *)
Definition code_ok (w : World) (q : nat) (code : Code) : Prop :=
  match code with
  | CPropagate c p => p = q ∧ q < c < length (signals w)
  | CUnlisten p h =>
      p < length (signals w) ∧ h < next_fn w
      ∧ ∀ q' l', listener_at w q' l' → l_id l' ≠ h
  | CClearTimeout _ => True
  | CReject pr => pr < length (promises w)
  end.

Record WF (w : World) : Prop := mkWF {
  wf_code : ∀ q l, listener_at w q l → code_ok w q (fn_code (l_fn l));
  wf_ids : ∀ q l, listener_at w q l → l_id l < next_fn w;
  wf_nodup : ∀ q sg, signals w !! q = Some sg → NoDup (l_id <$> listeners sg);
  wf_timers : ∀ i t, timers w !! i = Some t → t_signal t < length (signals w)
}.

(** The same, as a check that computes. *)
Definition all_listeners (w : World) : list (nat * Listener) :=
  mjoin (imap (λ q sg, pair q <$> listeners sg) (signals w)).

Definition code_okb (w : World) (q : nat) (code : Code) : bool :=
  match code with
  | CPropagate c p => (p =? q) && (q <? c) && (c <? length (signals w))
  | CUnlisten p h =>
      (p <? length (signals w)) && (h <? next_fn w)
      && forallb (λ ql, negb (l_id ql.2 =? h)) (all_listeners w)
  | CClearTimeout _ => true
  | CReject pr => pr <? length (promises w)
  end.

Definition wf_world (w : World) : bool :=
  forallb (λ ql, code_okb w ql.1 (fn_code (l_fn ql.2))
                 && (l_id ql.2 <? next_fn w)) (all_listeners w)
  && forallb (λ sg, bool_decide (NoDup (l_id <$> listeners sg))) (signals w)
  && forallb (λ t, t_signal t <? length (signals w)) (timers w).

Lemma elem_of_all_listeners (w : World) (q : nat) (l : Listener) :
  (q, l) ∈ all_listeners w ↔ listener_at w q l.
Proof.
  unfold all_listeners, listener_at. rewrite list_elem_of_join. split.
  - intros (ls & Hl & Hls). apply elem_of_lookup_imap in Hls as (i & sg & -> & Hi).
    apply list_elem_of_fmap in Hl as (l' & [= -> ->] & Hl'). eauto.
  - intros (sg & Hq & Hl). exists (pair q <$> listeners sg). split.
    + by apply list_elem_of_fmap_2.
    + apply elem_of_lookup_imap. eauto.
Qed.

Lemma code_okb_spec (w : World) (q : nat) (code : Code) :
  code_okb w q code = true ↔ code_ok w q code.
Proof.
  destruct code as [c p|p h|id|pr]; unfold code_okb, code_ok.
  - rewrite !andb_true_iff, Nat.eqb_eq, !Nat.ltb_lt. tauto.
  - rewrite !andb_true_iff, !Nat.ltb_lt, <-Is_true_true, forallb_True,
      Forall_forall.
    split.
    + intros [[? ?] Hf]. split_and!; try done.
      intros q' l' Hl%elem_of_all_listeners. apply Hf in Hl. cbn in Hl.
      apply Is_true_true, negb_true_iff, Nat.eqb_neq in Hl. done.
    + intros (? & ? & Hf). split; [done|]. intros [q' l'] Hl%elem_of_all_listeners.
      apply Is_true_true, negb_true_iff, Nat.eqb_neq. by eapply Hf.
  - done.
  - by rewrite Nat.ltb_lt.
Qed.

Lemma wf_world_spec (w : World) : wf_world w = true ↔ WF w.
Proof.
  unfold wf_world.
  rewrite !andb_true_iff, <-!Is_true_true, !forallb_True, !Forall_forall.
  split.
  - intros [[Hl Hnd] Ht]. split.
    + intros q l Hql%elem_of_all_listeners. apply Hl in Hql.
      apply Is_true_true, andb_true_iff in Hql as [Hc _].
      by apply code_okb_spec in Hc.
    + intros q l Hql%elem_of_all_listeners. apply Hl in Hql.
      apply Is_true_true, andb_true_iff in Hql as [_ Hi].
      by apply Nat.ltb_lt in Hi.
    + intros q sg Hq%list_elem_of_lookup_2. apply Hnd in Hq.
      by apply bool_decide_unpack in Hq.
    + intros i t Hit%list_elem_of_lookup_2. apply Ht in Hit.
      by apply Is_true_true, Nat.ltb_lt in Hit.
  - intros [Hc Hi Hnd Ht]. split; [split|].
    + intros [q l] Hql%elem_of_all_listeners.
      apply Is_true_true, andb_true_iff. split.
      * apply code_okb_spec. by apply Hc.
      * apply Nat.ltb_lt. by eapply Hi.
    + intros sg [q Hq]%list_elem_of_lookup.
      apply bool_decide_pack. by eapply Hnd.
    + intros t [i Hit]%list_elem_of_lookup.
      apply Is_true_true, Nat.ltb_lt. by eapply Ht.
Qed.

Lemma WF_empty : WF empty_world.
Proof. by apply wf_world_spec. Qed.

Lemma evolves_signal (w w' : World) (j : nat) (sg' : CancelSignal) :
  evolves w w' → signals w' !! j = Some sg' →
  ∃ sg, signals w !! j = Some sg ∧ signal_le sg sg'.
Proof.
  intros [Hs _ _ _] Hj.
  destruct (Forall2_lookup_r _ _ _ _ _ Hs Hj) as (sg & ? & ?). eauto.
Qed.

Lemma evolves_listener_at (w w' : World) (q : nat) (l : Listener) :
  evolves w w' → listener_at w' q l → listener_at w q l.
Proof.
  intros Hev (sg' & Hq & Hl).
  destruct (evolves_signal _ _ _ _ Hev Hq) as (sg & ? & Hsub & _).
  exists sg. split; [done|]. by eapply sublist_subseteq.
Qed.

Lemma evolves_length_signals (w w' : World) :
  evolves w w' → length (signals w') = length (signals w).
Proof. intros [Hs _ _ _]. symmetry. by eapply Forall2_length. Qed.

Lemma evolves_length_promises (w w' : World) :
  evolves w w' → length (promises w') = length (promises w).
Proof. intros [_ _ Hp _]. symmetry. by eapply Forall2_length. Qed.

Lemma code_ok_evolves (w w' : World) (q : nat) (code : Code) :
  evolves w w' → code_ok w q code → code_ok w' q code.
Proof.
  intros Hev. pose proof (evolves_length_signals _ _ Hev) as Hlen.
  pose proof (evolves_length_promises _ _ Hev) as Hlenp.
  pose proof (ev_next_fn _ _ Hev) as Hfn.
  destruct code as [c p|p h|id|pr]; cbn; rewrite ?Hlen, ?Hlenp, ?Hfn;
    try done.
  intros (? & ? & Hf). split_and!; try done.
  intros q' l' Hl. eapply Hf. by eapply evolves_listener_at.
Qed.

Lemma WF_evolves (w w' : World) : WF w → evolves w w' → WF w'.
Proof.
  intros [Hc Hi Hnd Ht] Hev. split.
  - intros q l Hl. eapply code_ok_evolves; [done|].
    apply Hc. by eapply evolves_listener_at.
  - intros q l Hl. rewrite (ev_next_fn _ _ Hev).
    eapply Hi. by eapply evolves_listener_at.
  - intros q sg' Hq.
    destruct (evolves_signal _ _ _ _ Hev Hq) as (sg & Hsg & Hsub & _).
    eapply sublist_NoDup; [by eapply Hnd|]. by apply fmap_sublist.
  - intros i t Hi'. rewrite (evolves_length_signals _ _ Hev).
    destruct (Forall2_lookup_r _ _ _ _ _ (ev_timers _ _ Hev) Hi')
      as (t0 & Ht0 & _ & Hsig & _).
    rewrite Hsig. by eapply Ht.
Qed.

Lemma filter_all {A} (P : A → Prop) `{!∀ x, Decision (P x)} (l : list A) :
  (∀ x, x ∈ l → P x) → filter P l = l.
Proof.
  induction l as [|x l IH]; intros Hall; [done|].
  rewrite filter_cons_True by (apply Hall; left).
  f_equal. apply IH. intros y Hy. apply Hall. by right.
Qed.

(** Removing a function that is not a registered callback changes nothing. *)
Lemma removeEventListener_fresh (p h : nat) (psg : CancelSignal) (w : World) :
  signals w !! p = Some psg → (∀ l, l ∈ listeners psg → l_id l ≠ h) →
  removeEventListener p h w = Some w.
Proof.
  intros Hp Hfresh. unfold removeEventListener. rewrite Hp. cbn. f_equal.
  rewrite filter_all by done.
  destruct w as [sigs ts ps nf t], psg as [e a ls]; cbn in *.
  unfold put_signal, set_signals; cbn. f_equal. by apply list_insert_id.
Qed.

Lemma signals_clearTimeout (id : nat) (w : World) :
  signals (clearTimeout id w) = signals w.
Proof. unfold clearTimeout. by destruct (timers w !! id). Qed.

Lemma signals_settle (p : nat) (st : PromiseState) (w w' : World) :
  settle p st w = Some w' → signals w' = signals w.
Proof.
  unfold settle. intros H.
  destruct (promises w !! p) as [[]|]; by simplify_eq/=.
Qed.

(** What firing signal [c] with cause [e] does in a well-formed store:
    signals created before [c] are untouched, and [c] is aborted and records
    [e]. *)
Definition fired_from (c : nat) (e : option Cause) (w w' : World) : Prop :=
  evolves w w'
  ∧ (∀ j, j < c → signals w' !! j = signals w !! j)
  ∧ ∃ sg', signals w' !! c = Some sg' ∧ _error sg' = e ∧ aborted sg' = true.

(** The listener about to run, taken off the list when it is [once]. *)
Definition take_once (s : nat) (l : Listener) (sg : CancelSignal) (w : World)
  : World :=
  if l_once l then
    put_signal s
      (mkSignal (_error sg) (aborted sg)
         (filter (λ l', l_id l' ≠ l_id l) (listeners sg))) w
  else w.

Section dispatching.
Variable cancel_fn : nat → option Cause → World → option World.
Variables n s : nat.
Hypothesis cancel_fn_ok : ∀ c e w,
  WF w → length (signals w) = n → s < c < n →
  ∃ w', cancel_fn c e w = Some w' ∧ fired_from c e w w'.

Lemma call_ok (fn : Closure) (arg : option Cause) (w0 w : World) :
  WF w0 → evolves w0 w → code_ok w0 s (fn_code fn) →
  length (signals w0) = n → s < n →
  ∃ w', call cancel_fn fn arg w = Some w' ∧ evolves w w'
        ∧ ∀ j, j ≤ s → signals w' !! j = signals w !! j.
Proof using cancel_fn_ok.
  intros Hwf0 Hev Hok Hn Hs.
  pose proof (evolves_length_signals _ _ Hev) as Hlen.
  unfold call. destruct (fn_code fn) as [c p|p h|id|pr]; cbn in Hok.
  - destruct Hok as [-> Hc].
    destruct (lookup_lt_is_Some_2 (signals w) s) as [psg Hpsg]; [lia|].
    rewrite Hpsg. cbn.
    destruct (cancel_fn_ok c (_error psg) w) as (w' & Hw' & Hev' & Hlow & _);
      [by eapply WF_evolves|lia|lia|].
    exists w'. split_and!; try done. intros j Hj. apply Hlow. lia.
  - destruct Hok as (Hp & _ & Hfresh).
    destruct (lookup_lt_is_Some_2 (signals w) p) as [psg Hpsg]; [lia|].
    exists w. split_and!; try done.
    eapply removeEventListener_fresh; [done|].
    intros l' Hl'. eapply Hfresh, evolves_listener_at; [done|].
    by exists psg.
  - eexists. split_and!; [done|apply evolves_clearTimeout|].
    intros j _. by rewrite signals_clearTimeout.
  - rewrite <-(evolves_length_promises _ _ Hev) in Hok.
    destruct (lookup_lt_is_Some_2 _ _ Hok) as [cur Hcur].
    destruct (settle pr (Rejected (RCause arg)) w) as [w'|] eqn:Hw'.
    + exists w'. split_and!; [done|by eapply evolves_settle|].
      intros j _. by rewrite (signals_settle _ _ _ _ Hw').
    + unfold settle in Hw'. rewrite Hcur in Hw'. done.
Qed.

Lemma dispatch_ok (ls : list Listener) (w0 w : World) :
  WF w0 → evolves w0 w → (∀ l, l ∈ ls → listener_at w0 s l) →
  length (signals w0) = n → s < n →
  ∃ w', dispatch cancel_fn s ls w = Some w' ∧ evolves w w'
        ∧ (∀ j, j < s → signals w' !! j = signals w !! j)
        ∧ ∀ sg, signals w !! s = Some sg →
            ∃ sg', signals w' !! s = Some sg'
                   ∧ _error sg' = _error sg ∧ aborted sg' = aborted sg.
Proof using cancel_fn_ok.
  intros Hwf0 Hev Hls Hn Hs. revert w Hev.
  induction ls as [|l ls IH]; intros w Hev; cbn.
  { exists w. split_and!; [done..|eauto]. }
  pose proof (evolves_length_signals _ _ Hev) as Hlen.
  destruct (lookup_lt_is_Some_2 (signals w) s) as [sg Hsg]; [lia|].
  rewrite Hsg. cbn.
  assert (∀ l', l' ∈ ls → listener_at w0 s l') as Hls'.
  { intros l' Hl'. apply Hls. by right. }
  case_decide as Hin; [|rewrite <-Hsg; by apply IH].
  set (w1 := if l_once l then _ else w).
  assert (evolves w w1 ∧ (∀ j, j ≠ s → signals w1 !! j = signals w !! j)
          ∧ ∃ sg1, signals w1 !! s = Some sg1 ∧ _error sg1 = _error sg
                   ∧ aborted sg1 = aborted sg) as (Hev1 & Hne1 & Hs1).
  { subst w1. destruct (l_once l); [|split_and!; [done..|by exists sg]].
    split_and!.
    - eapply evolves_put_signal; [done|]. apply filter_listeners_le.
    - intros j Hj. cbn. by rewrite list_lookup_insert_ne.
    - eexists. split; [cbn; apply list_lookup_insert_eq; by eapply lookup_lt_Some|].
      done. }
  destruct Hs1 as (sg1 & Hsg1 & He1 & Ha1).
  destruct (call_ok (l_fn l) (_error sg) w0 w1) as (w2 & Hw2 & Hev2 & Hlow2);
    [done|by etrans|by apply (wf_code _ Hwf0), Hls; left|done|done|].
  rewrite Hw2. cbn.
  destruct (IH Hls' w2) as (w' & Hw' & Hev' & Hlow' & Hs');
    [by etrans; [|etrans]|].
  exists w'. split_and!; [done|by etrans; [|etrans]|..].
  - intros j Hj. rewrite Hlow', Hlow2, Hne1 by lia. done.
  - intros sg0 Hsg0. simplify_eq.
    destruct (Hs' sg1) as (sg' & ? & ? & ?).
    { rewrite Hlow2 by lia. done. }
    exists sg'. split_and!; [done|congruence..].
Qed.
(** An invariant of the listeners still to run: every listener of the
    snapshot is still registered when its turn comes, so it runs, and each
    run is a step of the invariant. *)
Lemma dispatch_hoare (I : list Listener → World → Prop) (w0 : World) :
  WF w0 → length (signals w0) = n → s < n →
  (∀ l rest wc sg wc2,
     evolves w0 wc → signals wc !! s = Some sg → listener_at w0 s l →
     I (l :: rest) wc →
     call cancel_fn (l_fn l) (_error sg) (take_once s l sg wc) = Some wc2 →
     evolves wc wc2 →
     (∀ j, j < s → signals wc2 !! j = signals wc !! j) →
     (∃ sg2, signals wc2 !! s = Some sg2 ∧ _error sg2 = _error sg
             ∧ aborted sg2 = aborted sg) →
     I rest wc2) →
  ∀ ls w,
    evolves w0 w → (∀ l, l ∈ ls → listener_at w0 s l) →
    NoDup (l_id <$> ls) →
    (∀ sg l, signals w !! s = Some sg → l ∈ ls →
             l_id l ∈ l_id <$> listeners sg) →
    I ls w →
    ∃ w', dispatch cancel_fn s ls w = Some w' ∧ evolves w w' ∧ I [] w'.
Proof using cancel_fn_ok.
  intros Hwf0 Hn Hs Hstep ls.
  induction ls as [|l ls IH]; intros w Hev Hls Hnd Hpres HI; cbn.
  { by exists w. }
  pose proof (evolves_length_signals _ _ Hev) as Hlen.
  destruct (lookup_lt_is_Some_2 (signals w) s) as [sg Hsg]; [lia|].
  rewrite Hsg. cbn.
  rewrite decide_True by (apply (Hpres sg); [done|left]).
  fold (take_once s l sg w).
  assert (evolves w (take_once s l sg w)
          ∧ (∀ j, j ≠ s → signals (take_once s l sg w) !! j = signals w !! j)
          ∧ ∃ sg1, signals (take_once s l sg w) !! s = Some sg1
                   ∧ _error sg1 = _error sg ∧ aborted sg1 = aborted sg
                   ∧ ∀ l', l' ∈ ls → l_id l' ∈ l_id <$> listeners sg1)
    as (Hev1 & Hne1 & sg1 & Hsg1 & He1 & Ha1 & Hpres1).
  { apply NoDup_cons in Hnd as [Hnotin _].
    unfold take_once. destruct (l_once l).
    - split_and!.
      + eapply evolves_put_signal; [done|]. apply filter_listeners_le.
      + intros j Hj. cbn. by rewrite list_lookup_insert_ne.
      + eexists. split; [cbn; apply list_lookup_insert_eq; lia|].
        split_and!; [done..|]. cbn. intros l' Hl'.
        assert (l_id l' ∈ l_id <$> listeners sg) as Hin
          by (apply (Hpres sg); [done|by right]).
        apply list_elem_of_fmap in Hin as (l'' & Hid & Hl'').
        apply list_elem_of_fmap. exists l''. split; [done|].
        apply list_elem_of_filter. split; [|done].
        intros Heq. apply Hnotin. rewrite <-Heq, <-Hid.
        by apply list_elem_of_fmap_2.
    - split_and!; [done..|]. exists sg. split_and!; [done..|].
      intros l' Hl'. apply (Hpres sg); [done|by right]. }
  destruct (call_ok (l_fn l) (_error sg) w0 (take_once s l sg w))
    as (w2 & Hw2 & Hev2 & Hlow2);
    [done|by etrans|by apply (wf_code _ Hwf0), Hls; left|done|done|].
  rewrite Hw2. cbn.
  assert (signals w2 !! s = Some sg1) as Hsg2 by by rewrite Hlow2.
  destruct (IH w2) as (w' & Hw' & Hev' & HI').
  - etrans; [exact Hev|]. by etrans.
  - intros l' Hl'. apply Hls. by right.
  - by apply NoDup_cons in Hnd as [_ ?].
  - intros sg' l' Hsg' Hl'. simplify_eq. by apply Hpres1.
  - eapply (Hstep l ls w sg w2); try done.
    + apply Hls. left.
    + by etrans.
    + intros j Hj. rewrite Hlow2, Hne1 by lia. done.
    + by exists sg1.
  - exists w'. split_and!; [done| |done].
    etrans; [exact Hev1|]. by etrans.
Qed.
End dispatching.

(** In a well-formed store a firing runs to its end with fuel for the
    signals created after the one fired. *)
Lemma cancel_signal_ok (fuel s : nat) (e : option Cause) (w : World) :
  WF w → s < length (signals w) → length (signals w) - s ≤ fuel →
  ∃ w', cancel_signal (S fuel) s e w = Some w' ∧ fired_from s e w w'.
Proof.
  revert s e w. induction fuel as [fuel IH] using lt_wf_ind.
  intros s e w Hwf Hs Hfuel. cbn.
  destruct (lookup_lt_is_Some_2 _ _ Hs) as [sg Hsg]. rewrite Hsg. cbn.
  set (w1 := put_signal s (mkSignal e true (listeners sg)) w).
  assert (evolves w w1) as Hev1.
  { eapply evolves_put_signal; [done|]. by split. }
  assert (signals w1 !! s = Some (mkSignal e true (listeners sg))) as Hs1.
  { cbn. by apply list_lookup_insert_eq. }
  assert (∀ j, j < s → signals w1 !! j = signals w !! j) as Hlow1.
  { intros j Hj. cbn. apply list_lookup_insert_ne. lia. }
  destruct (aborted sg).
  { exists w1. split; [done|]. split_and!; eauto. }
  destruct (dispatch_ok (cancel_signal fuel) (length (signals w)) s)
    with (ls := listeners sg) (w0 := w) (w := w1)
    as (w' & Hw' & Hev' & Hlow' & Hs'); try done.
  - intros c e' w2 Hwf2 Hlen2 Hc.
    destruct fuel as [|fuel]; [lia|].
    apply IH; [lia|done|lia|lia].
  - intros l Hl. by exists sg.
  - exists w'. split; [done|]. split_and!.
    + by etrans.
    + intros j Hj. by rewrite Hlow', Hlow1.
    + destruct (Hs' _ Hs1) as (sg' & ? & ? & ?). by exists sg'.
Qed.

Lemma signal_cancel_ok (s : nat) (e : option Cause) (w : World) :
  WF w → s < length (signals w) →
  ∃ w', signal_cancel s e w = Some w' ∧ fired_from s e w w'.
Proof.
  intros Hwf Hs. apply cancel_signal_ok; [done..|lia].
Qed.

(** ** The constructors, step by step *)

#[local] Arguments signal_cancel : simpl never.
#[local] Arguments onCanceled : simpl never.
#[local] Arguments new_CancelSignal : simpl never.

Lemma lookup_snoc_new {A} (l : list A) (x : A) :
  (l ++ [x]) !! length l = Some x.
Proof. by apply list_lookup_middle. Qed.

Lemma put_signal_twice (s : nat) (a b : CancelSignal) (w : World) :
  put_signal s a (put_signal s b w) = put_signal s a w.
Proof.
  unfold put_signal, set_signals. cbn. by rewrite list_insert_insert_eq.
Qed.

Lemma onCanceled_pending (s : nat) (fn : Closure) (sg : CancelSignal)
    (w : World) :
  signals w !! s = Some sg → aborted sg = false →
  onCanceled s fn w =
    Some (put_signal s
            (mkSignal (_error sg) false
               (listeners sg ++ [mkListener (next_fn w) fn true]))
            (bump_fn w)).
Proof.
  intros Hs Ha. unfold onCanceled, addEventListener. rewrite Hs. cbn.
  rewrite Ha, Hs. cbn. by rewrite Ha.
Qed.

Lemma onCanceled_aborted (s : nat) (fn : Closure) (sg : CancelSignal)
    (w : World) :
  signals w !! s = Some sg → aborted sg = true →
  onCanceled s fn w = call signal_cancel fn (_error sg) w.
Proof. intros Hs Ha. unfold onCanceled. rewrite Hs. cbn. by rewrite Ha. Qed.

(** Firing a signal that nobody observes yet. *)
Lemma signal_cancel_unobserved (s : nat) (e e0 : option Cause) (w : World) :
  signals w !! s = Some (mkSignal e0 false []) →
  signal_cancel s e w = Some (put_signal s (mkSignal e true []) w).
Proof. intros Hs. unfold signal_cancel, enough_fuel. cbn. by rewrite Hs. Qed.

(** Firing a signal that has fired: only the recorded cause is written. *)
Lemma signal_cancel_aborted (s : nat) (e : option Cause) (sg : CancelSignal)
    (w : World) :
  signals w !! s = Some sg → aborted sg = true →
  signal_cancel s e w = Some (put_signal s (mkSignal e true (listeners sg)) w).
Proof.
  intros Hs Ha. unfold signal_cancel, enough_fuel. cbn. rewrite Hs. cbn.
  by rewrite Ha.
Qed.

Lemma WithCancel_constructor_root (ctx : Context) (w : World) :
  done ctx = None →
  WithCancel_constructor ctx w =
    Some (length (signals w), set_signals (signals w ++ [new_CancelSignal]) w).
Proof. intros Hd. unfold WithCancel_constructor. by rewrite Hd. Qed.

(** Over a parent that has not fired: the handler is wrapped and put on the
    parent's signal, the unlisten closure on the new signal. *)
Lemma WithCancel_constructor_pending (ctx : Context) (ps : nat)
    (psg : CancelSignal) (w : World) :
  done ctx = Some ps → signals w !! ps = Some psg → aborted psg = false →
  let s := length (signals w) in
  let h := next_fn w in
  WithCancel_constructor ctx w =
    Some (s,
          mkWorld
            (<[s := mkSignal None false
                      [mkListener (3 + h)
                         (mkClosure (2 + h) (CUnlisten ps h)) true]]>
               (<[ps := mkSignal (_error psg) false
                          (listeners psg
                           ++ [mkListener (1 + h)
                                 (mkClosure h (CPropagate s ps)) true])]>
                  (signals w ++ [new_CancelSignal])))
            (timers w) (promises w) (4 + h) (now w)).
Proof.
  intros Hd Hps Ha s h. unfold WithCancel_constructor. rewrite Hd.
  pose proof (lookup_lt_Some _ _ _ Hps) as Hlt.
  erewrite onCanceled_pending; [|by apply lookup_app_l_Some|done].
  cbn. rewrite (onCanceled_pending _ _ new_CancelSignal); [done| |done].
  cbn. rewrite list_lookup_insert_ne by lia. apply lookup_snoc_new.
Qed.

(** Over a parent that has fired: the handler runs at once and fires the new
    signal with the parent's cause; then the unlisten closure runs at once. *)
Lemma WithCancel_constructor_aborted (ctx : Context) (ps : nat)
    (psg : CancelSignal) (w : World) :
  done ctx = Some ps → signals w !! ps = Some psg → aborted psg = true →
  let s := length (signals w) in
  let h := next_fn w in
  WithCancel_constructor ctx w =
    Some (s,
          mkWorld
            (<[ps := mkSignal (_error psg) true
                       (filter (λ l, l_id l ≠ h) (listeners psg))]>
               (<[s := mkSignal (_error psg) true []]>
                  (signals w ++ [new_CancelSignal])))
            (timers w) (promises w) (2 + h) (now w)).
Proof.
  intros Hd Hps Ha s h. unfold WithCancel_constructor. rewrite Hd.
  pose proof (lookup_lt_Some _ _ _ Hps) as Hlt.
  assert ((signals w ++ [new_CancelSignal]) !! ps = Some psg) as Hps'
    by by apply lookup_app_l_Some.
  erewrite onCanceled_aborted; [|done..].
  unfold call at 1. cbn. rewrite Hps'. cbn.
  erewrite signal_cancel_unobserved; [|apply lookup_snoc_new].
  cbn. rewrite (onCanceled_aborted _ _ (mkSignal (_error psg) true []));
    [| |done]; last first.
  { cbn. apply list_lookup_insert_eq. rewrite length_app. cbn. lia. }
  unfold call, removeEventListener. cbn.
  rewrite list_lookup_insert_ne by (subst s; lia).
  rewrite Hps'. cbn. by rewrite Ha.
Qed.

Lemma new_WithCancel_unfold (ctx : Context) (s : nat) (w w' : World) :
  WithCancel_constructor ctx w = Some (s, w') →
  new_WithCancel ctx w = Some (WithCancel ctx s, w').
Proof. intros H. unfold new_WithCancel. by rewrite H. Qed.

(** The timer is set, and cleared at once when the node was born canceled. *)
Lemma new_WithTimeout_unfold (ctx : Context) (ms : Z) (s : nat)
    (sg : CancelSignal) (w w1 : World) :
  WithCancel_constructor ctx w = Some (s, w1) →
  signals w1 !! s = Some sg →
  let id := length (timers w1) in
  let w2 :=
    set_timers (timers w1 ++ [mkTimer (now w1 + timeout_delay ms) s true]) w1 in
  new_WithTimeout ctx ms w =
    Some (WithTimeout ctx s,
          if aborted sg then clearTimeout id (bump_fn w2)
          else put_signal s
                 (mkSignal (_error sg) false
                    (listeners sg
                     ++ [mkListener (S (next_fn w1))
                           (mkClosure (next_fn w1) (CClearTimeout id)) true]))
                 (bump_fn (bump_fn w2))).
Proof.
  intros Hc Hs id w2. unfold new_WithTimeout. rewrite Hc. cbn.
  destruct (aborted sg) eqn:Ha.
  - by rewrite (onCanceled_aborted _ _ sg).
  - by rewrite (onCanceled_pending _ _ sg).
Qed.

Lemma error_done (ctx : Context) (s : nat) (w : World) :
  done ctx = Some s → error ctx w = signals w !! s ≫= _error.
Proof.
  induction ctx as [|p IH k v|p IH s'|p IH s']; cbn; try done;
    by intros [= ->].
Qed.

Lemma error_root (ctx : Context) (w : World) :
  done ctx = None → error ctx w = None.
Proof. induction ctx as [|p IH k v|p IH s'|p IH s']; cbn; done. Qed.

(** ** Cancel after the signal has fired *)

(** C2, as stated, fails: a [WithTimeout] node whose deadline has passed
    records [DeadlineExceeded]; [cancel()] then replaces the cause by
    [Canceled]. *)
Lemma cancel_after_deadline_counterexample :
  ∃ t w w',
    (new_WithTimeout Background 20 empty_world
       ≫= λ '(t, w0), delay 21 w0 ≫= λ w, Some (t, w)) = Some (t, w)
    ∧ (∃ s, done t = Some s ∧ is_aborted s w = true)
    ∧ error t w = Some DeadlineExceeded
    ∧ cancel t w = Some w'
    ∧ error t w' = Some Canceled
    ∧ error t w' ≠ error t w.
Proof.
  eexists _, _, _. split; [vm_compute; reflexivity|].
  split; [by exists 0|].
  split; [reflexivity|]. split; [vm_compute; reflexivity|].
  split; [reflexivity|]. discriminate.
Qed.

(** C2, amended.  On a [WithCancel] or [WithTimeout] node whose signal has
    fired, [cancel()] fires nothing again: it only writes [Canceled] as the
    recorded cause, and leaves the listeners, the flag and the rest of the
    store as they are.  So [error()] is unchanged when the cause was
    [Canceled] already (a second [cancel()], or a canceled ancestor), and
    becomes [Canceled] when it was [DeadlineExceeded]. *)
Theorem cancel_after_fired (node parent : Context) (s : nat)
    (sg : CancelSignal) (w : World) :
  node = WithCancel parent s ∨ node = WithTimeout parent s →
  signals w !! s = Some sg → aborted sg = true →
  cancel node w =
    Some (put_signal s (mkSignal (Some Canceled) true (listeners sg)) w)
  ∧ (∀ w', cancel node w = Some w' →
       error node w' = Some Canceled ∧ is_aborted s w' = true)
  ∧ (_error sg = Some Canceled → cancel node w = Some w).
Proof.
  intros Hnode Hs Ha.
  assert (cancel node w =
          Some (put_signal s (mkSignal (Some Canceled) true (listeners sg)) w))
    as Hc.
  { destruct Hnode as [-> | ->]; cbn; by apply signal_cancel_aborted. }
  pose proof (lookup_lt_Some _ _ _ Hs) as Hlt.
  split_and!; [done|..].
  - intros w' Hw'. rewrite Hc in Hw'. injection Hw' as <-.
    unfold is_aborted.
    destruct Hnode as [-> | ->]; cbn; by rewrite list_lookup_insert_eq.
  - intros He. rewrite Hc. f_equal.
    destruct w as [sigs ts ps nf t], sg as [e a ls]; cbn in *. subst.
    unfold put_signal, set_signals. cbn. f_equal. by apply list_insert_id.
Qed.

Lemma cancel_after_fired_witness :
  let w := mkWorld [mkSignal (Some DeadlineExceeded) true []]
             [mkTimer 20 0 false] [] 2 21 in
  signals w !! 0 = Some (mkSignal (Some DeadlineExceeded) true [])
  ∧ cancel (WithTimeout Background 0) w =
      Some (put_signal 0 (mkSignal (Some Canceled) true []) w).
Proof.
  intros w. split; [reflexivity|].
  apply (cancel_after_fired (WithTimeout Background 0) Background 0
           (mkSignal (Some DeadlineExceeded) true []) w);
    [by right | reflexivity | reflexivity].
Defined.

(** ** Born canceled *)

(** C9.  A [WithCancel] or [WithTimeout] node built over a parent whose
    signal has fired is canceled when the constructor returns: its signal is
    aborted and its [error()] is the cause the parent records; the timer of
    a [WithTimeout] node is set and cleared at once. *)
Theorem born_canceled (ctx : Context) (ps : nat) (psg : CancelSignal)
    (ms : Z) (w : World) :
  done ctx = Some ps → signals w !! ps = Some psg → aborted psg = true →
  let s := length (signals w) in
  (∃ w', new_WithCancel ctx w = Some (WithCancel ctx s, w')
         ∧ is_aborted s w' = true
         ∧ error (WithCancel ctx s) w' = error ctx w
         ∧ error ctx w' = error ctx w)
  ∧ (∃ w', new_WithTimeout ctx ms w = Some (WithTimeout ctx s, w')
           ∧ is_aborted s w' = true
           ∧ error (WithTimeout ctx s) w' = error ctx w
           ∧ error ctx w' = error ctx w
           ∧ ∃ t, timers w' !! length (timers w) = Some t
                  ∧ t_signal t = s ∧ t_armed t = false).
Proof.
  intros Hd Hps Ha s.
  pose proof (WithCancel_constructor_aborted ctx ps psg w Hd Hps Ha) as Hc.
  cbn zeta in Hc. fold s in Hc.
  pose proof (lookup_lt_Some _ _ _ Hps) as Hlt.
  rewrite !(error_done ctx ps) by done. rewrite Hps. cbn.
  match type of Hc with _ = Some (_, ?x) => set (w1 := x) in * end.
  assert (signals w1 !! s = Some (mkSignal (_error psg) true [])) as Hs1.
  { cbn. rewrite list_lookup_insert_ne by (subst s; lia).
    apply list_lookup_insert_eq. rewrite length_app. cbn. subst s. lia. }
  assert (∃ psg', signals w1 !! ps = Some psg' ∧ _error psg' = _error psg)
    as (psg' & Hps1 & Hpe1).
  { eexists. split; [cbn; apply list_lookup_insert_eq|done].
    rewrite length_insert, length_app. lia. }
  split.
  - exists w1. split; [by apply new_WithCancel_unfold|].
    rewrite (error_done ctx ps) by done.
    unfold is_aborted. rewrite Hs1, Hps1. cbn. by rewrite Hpe1.
  - rewrite (new_WithTimeout_unfold ctx ms s _ w w1 Hc Hs1). cbn.
    eexists. split; [done|].
    rewrite (error_done ctx ps) by done.
    unfold is_aborted. rewrite signals_clearTimeout. cbn [signals bump_fn set_timers].
    fold (signals w1). rewrite Hs1, Hps1. cbn. rewrite Hpe1.
    split_and!; try done.
    unfold clearTimeout. cbn. rewrite lookup_snoc_new. cbn.
    eexists. split; [apply list_lookup_insert_eq|done].
    rewrite length_app. cbn. lia.
Qed.

Lemma born_canceled_witness :
  let w := mkWorld [mkSignal (Some Canceled) true []] [] [] 0 0 in
  let ctx := WithCancel Background 0 in
  done ctx = Some 0
  ∧ signals w !! 0 = Some (mkSignal (Some Canceled) true [])
  ∧ ∃ w', new_WithCancel ctx w = Some (WithCancel ctx 1, w')
          ∧ is_aborted 1 w' = true
          ∧ error (WithCancel ctx 1) w' = error ctx w
          ∧ error ctx w' = error ctx w.
Proof.
  intros w ctx. split; [reflexivity|]. split; [reflexivity|].
  apply (born_canceled ctx 0 (mkSignal (Some Canceled) true []) 0 w);
    reflexivity.
Defined.

(** ** The observer a child leaves on its parent *)

(** C3 fails on the code.  The constructor registers on the parent's signal
    the arrow function that [onCanceled] wraps around [handler], and later
    asks to remove [handler] itself, which is not a registered callback:
    nothing is removed.  After the child's own [cancel()], with the parent
    not fired, the parent's signal still holds the child's observer. *)
Theorem observer_kept_after_child_fires (ctx : Context) (ps : nat)
    (psg : CancelSignal) (w : World) :
  done ctx = Some ps → signals w !! ps = Some psg → aborted psg = false →
  let s := length (signals w) in
  let h := next_fn w in
  let observer := mkListener (1 + h) (mkClosure h (CPropagate s ps)) true in
  ∃ w1 w2,
    new_WithCancel ctx w = Some (WithCancel ctx s, w1)
    ∧ listener_at w1 ps observer
    ∧ cancel (WithCancel ctx s) w1 = Some w2
    ∧ is_aborted s w2 = true
    ∧ is_aborted ps w2 = false
    ∧ listener_at w2 ps observer.
Proof.
  intros Hd Hps Ha s h observer.
  pose proof (WithCancel_constructor_pending ctx ps psg w Hd Hps Ha) as Hc.
  cbn zeta in Hc. fold s h in Hc.
  pose proof (lookup_lt_Some _ _ _ Hps) as Hlt.
  match type of Hc with _ = Some (_, ?x) => set (w1 := x) in * end.
  set (unl := mkListener (3 + h) (mkClosure (2 + h) (CUnlisten ps h)) true).
  set (psg1 := mkSignal (_error psg) false (listeners psg ++ [observer])).
  assert (signals w1 !! s = Some (mkSignal None false [unl])) as Hs1.
  { cbn. apply list_lookup_insert_eq.
    rewrite length_insert, length_app. cbn. subst s. lia. }
  assert (signals w1 !! ps = Some psg1) as Hps1.
  { cbn. rewrite list_lookup_insert_ne by (subst s; lia).
    apply list_lookup_insert_eq. rewrite length_app. lia. }
  assert (length (signals w1) = S s) as Hlen1.
  { cbn. rewrite !length_insert, length_app. cbn. subst s. lia. }
  apply new_WithCancel_unfold in Hc. clearbody w1.
  set (psg2 := mkSignal (_error psg) false
                 (filter (λ l, l_id l ≠ h) (listeners psg ++ [observer]))).
  exists w1,
    (put_signal ps psg2 (put_signal s (mkSignal (Some Canceled) true []) w1)).
  split; [done|].
  split.
  { exists psg1. split; [done|]. cbn. apply elem_of_app. right. left. }
  split.
  { unfold cancel, signal_cancel, enough_fuel. rewrite Hlen1.
    cbn [cancel_signal]. rewrite Hs1. cbn.
    rewrite list_lookup_insert_eq by lia. cbn.
    rewrite decide_True by (left).
    rewrite decide_False by (intros Hne; by apply Hne).
    unfold removeEventListener. cbn.
    rewrite !list_lookup_insert_ne by (subst s; lia).
    rewrite put_signal_twice, Hps1. cbn. done. }
  unfold is_aborted, listener_at. cbn.
  rewrite list_lookup_insert_ne by (subst s; lia).
  rewrite list_lookup_insert_eq by lia.
  rewrite list_lookup_insert_eq by (rewrite length_insert; lia).
  split_and!; [done..|].
  eexists. split; [done|]. cbn. rewrite filter_app.
  apply elem_of_app. right.
  rewrite filter_cons_True by (cbn; lia). left.
Qed.

Lemma observer_kept_after_child_fires_witness :
  let w := mkWorld [new_CancelSignal] [] [] 0 0 in
  let ctx := WithCancel Background 0 in
  let observer := mkListener 1 (mkClosure 0 (CPropagate 1 0)) true in
  aborted new_CancelSignal = false
  ∧ ∃ w1 w2,
      new_WithCancel ctx w = Some (WithCancel ctx 1, w1)
      ∧ listener_at w1 0 observer
      ∧ cancel (WithCancel ctx 1) w1 = Some w2
      ∧ is_aborted 1 w2 = true
      ∧ is_aborted 0 w2 = false
      ∧ listener_at w2 0 observer.
Proof.
  intros w ctx observer. split; [reflexivity|].
  apply (observer_kept_after_child_fires ctx 0 new_CancelSignal w);
    reflexivity.
Defined.

(** ** What a firing can reach *)

(** [q] has an observer that fires [c]. *)
Definition edge (w : World) (q c : nat) : Prop :=
  ∃ l p, listener_at w q l ∧ fn_code (l_fn l) = CPropagate c p.

(** A set of signals that firing cannot leave. *)
Definition closed (w : World) (T : nat → Prop) : Prop :=
  ∀ q c, T q → edge w q c → T c.

(** What a context shows of a signal: the recorded cause and the flag. *)
Definition status (w : World) (j : nat) : option (option Cause * bool) :=
  sg ← signals w !! j; Some (_error sg, aborted sg).

Lemma closed_evolves (w w' : World) (T : nat → Prop) :
  evolves w w' → closed w T → closed w' T.
Proof.
  intros Hev Hcl q c Hq (l & p & Hl & Hcode). apply (Hcl q c Hq).
  exists l, p. split; [|done]. by eapply evolves_listener_at.
Qed.

Lemma status_put_signal_ne (s j : nat) (sg : CancelSignal) (w : World) :
  j ≠ s → status (put_signal s sg w) j = status w j.
Proof. intros Hj. unfold status. cbn. by rewrite list_lookup_insert_ne. Qed.

Lemma status_put_signal_same (s j : nat) (sg sg' : CancelSignal) (w : World) :
  signals w !! s = Some sg → _error sg' = _error sg →
  aborted sg' = aborted sg →
  status (put_signal s sg' w) j = status w j.
Proof.
  intros Hs He Ha. destruct (decide (j = s)) as [->|Hj];
    [|by apply status_put_signal_ne].
  unfold status. cbn.
  rewrite list_lookup_insert_eq by by eapply lookup_lt_Some.
  rewrite Hs. cbn. by rewrite He, Ha.
Qed.

Lemma status_removeEventListener (p h j : nat) (w w' : World) :
  removeEventListener p h w = Some w' → status w' j = status w j.
Proof.
  unfold removeEventListener. intros H.
  destruct (signals w !! p) as [psg|] eqn:Hp; simplify_eq/=.
  by eapply status_put_signal_same.
Qed.

Section frame.
Variable cancel_fn : nat → option Cause → World → option World.
Variable T : nat → Prop.
Hypothesis cancel_fn_evolves :
  ∀ c e w w', cancel_fn c e w = Some w' → evolves w w'.
Hypothesis cancel_fn_frame : ∀ c e w w',
  closed w T → T c → cancel_fn c e w = Some w' →
  ∀ j, ¬ T j → status w' j = status w j.

Lemma dispatch_frame (s : nat) (ls : list Listener) (w0 w w' : World) :
  closed w0 T → T s → evolves w0 w →
  (∀ l, l ∈ ls → listener_at w0 s l) →
  dispatch cancel_fn s ls w = Some w' →
  ∀ j, ¬ T j → status w' j = status w j.
Proof using cancel_fn_evolves cancel_fn_frame.
  intros Hcl Hs Hev Hls Hd j Hj. revert w Hev Hd.
  induction ls as [|l ls IH]; intros w Hev Hd; simplify_eq/=; [done|].
  assert (∀ l', l' ∈ ls → listener_at w0 s l') as Hls'.
  { intros l' Hl'. apply Hls. by right. }
  destruct (signals w !! s) as [sg|] eqn:Hsg; simplify_eq/=.
  case_decide as Hin; [|by apply IH].
  match type of Hd with
  | context [call _ _ _ ?x] => set (w1 := x) in *
  end.
  assert (evolves w w1 ∧ status w1 j = status w j) as [Hev1 Hst1].
  { subst w1. destruct (l_once l); [|done]. split.
    - eapply evolves_put_signal; [done|]. apply filter_listeners_le.
    - by eapply status_put_signal_same. }
  destruct (call cancel_fn (l_fn l) (_error sg) w1) as [w2|] eqn:Hcall;
    simplify_eq/=.
  assert (evolves w1 w2) as Hev2 by by eapply call_evolves.
  rewrite (IH Hls' w2);
    [|by etrans; [exact Hev|]; etrans; [exact Hev1|exact Hev2]|done].
  rewrite <-Hst1. clear IH Hd.
  unfold call in Hcall.
  destruct (fn_code (l_fn l)) as [c p|p h|id|pr] eqn:Hcode.
  - destruct (signals w1 !! p) as [psg|]; simplify_eq/=.
    eapply cancel_fn_frame; [| |done|done].
    + eapply closed_evolves; [|done]. by etrans.
    + apply (Hcl s c Hs). exists l, p. split; [|done]. apply Hls. left.
  - by eapply status_removeEventListener.
  - simplify_eq. unfold status. by rewrite signals_clearTimeout.
  - unfold status. by rewrite (signals_settle _ _ _ _ Hcall).
Qed.
End frame.

(** Firing [s] changes the cause and the flag of no signal outside a closed
    set that holds [s]. *)
Lemma cancel_signal_frame (T : nat → Prop) (fuel s : nat) (e : option Cause)
    (w w' : World) :
  closed w T → T s → cancel_signal fuel s e w = Some w' →
  ∀ j, ¬ T j → status w' j = status w j.
Proof.
  revert s e w w'. induction fuel as [|k IH]; intros s e w w' Hcl Hs H j Hj;
    simplify_eq/=.
  destruct (signals w !! s) as [sg|] eqn:Hsg; simplify_eq/=.
  assert (j ≠ s) as Hjs by (intros ->; done).
  set (w1 := put_signal s (mkSignal e true (listeners sg)) w) in *.
  assert (status w1 j = status w j) as <- by by apply status_put_signal_ne.
  destruct (aborted sg); simplify_eq/=; [done|].
  eapply (dispatch_frame (cancel_signal k) T); try done.
  - intros ????. apply cancel_signal_evolves.
  - eapply evolves_put_signal; [done|]. by split.
  - intros l Hl. by exists sg.
Qed.

(** ** Cancel leaves the parent and the siblings alone *)

(** Every observer that fires [s] sits on the signal [parent]. *)
Definition only_from (w : World) (parent : option nat) (s : nat) : bool :=
  forallb
    (λ ql, match fn_code (l_fn ql.2) with
           | CPropagate c _ =>
               if c =? s then
                 match parent with Some ps => ql.1 =? ps | None => false end
               else true
           | _ => true
           end)
    (all_listeners w).

(** The signal [s] is that of a node built over [parent]: it is allocated,
    it was created after the parent's signal, and only the parent's signal
    has observers that fire it. *)
Definition derived_from (w : World) (parent : Context) (s : nat) : bool :=
  (s <? length (signals w))
  && match done parent with Some ps => ps <? s | None => true end
  && only_from w (done parent) s.

Lemma only_from_spec (w : World) (parent : option nat) (s : nat) :
  only_from w parent s = true ↔ ∀ q, edge w q s → parent = Some q.
Proof.
  unfold only_from. rewrite <-Is_true_true, forallb_True, Forall_forall.
  split.
  - intros Hall q (l & p & Hl%elem_of_all_listeners & Hcode).
    apply Hall in Hl. cbn in Hl. rewrite Hcode, Nat.eqb_refl in Hl.
    destruct parent as [ps|]; [|done].
    apply Is_true_true, Nat.eqb_eq in Hl. by subst.
  - intros Hedge [q l] Hl%elem_of_all_listeners. cbn.
    destruct (fn_code (l_fn l)) as [c p| | |] eqn:Hcode; try done.
    destruct (Nat.eqb_spec c s) as [->|]; [|done].
    rewrite (Hedge q) by by exists l, p. apply Is_true_true, Nat.eqb_refl.
Qed.

Lemma derived_from_spec (w : World) (parent : Context) (s : nat) :
  derived_from w parent s = true ↔
    s < length (signals w)
    ∧ (∀ ps, done parent = Some ps → ps < s)
    ∧ (∀ q, edge w q s → done parent = Some q).
Proof.
  unfold derived_from.
  rewrite !andb_true_iff, Nat.ltb_lt, only_from_spec.
  destruct (done parent) as [ps|]; [rewrite Nat.ltb_lt|].
  - split.
    + intros [[? ?] ?]. split_and!; [done| |done]. by intros ? [= <-].
    + intros (? & Hps & ?). split_and!; [done| |done]. by apply Hps.
  - split.
    + intros [[? _] ?]. by split_and!.
    + intros (? & _ & ?). by split_and!.
Qed.

Lemma status_error (ctx : Context) (s : nat) (w w' : World) :
  done ctx = Some s → status w' s = status w s →
  error ctx w' = error ctx w ∧ is_aborted s w' = is_aborted s w.
Proof.
  intros Hd Hst. rewrite !(error_done ctx s) by done.
  unfold status, is_aborted in *.
  destruct (signals w' !! s), (signals w !! s); by simplify_eq/=.
Qed.

(** C8.  [cancel()] on a node built over [parent] returns and leaves the
    parent as it was ([error()] and the flag of its signal), and likewise
    every other node built over the same parent. *)
Theorem cancel_leaves_parent_and_siblings (parent node : Context) (s : nat)
    (w : World) :
  node = WithCancel parent s ∨ node = WithTimeout parent s →
  wf_world w = true → derived_from w parent s = true →
  ∃ w', cancel node w = Some w'
    ∧ error parent w' = error parent w
    ∧ (∀ ps, done parent = Some ps → is_aborted ps w' = is_aborted ps w)
    ∧ ∀ sibling s',
        sibling = WithCancel parent s' ∨ sibling = WithTimeout parent s' →
        s' ≠ s → derived_from w parent s' = true →
        error sibling w' = error sibling w
        ∧ is_aborted s' w' = is_aborted s' w.
Proof.
  intros Hnode Hwf%wf_world_spec (Hs & Hps & Hfrom)%derived_from_spec.
  destruct (signal_cancel_ok s (Some Canceled) w Hwf Hs)
    as (w' & Hw' & Hev & Hlow & _).
  exists w'. split; [by destruct Hnode as [-> | ->]|].
  assert (∀ ps, done parent = Some ps → status w' ps = status w ps) as Hpar.
  { intros ps Hd. unfold status. rewrite Hlow by by apply Hps. done. }
  split_and!.
  - destruct (done parent) as [ps|] eqn:Hd.
    + by apply (status_error parent ps), Hpar.
    + by rewrite !error_root.
  - intros ps Hd. by apply (status_error parent ps), Hpar.
  - intros sibling s' Hsib Hne (Hs' & Hps' & Hfrom')%derived_from_spec.
    assert (status w' s' = status w s') as Hst.
    { apply (cancel_signal_frame (λ j, s ≤ j ∧ j ≠ s') (enough_fuel w) s
               (Some Canceled) w w'); [|done|done|lia].
      intros q c [Hq _] Hedge. split.
      - destruct Hedge as (l & p & Hl & Hcode).
        pose proof (wf_code _ Hwf _ _ Hl) as Hok. rewrite Hcode in Hok.
        cbn in Hok. lia.
      - intros ->. apply Hfrom', Hps in Hedge. lia. }
    apply (status_error sibling s'); [|done].
    by destruct Hsib as [-> | ->].
Qed.

(** A parent with two children:
    [p = new WithCancel(new Background())], [new WithCancel(p)] and
    [new WithTimeout(p, 50)], with signals 0, 1 and 2. *)
Definition family_world : World :=
  Eval vm_compute in
    default empty_world
      ('(p, w) ← new_WithCancel Background empty_world;
       '(_, w) ← new_WithCancel p w;
       '(_, w) ← new_WithTimeout p 50 w;
       Some w).

Lemma cancel_leaves_parent_and_siblings_witness :
  let p := WithCancel Background 0 in
  wf_world family_world = true
  ∧ derived_from family_world p 1 = true
  ∧ ∃ w', cancel (WithCancel p 1) family_world = Some w'
      ∧ error p w' = error p family_world
      ∧ (∀ ps, done p = Some ps →
           is_aborted ps w' = is_aborted ps family_world)
      ∧ ∀ sibling s',
          sibling = WithCancel p s' ∨ sibling = WithTimeout p s' →
          s' ≠ 1 → derived_from family_world p s' = true →
          error sibling w' = error sibling family_world
          ∧ is_aborted s' w' = is_aborted s' family_world.
Proof.
  intros p. split; [reflexivity|]. split; [reflexivity|].
  apply (cancel_leaves_parent_and_siblings p (WithCancel p 1) 1 family_world);
    [by left | reflexivity | reflexivity].
Defined.

(** ** The constructors keep the store well formed *)

Lemma listener_at_put_signal (s q : nat) (sg' : CancelSignal) (l : Listener)
    (w : World) :
  s < length (signals w) →
  listener_at (put_signal s sg' w) q l
  ↔ (q = s ∧ l ∈ listeners sg') ∨ (q ≠ s ∧ listener_at w q l).
Proof.
  intros Hs. unfold listener_at. cbn.
  destruct (decide (q = s)) as [->|Hq].
  - rewrite list_lookup_insert_eq by done. split.
    + intros (sg & [= <-] & Hl). by left.
    + intros [[_ Hl]|[Hne _]]; [by exists sg'|done].
  - rewrite list_lookup_insert_ne by done. split.
    + intros Hl. by right.
    + intros [[Heq _]|[_ Hl]]; done.
Qed.

Lemma listener_at_alloc (q : nat) (l : Listener) (w : World) :
  listener_at (set_signals (signals w ++ [new_CancelSignal]) w) q l
  ↔ listener_at w q l.
Proof.
  unfold listener_at. cbn. split.
  - intros (sg & Hq & Hl). apply lookup_app_Some in Hq as [Hq|[Hlen Hq]].
    + eauto.
    + apply list_lookup_singleton_Some in Hq as [_ <-]. by apply elem_of_nil in Hl.
  - intros (sg & Hq & Hl). exists sg. split; [|done].
    by apply lookup_app_l_Some.
Qed.

Lemma listener_at_alloc_old (q : nat) (l : Listener) (w : World) :
  listener_at (set_signals (signals w ++ [new_CancelSignal]) w) q l →
  listener_at w q l.
Proof. apply listener_at_alloc. Qed.

(** What the constructors add to a store: new signals, promises and
    function objects; and listeners that are new function objects and, when
    they are handlers, fire new signals. *)
Definition new_code (w : World) (code : Code) : Prop :=
  match code with
  | CPropagate c _ => length (signals w) ≤ c
  | CUnlisten _ h => next_fn w ≤ h
  | _ => True
  end.

Record extends (w w' : World) : Prop := mkExtends {
  ex_signals : length (signals w) ≤ length (signals w');
  ex_promises : length (promises w) ≤ length (promises w');
  ex_next_fn : next_fn w ≤ next_fn w';
  ex_listeners : ∀ q l, listener_at w' q l →
    listener_at w q l ∨ (next_fn w ≤ l_id l ∧ new_code w (fn_code (l_fn l)))
}.

#[local] Instance extends_po : PreOrder extends.
Proof.
  split.
  - intros w. split; auto.
  - intros a b c [H1 H2 H3 H4] [H5 H6 H7 H8]. split; [lia..|].
    intros q l Hl. destruct (H8 q l Hl) as [Hb|[Hid Hnew]].
    + by apply H4.
    + right. split; [lia|].
      destruct (fn_code (l_fn l)); cbn in *; lia.
Qed.

Lemma evolves_extends (w w' : World) : evolves w w' → extends w w'.
Proof.
  intros Hev. split.
  - by rewrite (evolves_length_signals _ _ Hev).
  - by rewrite (evolves_length_promises _ _ Hev).
  - by rewrite (ev_next_fn _ _ Hev).
  - intros q l Hl. left. by eapply evolves_listener_at.
Qed.

Lemma extends_edge (w w' : World) (q c : nat) :
  extends w w' → edge w' q c → c < length (signals w) → edge w q c.
Proof.
  intros Hex (l & p & Hl & Hcode) Hc.
  destruct (ex_listeners _ _ Hex q l Hl) as [Hold|[_ Hnew]].
  - by exists l, p.
  - rewrite Hcode in Hnew. cbn in Hnew. lia.
Qed.

Lemma derived_from_extends (w w' : World) (parent : Context) (s : nat) :
  extends w w' → derived_from w parent s = true →
  derived_from w' parent s = true.
Proof.
  intros Hex (Hs & Hps & Hfrom)%derived_from_spec. apply derived_from_spec.
  pose proof (ex_signals _ _ Hex). split_and!; [lia|done|].
  intros q Hedge. apply Hfrom. by eapply extends_edge.
Qed.

Lemma code_ok_mono (w w' : World) (q : nat) (code : Code) :
  length (signals w) ≤ length (signals w') →
  length (promises w) ≤ length (promises w') →
  next_fn w ≤ next_fn w' →
  (∀ q' l', listener_at w' q' l' →
            listener_at w q' l' ∨ next_fn w ≤ l_id l') →
  code_ok w q code → code_ok w' q code.
Proof.
  intros Hs Hp Hn Hl. destruct code as [c p|p h|id|pr]; cbn; [lia| |done|lia].
  intros (? & ? & Hfresh). split_and!; [lia..|].
  intros q' l' [Hold|Hnew]%Hl; [by eapply Hfresh|lia].
Qed.

Lemma WF_mono (w w' : World) :
  WF w →
  (∀ q l, listener_at w' q l → listener_at w q l) →
  (∀ q sg', signals w' !! q = Some sg' → NoDup (l_id <$> listeners sg')) →
  length (signals w) ≤ length (signals w') →
  length (promises w) ≤ length (promises w') →
  next_fn w ≤ next_fn w' →
  (∀ i t, timers w' !! i = Some t → t_signal t < length (signals w')) →
  WF w'.
Proof.
  intros [Hc Hi Hnd Ht] Hl Hnd' Hs Hp Hn Ht'. split; [| |done|done].
  - intros q l Hql. eapply code_ok_mono; [done..| |by apply Hc, Hl].
    intros q' l' Hl'. left. by apply Hl.
  - intros q l Hql%Hl. apply Hi in Hql. lia.
Qed.

Lemma WF_alloc (w : World) :
  WF w → WF (set_signals (signals w ++ [new_CancelSignal]) w).
Proof.
  intros Hwf. eapply WF_mono; [done|..]; cbn; try done.
  - intros q l. by rewrite listener_at_alloc.
  - intros q sg' [Hq|[_ Hq]]%lookup_app_Some; [by eapply wf_nodup|].
    apply list_lookup_singleton_Some in Hq as [_ <-]. cbn. apply NoDup_nil_2.
  - rewrite length_app. lia.
  - intros i t Hi. rewrite length_app. apply (wf_timers _ Hwf) in Hi. lia.
Qed.

Lemma WF_bump_fn (w : World) : WF w → WF (bump_fn w).
Proof.
  intros Hwf. eapply WF_mono; [done|..]; cbn; try done; try lia.
  - by eapply wf_nodup.
  - by eapply wf_timers.
Qed.

(** Registering a closure that is fit for signal [s]. *)
Lemma WF_add (s : nat) (sg : CancelSignal) (fn : Closure) (w : World) :
  WF w → signals w !! s = Some sg → code_ok w s (fn_code fn) →
  WF (put_signal s
        (mkSignal (_error sg) (aborted sg)
           (listeners sg ++ [mkListener (next_fn w) fn true]))
        (bump_fn w)).
Proof.
  intros Hwf Hs Hok.
  pose proof (lookup_lt_Some _ _ _ Hs) as Hlt.
  set (l := mkListener (next_fn w) fn true).
  set (w' := put_signal s _ _).
  assert (∀ q l', listener_at w' q l' →
            listener_at w q l' ∨ (q = s ∧ l' = l)) as Hl.
  { intros q l' [[-> Hin]|[_ Hold]]%listener_at_put_signal; [|by left|done].
    cbn in Hin. apply elem_of_app in Hin as [Hin|Hin%list_elem_of_singleton].
    - left. by exists sg.
    - by right. }
  assert (∀ q code, code_ok w q code → code_ok w' q code) as Hmono.
  { intros q code. apply code_ok_mono; cbn; try lia.
    - by rewrite length_insert.
    - intros q' l' [Hold|[_ ->]]%Hl; [by left|by right]. }
  split.
  - intros q l' [Hold|[-> ->]]%Hl; apply Hmono; [|done].
    by apply (wf_code _ Hwf).
  - intros q l' [Hold|[-> ->]]%Hl; cbn; [|lia].
    apply (wf_ids _ Hwf) in Hold. lia.
  - intros q sg' Hq. cbn in Hq.
    destruct (decide (q = s)) as [->|Hne].
    + rewrite list_lookup_insert_eq in Hq by done. simplify_eq. cbn.
      rewrite fmap_app. apply NoDup_app. split_and!.
      * by eapply wf_nodup.
      * intros x (l' & -> & Hl')%list_elem_of_fmap Hx. cbn in Hx.
        apply list_elem_of_singleton in Hx.
        assert (l_id l' < next_fn w); [|lia].
        eapply (wf_ids _ Hwf). by exists sg.
      * apply NoDup_singleton.
    + rewrite list_lookup_insert_ne in Hq by done. by eapply wf_nodup.
  - intros i t Hi. cbn in *. rewrite length_insert. by eapply wf_timers.
Qed.

(** The parent's signal, when it has one, is allocated. *)
Definition valid_ctx (w : World) (ctx : Context) : bool :=
  match done ctx with
  | Some ps => ps <? length (signals w)
  | None => true
  end.

Lemma valid_ctx_spec (w : World) (ctx : Context) :
  valid_ctx w ctx = true ↔ ∀ ps, done ctx = Some ps → ps < length (signals w).
Proof.
  unfold valid_ctx. destruct (done ctx) as [ps|].
  - rewrite Nat.ltb_lt. split; [by intros ? ? [= <-]|auto].
  - split; [by intros|done].
Qed.

Lemma edge_new_signal (w : World) (q : nat) :
  WF w → ¬ edge w q (length (signals w)).
Proof.
  intros Hwf (l & p & Hl & Hcode).
  pose proof (wf_code _ Hwf _ _ Hl) as Hok. rewrite Hcode in Hok.
  cbn in Hok. lia.
Qed.

Lemma call_signal_cancel_ok (fn : Closure) (arg : option Cause) (s : nat)
    (w : World) :
  WF w → s < length (signals w) → code_ok w s (fn_code fn) →
  ∃ w', call signal_cancel fn arg w = Some w' ∧ evolves w w'.
Proof.
  intros Hwf Hs Hok.
  destruct (call_ok signal_cancel (length (signals w)) s) with
    (fn := fn) (arg := arg) (w0 := w) (w := w) as (w' & Hw' & Hev & _);
    try done.
  - intros c e w2 Hwf2 Hlen Hc. apply signal_cancel_ok; [done|lia].
  - by exists w'.
Qed.

(** Registering an observer: it runs at once on a signal that has fired, and
    is appended to the listeners otherwise. *)
Lemma onCanceled_WF (s : nat) (fn : Closure) (w : World) :
  WF w → s < length (signals w) → code_ok w s (fn_code fn) →
  ∃ w', onCanceled s fn w = Some w' ∧ WF w'
        ∧ length (signals w') = length (signals w)
        ∧ length (promises w') = length (promises w)
        ∧ length (timers w') = length (timers w)
        ∧ next_fn w ≤ next_fn w'
        ∧ ∀ q l, listener_at w' q l →
            listener_at w q l ∨ (q = s ∧ l = mkListener (next_fn w) fn true).
Proof.
  intros Hwf Hs Hok.
  destruct (lookup_lt_is_Some_2 _ _ Hs) as [sg Hsg].
  destruct (aborted sg) eqn:Ha.
  - rewrite (onCanceled_aborted s fn sg) by done.
    destruct (call_signal_cancel_ok fn (_error sg) s w) as (w' & Hw' & Hev);
      [done..|].
    exists w'. split_and!; [done|by eapply WF_evolves|..].
    + by apply evolves_length_signals.
    + by apply evolves_length_promises.
    + symmetry. eapply Forall2_length, ev_timers. done.
    + by rewrite (ev_next_fn _ _ Hev).
    + intros q l Hl. left. by eapply evolves_listener_at.
  - rewrite (onCanceled_pending s fn sg) by done.
    eexists. split; [done|]. split_and!.
    + rewrite <-Ha. by apply WF_add.
    + cbn. by rewrite length_insert.
    + done.
    + done.
    + cbn. lia.
    + intros q l [[-> Hin]|[_ Hold]]%listener_at_put_signal; [|by left|done].
      cbn in Hin. apply elem_of_app in Hin as [Hin|Hin%list_elem_of_singleton].
      * left. by exists sg.
      * by right.
Qed.

Lemma WithCancel_constructor_WF (ctx : Context) (w : World) :
  WF w → valid_ctx w ctx = true →
  let s := length (signals w) in
  ∃ w', WithCancel_constructor ctx w = Some (s, w')
        ∧ WF w' ∧ extends w w'
        ∧ length (signals w') = S s
        ∧ length (promises w') = length (promises w)
        ∧ length (timers w') = length (timers w)
        ∧ derived_from w' ctx s = true.
Proof.
  intros Hwf Hvalid0 s.
  pose proof (proj1 (valid_ctx_spec _ _) Hvalid0) as Hvalid.
  set (w1 := set_signals (signals w ++ [new_CancelSignal]) w).
  assert (WF w1) as Hwf1 by by apply WF_alloc.
  assert (length (signals w1) = S s) as Hlen1.
  { cbn. rewrite length_app. cbn. subst s. lia. }
  destruct (done ctx) as [ps|] eqn:Hd; last first.
  { exists w1. rewrite WithCancel_constructor_root by done.
    split_and!; try done.
    - apply mkExtends; cbn; [rewrite length_app; lia|lia|lia|].
      intros q l Hl. left. by apply listener_at_alloc_old.
    - apply derived_from_spec. rewrite Hd. split_and!; [lia|done|].
      intros q (l & p & Hl & Hcode). apply listener_at_alloc_old in Hl.
      destruct (edge_new_signal w q Hwf). by exists l, p. }
  pose proof (Hvalid ps eq_refl) as Hps.
  unfold WithCancel_constructor. rewrite Hd. fold s w1.
  set (h := next_fn w1).
  set (handler := mkClosure h (CPropagate s ps)).
  destruct (onCanceled_WF ps handler (bump_fn w1))
    as (w2 & Hw2 & Hwf2 & Hlen2 & Hlenp2 & Hlent2 & Hfn2 & Hl2).
  { by apply WF_bump_fn. }
  { cbn. rewrite length_app. lia. }
  { cbn. rewrite length_app. cbn. subst s. lia. }
  rewrite Hw2. cbn [mbind option_bind].
  assert (∀ q l, listener_at w2 q l →
            listener_at w q l
            ∨ (q = ps ∧ l = mkListener (S h) handler true)) as Hl2'.
  { intros q l [Hold|Hnew]%Hl2; [left|by right].
    by apply listener_at_alloc_old. }
  destruct (onCanceled_WF s (mkClosure (next_fn w2) (CUnlisten ps h))
              (bump_fn w2))
    as (w3 & Hw3 & Hwf3 & Hlen3 & Hlenp3 & Hlent3 & Hfn3 & Hl3).
  { by apply WF_bump_fn. }
  { cbn. fold (signals w2). rewrite Hlen2. cbn. rewrite length_app. cbn.
    subst s. lia. }
  { cbn. fold (signals w2). rewrite Hlen2. cbn. rewrite length_app.
    split_and!; [lia|cbn in Hfn2; subst h; cbn; lia|].
    intros q' l' [Hold|[_ ->]]%Hl2'; [|cbn; lia].
    apply (wf_ids _ Hwf) in Hold. subst h. cbn. lia. }
  change (fn_id handler) with h. rewrite Hw3. cbn [mbind option_bind].
  exists w3. split; [done|].
  cbn in Hlen2, Hlenp2, Hlent2, Hfn2, Hlen3, Hlenp3, Hlent3, Hfn3.
  rewrite length_app in Hlen2. cbn in Hlen2.
  split_and!; try done; try lia; try congruence.
  - apply mkExtends; [lia..|].
    intros q l [Hold|[-> ->]]%Hl3.
    + apply Hl2' in Hold as [Hold|[-> ->]]; [by left|right].
      subst h. cbn. split; [lia|done].
    + right. subst h. cbn. split; lia.
  - apply derived_from_spec. rewrite Hd. split_and!; [lia|by intros ? [= <-]|].
    intros q (l & p & [Hold|[-> ->]]%Hl3 & Hcode); [|done].
    apply Hl2' in Hold as [Hold|[-> ->]]; [|done].
    destruct (edge_new_signal w q Hwf). by exists l, p.
Qed.

Lemma new_WithCancel_WF (ctx : Context) (w : World) :
  WF w → valid_ctx w ctx = true →
  let s := length (signals w) in
  ∃ w', new_WithCancel ctx w = Some (WithCancel ctx s, w')
        ∧ WF w' ∧ extends w w'
        ∧ length (signals w') = S s
        ∧ derived_from w' ctx s = true.
Proof.
  intros Hwf Hvalid s.
  destruct (WithCancel_constructor_WF ctx w Hwf Hvalid)
    as (w' & Hw' & ? & ? & ? & _ & _ & ?).
  exists w'. split; [by apply new_WithCancel_unfold|done].
Qed.

Lemma new_WithTimeout_WF (ctx : Context) (ms : Z) (w : World) :
  WF w → valid_ctx w ctx = true →
  let s := length (signals w) in
  ∃ w', new_WithTimeout ctx ms w = Some (WithTimeout ctx s, w')
        ∧ WF w' ∧ extends w w'
        ∧ length (signals w') = S s
        ∧ derived_from w' ctx s = true.
Proof.
  intros Hwf Hvalid s.
  destruct (WithCancel_constructor_WF ctx w Hwf Hvalid)
    as (w1 & Hw1 & Hwf1 & Hex1 & Hlen1 & _ & _ & Hder1).
  fold s in Hw1, Hlen1, Hder1.
  unfold new_WithTimeout. rewrite Hw1. cbn [mbind option_bind setTimeout].
  set (w2 := set_timers _ w1).
  assert (WF w2) as Hwf2.
  { apply (WF_mono w1); cbn; try done.
    - by eapply wf_nodup.
    - intros i t [Hi|[_ Hi]]%lookup_app_Some; [by eapply wf_timers|].
      apply list_lookup_singleton_Some in Hi as [_ <-]. cbn. lia. }
  destruct (onCanceled_WF s
              (mkClosure (next_fn w2) (CClearTimeout (length (timers w1))))
              (bump_fn w2))
    as (w3 & Hw3 & Hwf3 & Hlen3 & Hlenp3 & _ & Hfn3 & Hl3).
  { by apply WF_bump_fn. }
  { cbn. fold (signals w1). lia. }
  { done. }
  rewrite Hw3. cbn [mbind option_bind].
  exists w3. split; [done|]. cbn in Hlen3, Hlenp3, Hfn3.
  assert (extends w1 w3) as Hex3.
  { apply mkExtends; cbn.
    - fold (signals w1). lia.
    - fold (promises w1). lia.
    - lia.
    - intros q l [Hold|[-> ->]]%Hl3; [by left|right]. cbn. split; [lia|done]. }
  split_and!; [done|by etrans| |by eapply derived_from_extends].
  fold (signals w1) in Hlen3. lia.
Qed.

(** ** Cancellation runs down a chain *)

(** Signal [s] has not fired. *)
Definition pending (w : World) (s : nat) : Prop :=
  ∃ sg, signals w !! s = Some sg ∧ aborted sg = false.

(** The signals [s :: rest] form a chain none of whose signals has fired:
    each one has an observer that fires the next, and fires no other
    signal. *)
Fixpoint linked (w : World) (s : nat) (rest : list nat) : Prop :=
  pending w s
  ∧ match rest with
    | [] => True
    | c :: rest' =>
        s < c ∧ edge w s c ∧ (∀ c', edge w s c' → c' = c) ∧ linked w c rest'
    end.

Definition fired_with (e : option Cause) (w : World) (j : nat) : Prop :=
  status w j = Some (e, true).

Lemma edge_ext (w w' : World) (s c : nat) :
  signals w' !! s = signals w !! s → edge w s c → edge w' s c.
Proof.
  intros Heq (l & p & (sg & Hs & Hl) & Hcode). exists l, p.
  split; [|done]. exists sg. by rewrite Heq.
Qed.

Lemma linked_ext (w w' : World) (s : nat) (rest : list nat) :
  (∀ j, s ≤ j → signals w' !! j = signals w !! j) →
  linked w s rest → linked w' s rest.
Proof.
  revert s. induction rest as [|c rest IH]; intros s Heq; cbn.
  - intros [(sg & Hs & Ha) _]. split; [|done]. exists sg.
    by rewrite Heq.
  - intros ((sg & Hs & Ha) & Hlt & Hedge & Hone & Hrest). split_and!.
    + exists sg. by rewrite Heq.
    + done.
    + eapply edge_ext; [|done]. by apply Heq.
    + intros c' Hc'. apply Hone. eapply edge_ext; [|done].
      symmetry. by apply Heq.
    + apply IH; [|done]. intros j Hj. apply Heq. lia.
Qed.

Lemma status_ext (w w' : World) (j : nat) :
  signals w' = signals w → status w' j = status w j.
Proof. intros Heq. unfold status. by rewrite Heq. Qed.

Lemma cancel_signal_again (k s : nat) (e : option Cause) (sg : CancelSignal)
    (w : World) :
  signals w !! s = Some sg → aborted sg = true →
  cancel_signal (S k) s e w =
    Some (put_signal s (mkSignal e true (listeners sg)) w).
Proof. intros Hs Ha. cbn. rewrite Hs. cbn. by rewrite Ha. Qed.

Lemma status_take_once (s j : nat) (l : Listener) (sg : CancelSignal)
    (w : World) :
  signals w !! s = Some sg → status (take_once s l sg w) j = status w j.
Proof.
  intros Hs. unfold take_once. destruct (l_once l); [|done].
  by eapply status_put_signal_same.
Qed.

Lemma signals_take_once_ne (s j : nat) (l : Listener) (sg : CancelSignal)
    (w : World) :
  j ≠ s → signals (take_once s l sg w) !! j = signals w !! j.
Proof.
  intros Hj. unfold take_once. destruct (l_once l); [|done].
  cbn. by rewrite list_lookup_insert_ne.
Qed.

Lemma evolves_take_once (s : nat) (l : Listener) (sg : CancelSignal)
    (w : World) :
  signals w !! s = Some sg → evolves w (take_once s l sg w).
Proof.
  intros Hs. unfold take_once. destruct (l_once l); [|done].
  eapply evolves_put_signal; [done|]. apply filter_listeners_le.
Qed.

Lemma cancel_linked (e : option Cause) (rest : list nat) :
  ∀ fuel s w,
    WF w → linked w s rest → length (signals w) - s ≤ fuel →
    ∃ w', cancel_signal (S fuel) s e w = Some w'
          ∧ Forall (fired_with e w') (s :: rest).
Proof.
  induction rest as [|c rest IH]; intros fuel s w Hwf Hlinked Hfuel.
  { destruct Hlinked as [(sg & Hs & Ha) _].
    destruct (cancel_signal_ok fuel s e w) as (w' & Hw' & _ & _ & Hfired);
      [done|by eapply lookup_lt_Some|done|].
    exists w'. split; [done|]. constructor; [|done].
    destruct Hfired as (sg' & Hs' & He' & Ha').
    unfold fired_with, status. rewrite Hs'. cbn. by rewrite He', Ha'. }
  destruct Hlinked as ((sg & Hs & Ha) & Hlt & Hedge & Hone & Hrest).
  pose proof (lookup_lt_Some _ _ _ Hs) as Hslt.
  cbn [cancel_signal]. rewrite Hs. cbn [mbind option_bind]. rewrite Ha.
  set (w1 := put_signal s (mkSignal e true (listeners sg)) w).
  assert (evolves w w1) as Hev1.
  { eapply evolves_put_signal; [done|]. by split. }
  set (I := λ (todo : list Listener) (wc : World),
         fired_with e wc s
         ∧ (((∃ l0 p, l0 ∈ todo ∧ fn_code (l_fn l0) = CPropagate c p)
             ∧ linked wc c rest)
            ∨ Forall (fired_with e wc) (c :: rest))).
  destruct (dispatch_hoare (cancel_signal fuel) (length (signals w)) s)
    with (I := I) (w0 := w) (ls := listeners sg) (w := w1)
    as (w' & Hw' & Hev' & [Hs' [[(l0 & p & Hl0 & _) _]|Hall]]);
    try done.
  - (* nested firings run *)
    intros c' e' w2 Hwf2 Hlen2 Hc'.
    destruct fuel as [|fuel]; [lia|].
    apply cancel_signal_ok; [done|lia|lia].
  - (* one listener runs *)
    intros l todo wc sgc wc2 Hevc Hsgc Hl [Hfs HI] Hcall Hevc2 Hlow Hsame.
    assert (_error sgc = e) as Hesgc.
    { unfold fired_with, status in Hfs. rewrite Hsgc in Hfs. by simplify_eq/=. }
    split.
    { destruct Hsame as (sg2 & Hsg2 & He2 & Ha2).
      unfold fired_with, status in Hfs |- *. rewrite Hsg2. rewrite Hsgc in Hfs.
      cbn in Hfs |- *. injection Hfs as _ Hab.
      by rewrite He2, Ha2, Hesgc, Hab. }
    set (wt := take_once s l sgc wc) in *.
    assert (∀ j, status wt j = status wc j) as Hstt
      by (intros j; by apply status_take_once).
    assert (∀ j, s < j → signals wt !! j = signals wc !! j) as Hsigt
      by (intros j Hj; apply signals_take_once_ne; lia).
    pose proof (wf_code _ Hwf _ _ Hl) as Hok.
    unfold call in Hcall.
    destruct (fn_code (l_fn l)) as [c' p|p h|id|pr] eqn:Hcode; cbn in Hok.
    + (* the handler of the next signal *)
      destruct Hok as [-> Hc'].
      assert (c' = c) as -> by (apply Hone; by exists l, s).
      destruct (signals wt !! s) as [psg|] eqn:Hpsg; [|done].
      cbn in Hcall.
      assert (_error psg = e) as Hepsg.
      { pose proof (Hstt s) as Hst. unfold status in Hst.
        rewrite Hpsg, Hsgc in Hst. cbn in Hst. congruence. }
      rewrite Hepsg in Hcall.
      right. destruct HI as [[_ Hlk]|Hall].
      * destruct fuel as [|fuel]; [lia|].
        destruct (IH fuel c wt) as (w'' & Hw'' & Hall'').
        -- eapply WF_evolves; [done|]. etrans; [done|].
           by apply evolves_take_once.
        -- eapply linked_ext; [|done]. intros j Hj. apply Hsigt. lia.
        -- rewrite (evolves_length_signals w wt); [lia|].
           etrans; [done|]. by apply evolves_take_once.
        -- rewrite Hw'' in Hcall. by injection Hcall as <-.
      * destruct fuel as [|fuel]; [lia|].
        pose proof (Forall_inv Hall) as Hfc.
        unfold fired_with in Hfc. rewrite <-Hstt in Hfc.
        unfold status in Hfc.
        destruct (signals wt !! c) as [sgcc|] eqn:Hsgcc; [|done].
        cbn in Hfc. injection Hfc as Hec Hac.
        rewrite (cancel_signal_again fuel c _ sgcc) in Hcall by done.
        injection Hcall as <-.
        eapply Forall_impl; [done|]. intros j Hj. unfold fired_with in *.
        destruct (decide (j = c)) as [->|Hne].
        -- unfold status. cbn. rewrite list_lookup_insert_eq
             by by eapply lookup_lt_Some.
           done.
        -- by rewrite status_put_signal_ne, Hstt.
    + (* the unlisten closure removes nothing *)
      destruct Hok as (Hp & _ & Hfresh).
      assert (evolves w wt) as Hevt.
      { etrans; [done|]. by apply evolves_take_once. }
      destruct (lookup_lt_is_Some_2 (signals wt) p) as [psg Hpsg].
      { rewrite (evolves_length_signals w wt) by done. done. }
      rewrite (removeEventListener_fresh p h psg) in Hcall; [|done|].
      2:{ intros l' Hl'. eapply Hfresh, evolves_listener_at; [done|].
          by exists psg. }
      injection Hcall as <-.
      destruct HI as [[(l0 & p0 & Hl0 & Hc0) Hlk]|Hall]; [left|right].
      * split.
        -- exists l0, p0. split; [|done].
           apply elem_of_cons in Hl0 as [->|]; [congruence|done].
        -- eapply linked_ext; [|done]. intros j Hj. apply Hsigt. lia.
      * eapply Forall_impl; [done|]. intros j Hj. unfold fired_with.
        by rewrite Hstt.
    + (* a timer is cleared *)
      injection Hcall as <-.
      destruct HI as [[(l0 & p0 & Hl0 & Hc0) Hlk]|Hall]; [left|right].
      * split.
        -- exists l0, p0. split; [|done].
           apply elem_of_cons in Hl0 as [->|]; [congruence|done].
        -- eapply linked_ext; [|done]. intros j Hj.
           rewrite signals_clearTimeout. apply Hsigt. lia.
      * eapply Forall_impl; [done|]. intros j Hj. unfold fired_with.
        rewrite (status_ext wt) by apply signals_clearTimeout.
        by rewrite Hstt.
    + (* a promise is rejected *)
      pose proof (signals_settle _ _ _ _ Hcall) as Hsig.
      destruct HI as [[(l0 & p0 & Hl0 & Hc0) Hlk]|Hall]; [left|right].
      * split.
        -- exists l0, p0. split; [|done].
           apply elem_of_cons in Hl0 as [->|]; [congruence|done].
        -- eapply linked_ext; [|done]. intros j Hj.
           rewrite Hsig. apply Hsigt. lia.
      * eapply Forall_impl; [done|]. intros j Hj. unfold fired_with.
        rewrite (status_ext wt) by done. by rewrite Hstt.
  - intros l Hl. by exists sg.
  - by eapply wf_nodup.
  - intros sg1 l Hsg1 Hl. cbn in Hsg1.
    rewrite list_lookup_insert_eq in Hsg1 by done. simplify_eq. cbn.
    by apply list_elem_of_fmap_2.
  - split.
    + unfold fired_with, status. cbn. by rewrite list_lookup_insert_eq.
    + left. split.
      * destruct Hedge as (l & p & (sg0 & Hsg0 & Hl) & Hcode).
        simplify_eq. by exists l, p.
      * eapply linked_ext; [|done]. intros j Hj. cbn.
        apply list_lookup_insert_ne. lia.
  - by apply elem_of_nil in Hl0.
  - exists w'. split; [done|]. by constructor.
Qed.

(** A chain of cancelable nodes is given by the kind of each node. *)
Inductive Kind : Type := KCancel | KTimeout (ms : Z).

Definition derive (k : Kind) (parent : Context) (w : World)
  : option (Context * World) :=
  match k with
  | KCancel => new_WithCancel parent w
  | KTimeout ms => new_WithTimeout parent ms w
  end.

(** The nodes built one over the other, starting over [parent]. *)
Fixpoint build_chain (parent : Context) (ks : list Kind) (w : World)
  : option (list Context * World) :=
  match ks with
  | [] => Some ([], w)
  | k :: ks' =>
      '(node, w1) ← derive k parent w;
      '(nodes, w2) ← build_chain node ks' w1;
      Some (node :: nodes, w2)
  end.

(** Each node is a [WithCancel] or [WithTimeout] over the one before. *)
Fixpoint is_chain (parent : Context) (nodes : list Context) : Prop :=
  match nodes with
  | [] => True
  | node :: nodes' =>
      (∃ s, node = WithCancel parent s ∨ node = WithTimeout parent s)
      ∧ is_chain node nodes'
  end.

(** The new signal [s] as the constructor leaves it: not fired, observed by
    the parent's signal when there is one, and observing nothing that fires
    a signal. *)
Definition grafted (w w1 : World) (parent : option nat) (s : nat) : Prop :=
  length (signals w1) = S s
  ∧ (∀ j, j < s → parent ≠ Some j → signals w1 !! j = signals w !! j)
  ∧ pending w1 s ∧ (∀ c, ¬ edge w1 s c)
  ∧ ∀ ps, parent = Some ps →
      pending w1 ps ∧ edge w1 ps s
      ∧ ∀ c, edge w1 ps c → edge w ps c ∨ c = s.

Lemma edge_put_signal_ne (w : World) (s q c : nat) (sg : CancelSignal) :
  q ≠ s → edge (put_signal s sg w) q c ↔ edge w q c.
Proof.
  intros Hq. unfold edge, listener_at. cbn.
  by setoid_rewrite (list_lookup_insert_ne (signals w) s q sg (not_eq_sym Hq)).
Qed.

Lemma WithCancel_constructor_grafted (parent : Context) (w : World) :
  (∀ ps, done parent = Some ps → pending w ps) →
  let s := length (signals w) in
  ∃ w1, WithCancel_constructor parent w = Some (s, w1)
        ∧ grafted w w1 (done parent) s
        ∧ timers w1 = timers w.
Proof.
  intros Hpar s. destruct (done parent) as [ps|] eqn:Hd.
  - destruct (Hpar ps eq_refl) as (psg & Hps & Ha).
    pose proof (lookup_lt_Some _ _ _ Hps) as Hlt.
    rewrite (WithCancel_constructor_pending parent ps psg w) by done.
    eexists. split; [done|]. fold s. split; [|done].
    set (h := next_fn w).
    set (obs := mkListener (1 + h) (mkClosure h (CPropagate s ps)) true).
    set (unl := mkListener (3 + h) (mkClosure (2 + h) (CUnlisten ps h)) true).
    match goal with |- grafted _ ?x _ _ => set (w1 := x) end.
    assert (signals w1 !! s = Some (mkSignal None false [unl])) as Hs1.
    { cbn. apply list_lookup_insert_eq.
      rewrite length_insert, length_app. cbn. subst s. lia. }
    assert (signals w1 !! ps =
            Some (mkSignal (_error psg) false (listeners psg ++ [obs])))
      as Hps1.
    { cbn. rewrite list_lookup_insert_ne by (subst s; lia).
      apply list_lookup_insert_eq. rewrite length_app. lia. }
    assert (∀ j, j < s → j ≠ ps → signals w1 !! j = signals w !! j) as Hold.
    { intros j Hj Hne. cbn.
      rewrite !list_lookup_insert_ne by (subst s; lia).
      by apply lookup_app_l. }
    assert (length (signals w1) = S s) as Hlen1.
    { cbn. rewrite !length_insert, length_app. cbn. subst s. lia. }
    clearbody w1. split_and!.
    + done.
    + intros j Hj Hne. apply Hold; [done|]. by intros ->.
    + by eexists.
    + intros c (l & p & (sg & Hsg & Hl) & Hcode). simplify_eq.
      cbn in Hl. apply list_elem_of_singleton in Hl as ->. done.
    + intros ? [= <-]. split_and!.
      * by eexists.
      * exists obs, ps. split; [|done]. eexists. split; [done|].
        cbn. apply elem_of_app. right. left.
      * intros c (l & p & (sg & Hsg & Hl) & Hcode). simplify_eq.
        cbn in Hl. apply elem_of_app in Hl as [Hl|Hl%list_elem_of_singleton].
        -- left. exists l, p. split; [|done]. by exists psg.
        -- right. subst l. cbn in Hcode. congruence.
  - rewrite WithCancel_constructor_root by done. subst s.
    eexists. split; [done|]. split; [|done]. split_and!.
    + cbn. rewrite length_app. cbn. lia.
    + intros j Hj _. cbn. by apply lookup_app_l.
    + exists new_CancelSignal. split; [apply lookup_snoc_new|done].
    + intros c (l & p & (sg & Hsg & Hl) & Hcode). cbn in Hsg.
      rewrite lookup_snoc_new in Hsg. simplify_eq.
      by apply elem_of_nil in Hl.
    + done.
Qed.

Lemma grafted_add_listener (w w1 w3 : World) (parent : option nat) (s : nat)
    (sg : CancelSignal) (l : Listener) :
  grafted w w1 parent s → signals w1 !! s = Some sg →
  signals w3 =
    <[s := mkSignal (_error sg) false (listeners sg ++ [l])]> (signals w1) →
  (∀ c p, fn_code (l_fn l) ≠ CPropagate c p) →
  (∀ ps, parent = Some ps → ps < s) →
  grafted w w3 parent s.
Proof.
  intros (Hlen & Hold & Hpend & Hleaf & Hpar) Hs Hsig Hcode Hlt.
  assert (∀ j, j ≠ s → signals w3 !! j = signals w1 !! j) as Hne.
  { intros j Hj. rewrite Hsig. by apply list_lookup_insert_ne. }
  assert (signals w3 !! s =
          Some (mkSignal (_error sg) false (listeners sg ++ [l]))) as Hs3.
  { rewrite Hsig. apply list_lookup_insert_eq. lia. }
  split_and!.
  - by rewrite Hsig, length_insert.
  - intros j Hj Hp. rewrite Hne by lia. by apply Hold.
  - by eexists.
  - intros c (l' & p & (sg' & Hsg' & Hl') & Hc). simplify_eq. cbn in Hl'.
    apply elem_of_app in Hl' as [Hl'|Hl'%list_elem_of_singleton].
    + apply (Hleaf c). exists l', p. split; [|done]. by exists sg.
    + subst l'. by eapply Hcode.
  - intros ps ->. destruct (Hpar ps eq_refl) as (Hp1 & Hp2 & Hp3).
    pose proof (Hlt ps eq_refl) as Hps.
    assert (signals w3 !! ps = signals w1 !! ps) as Heq by (apply Hne; lia).
    split_and!.
    + destruct Hp1 as (psg & ? & ?). exists psg. by rewrite Heq.
    + by eapply edge_ext.
    + intros c Hc. apply Hp3. by eapply edge_ext.
Qed.

Lemma derive_grafted (k : Kind) (parent : Context) (w : World) :
  (∀ ps, done parent = Some ps → pending w ps) →
  let s := length (signals w) in
  ∃ node w1, derive k parent w = Some (node, w1)
             ∧ (node = WithCancel parent s ∨ node = WithTimeout parent s)
             ∧ grafted w w1 (done parent) s.
Proof.
  intros Hpar s.
  destruct (WithCancel_constructor_grafted parent w Hpar)
    as (w1 & Hw1 & Hg1 & _). fold s in Hw1, Hg1.
  destruct k as [|ms]; cbn.
  - exists (WithCancel parent s), w1.
    split; [by apply new_WithCancel_unfold|]. split; [by left|done].
  - pose proof Hg1 as (Hlen & Hold & (sg & Hs & Ha) & Hleaf & Hp).
    rewrite (new_WithTimeout_unfold parent ms s sg w w1) by done.
    rewrite Ha. eexists _, _. split; [done|]. split; [by right|].
    eapply (grafted_add_listener w w1); [done|done|..].
    + done.
    + done.
    + intros ps Hd. destruct (Hpar ps Hd) as (psg & Hps & _).
      by eapply lookup_lt_Some.
Qed.

Lemma build_chain_linked (ks : list Kind) :
  ∀ parent ps w,
    WF w → done parent = Some ps → pending w ps → (∀ c, ¬ edge w ps c) →
    ∃ nodes w',
      build_chain parent ks w = Some (nodes, w')
      ∧ WF w' ∧ is_chain parent nodes
      ∧ (∀ j, j < ps → signals w' !! j = signals w !! j)
      ∧ linked w' ps (omap done nodes)
      ∧ length nodes = length ks.
Proof.
  induction ks as [|k ks IH]; intros parent ps w Hwf Hd Hpend Hleaf; cbn.
  { exists [], w. by split_and!. }
  destruct (derive_grafted k parent w) as (node & w1 & Hder & Hnode & Hg).
  { intros ? ?. by simplify_eq. }
  rewrite Hd in Hg. set (s := length (signals w)) in *.
  destruct Hg as (Hlen1 & Hold1 & Hpend1 & Hleaf1 & Hpar1).
  destruct (Hpar1 ps eq_refl) as (Hpps & Hedge & Hone).
  assert (ps < s) as Hps.
  { destruct Hpend as (psg & Hpsg & _). by eapply lookup_lt_Some. }
  assert (WF w1) as Hwf1.
  { assert (valid_ctx w parent = true) as Hv.
    { apply valid_ctx_spec. intros ? ?. by simplify_eq. }
    destruct k as [|ms]; cbn in Hder.
    - destruct (new_WithCancel_WF parent w Hwf Hv) as (w1' & Hw1' & ? & _).
      by simplify_eq.
    - destruct (new_WithTimeout_WF parent ms w Hwf Hv) as (w1' & Hw1' & ? & _).
      by simplify_eq. }
  assert (done node = Some s) as Hds by by destruct Hnode as [-> | ->].
  destruct (IH node s w1 Hwf1 Hds Hpend1 Hleaf1)
    as (nodes & w' & Hbuild & Hwf' & Hchain & Hold' & Hlinked & Hlen').
  rewrite Hder. cbn. rewrite Hbuild. cbn.
  exists (node :: nodes), w'. split; [done|]. cbn. rewrite Hds. cbn.
  assert (signals w' !! ps = signals w1 !! ps) as Hpseq by by apply Hold'.
  split_and!; try done.
  - by exists s.
  - intros j Hj. rewrite Hold' by lia. apply Hold1; [lia|]. intros [= ->]. lia.
  - destruct Hpps as (psg & ? & ?). exists psg. by rewrite Hpseq.
  - by eapply edge_ext.
  - intros c' Hc'. destruct (Hone c') as [Hc|Hc]; [|by destruct (Hleaf c')|done].
    eapply edge_ext; [|done]. done.
  - by rewrite Hlen'.
Qed.

Lemma fired_with_error (e : option Cause) (ctx : Context) (s : nat)
    (w : World) :
  done ctx = Some s → fired_with e w s →
  error ctx w = e ∧ is_aborted s w = true.
Proof.
  intros Hd Hf. rewrite (error_done ctx s) by done.
  unfold fired_with, status, is_aborted in *.
  destruct (signals w !! s) as [sg|]; by simplify_eq/=.
Qed.

(** A node of the chain shows the cause [e] and an aborted signal. *)
Definition canceled_with (e : option Cause) (w : World) (node : Context)
  : Prop :=
  error node w = e ∧ ∃ s, done node = Some s ∧ is_aborted s w = true.

Lemma is_chain_fired (e : option Cause) (w : World) (nodes : list Context) :
  ∀ parent,
    is_chain parent nodes → Forall (fired_with e w) (omap done nodes) →
    Forall (canceled_with e w) nodes.
Proof.
  induction nodes as [|node nodes IH]; intros parent; cbn; [done|].
  intros [[s Hnode] Hchain].
  assert (done node = Some s) as Hd by by destruct Hnode as [-> | ->].
  rewrite Hd. cbn. intros [Hs Hrest]%Forall_cons. constructor.
  - destruct (fired_with_error e node s w Hd Hs). split; [done|by exists s].
  - by eapply IH.
Qed.

(** C1.  For every chain Background -> A1 -> ... -> An of [WithCancel] and
    [WithTimeout] nodes, built in any well-formed store, [A1.cancel()]
    returns with every [Ai] canceled: [error()] is [Canceled] and the signal
    is aborted, each node showing the cause its parent shows. *)
Theorem cancel_chain (w0 : World) (k1 : Kind) (ks : list Kind) :
  wf_world w0 = true →
  ∃ A1 nodes w w',
    build_chain Background (k1 :: ks) w0 = Some (A1 :: nodes, w)
    ∧ is_chain Background (A1 :: nodes)
    ∧ length nodes = length ks
    ∧ cancel A1 w = Some w'
    ∧ Forall (canceled_with (Some Canceled) w') (A1 :: nodes)
    ∧ ∀ i parent child,
        (A1 :: nodes) !! i = Some parent →
        (A1 :: nodes) !! S i = Some child →
        error child w' = error parent w'.
Proof.
  intros Hwf0%wf_world_spec.
  destruct (derive_grafted k1 Background w0) as (A1 & w1 & Hder & HA1 & Hg);
    [done|].
  set (s1 := length (signals w0)) in *.
  destruct Hg as (Hlen1 & _ & Hpend1 & Hleaf1 & _).
  assert (WF w1) as Hwf1.
  { destruct k1 as [|ms]; unfold derive in Hder.
    - destruct (new_WithCancel_WF Background w0 Hwf0 eq_refl)
        as (w1' & Hw1' & ? & _).
      by simplify_eq.
    - destruct (new_WithTimeout_WF Background ms w0 Hwf0 eq_refl)
        as (w1' & Hw1' & ? & _).
      by simplify_eq. }
  assert (done A1 = Some s1) as Hd1 by by destruct HA1 as [-> | ->].
  destruct (build_chain_linked ks A1 s1 w1 Hwf1 Hd1 Hpend1 Hleaf1)
    as (nodes & w & Hbuild & Hwf & Hchain & _ & Hlinked & Hlen).
  destruct (cancel_linked (Some Canceled) (omap done nodes)
              (length (signals w)) s1 w Hwf Hlinked)
    as (w' & Hw' & Hfired); [lia|].
  assert (Forall (canceled_with (Some Canceled) w') (A1 :: nodes)) as Hall.
  { apply (is_chain_fired _ _ _ Background).
    - split; [by exists s1|done].
    - cbn. by rewrite Hd1. }
  exists A1, nodes, w, w'. split_and!.
  - cbn [build_chain]. rewrite Hder. cbn. rewrite Hbuild. done.
  - split; [by exists s1|done].
  - done.
  - by destruct HA1 as [-> | ->].
  - done.
  - intros i parent child Hp Hc.
    rewrite Forall_forall in Hall.
    destruct (Hall parent) as [-> _]; [by eapply list_elem_of_lookup_2|].
    destruct (Hall child) as [-> _]; [by eapply list_elem_of_lookup_2|].
    done.
Qed.

Lemma cancel_chain_witness :
  wf_world empty_world = true
  ∧ ∃ A1 nodes w w',
      build_chain Background [KCancel; KTimeout 50; KCancel] empty_world
        = Some (A1 :: nodes, w)
      ∧ is_chain Background (A1 :: nodes)
      ∧ length nodes = 2
      ∧ cancel A1 w = Some w'
      ∧ Forall (canceled_with (Some Canceled) w') (A1 :: nodes)
      ∧ ∀ i parent child,
          (A1 :: nodes) !! i = Some parent →
          (A1 :: nodes) !! S i = Some child →
          error child w' = error parent w'.
Proof.
  split; [reflexivity|].
  apply (cancel_chain empty_world KCancel [KTimeout 50; KCancel]).
  reflexivity.
Defined.

(** ** Context promises *)

Lemma settle_pending (p : nat) (st : PromiseState) (w : World) :
  promises w !! p = Some Pending →
  settle p st w = Some (set_promises (<[p := st]> (promises w)) w).
Proof. intros Hp. unfold settle. by rewrite Hp. Qed.

Lemma settle_settled (p : nat) (st cur : PromiseState) (w : World) :
  promises w !! p = Some cur → cur ≠ Pending → settle p st w = Some w.
Proof. intros Hp Hcur. unfold settle. rewrite Hp. by destruct cur. Qed.

Lemma settle_other (p q : nat) (st : PromiseState) (w w' : World) :
  settle p st w = Some w' → q ≠ p → promises w' !! q = promises w !! q.
Proof.
  unfold settle. intros H Hq.
  destruct (promises w !! p) as [[]|]; simplify_eq/=; try done.
  by rewrite list_lookup_insert_ne.
Qed.

Lemma promises_removeEventListener (s h : nat) (w w' : World) :
  removeEventListener s h w = Some w' → promises w' = promises w.
Proof.
  unfold removeEventListener. intros H.
  destruct (signals w !! s); by simplify_eq/=.
Qed.

Lemma promises_clearTimeout (id : nat) (w : World) :
  promises (clearTimeout id w) = promises w.
Proof. unfold clearTimeout. by destruct (timers w !! id). Qed.

Lemma promises_take_once (s : nat) (l : Listener) (sg : CancelSignal)
    (w : World) :
  promises (take_once s l sg w) = promises w.
Proof. unfold take_once. by destruct (l_once l). Qed.

(** A promise that is not pending stays as it is through every firing. *)
Lemma evolves_settled (w w' : World) (p : nat) (st : PromiseState) :
  evolves w w' → promises w !! p = Some st → st ≠ Pending →
  promises w' !! p = Some st.
Proof.
  intros Hev Hp Hst.
  destruct (Forall2_lookup_l _ _ _ _ _ (ev_promises _ _ Hev) Hp)
    as (st' & Hp' & Hle).
  by rewrite Hp', (Hle Hst).
Qed.

(** The promise is pending, or rejected with the cause [e]. *)
Definition pending_or_rejected (p : nat) (e : option Cause) (w : World)
  : Prop :=
  promises w !! p = Some Pending
  ∨ promises w !! p = Some (Rejected (RCause e)).

(** What one listener of a signal that fired with [e] does to a promise. *)
Lemma call_pending_or_rejected
    (cancel_fn : nat → option Cause → World → option World)
    (p s : nat) (e : option Cause) (fn : Closure) (w0 w w' : World) :
  (∀ c, s < c < length (signals w0) → fn_code fn = CPropagate c s →
     cancel_fn c e w = Some w' → pending_or_rejected p e w') →
  code_ok w0 s (fn_code fn) → fired_with e w s →
  call cancel_fn fn e w = Some w' →
  pending_or_rejected p e w → pending_or_rejected p e w'.
Proof.
  intros Hnested Hok Hfs Hcall Hp. unfold call in Hcall.
  destruct (fn_code fn) as [c ps|ps h|id|pr] eqn:Hcode; cbn in Hok.
  - destruct Hok as [-> Hc].
    unfold fired_with, status in Hfs.
    destruct (signals w !! s) as [psg|]; [|done]. cbn in Hfs, Hcall.
    injection Hfs as He _. rewrite He in Hcall.
    by eapply (Hnested c).
  - unfold pending_or_rejected.
    by rewrite (promises_removeEventListener _ _ _ _ Hcall).
  - injection Hcall as <-. unfold pending_or_rejected.
    by rewrite promises_clearTimeout.
  - unfold pending_or_rejected. unfold reject, promise_reject in Hcall.
    destruct (decide (p = pr)) as [->|Hne];
      [|by rewrite (settle_other _ _ _ _ _ Hcall)].
    destruct Hp as [Hp|Hp].
    + rewrite (settle_pending _ _ _ Hp) in Hcall. injection Hcall as <-.
      right. cbn. apply list_lookup_insert_eq. by eapply lookup_lt_Some.
    + rewrite (settle_settled _ _ _ _ Hp) in Hcall by done.
      injection Hcall as <-. by right.
Qed.

(** A firing with cause [e] settles a pending promise with that cause, if
    at all. *)
Lemma cancel_signal_pending_or_rejected (p : nat) (e : option Cause)
    (fuel s : nat) (w : World) :
  WF w → s < length (signals w) → length (signals w) - s ≤ fuel →
  pending_or_rejected p e w →
  ∃ w', cancel_signal (S fuel) s e w = Some w' ∧ pending_or_rejected p e w'.
Proof.
  revert s w. induction fuel as [fuel IH] using lt_wf_ind.
  intros s w Hwf Hs Hfuel Hp. cbn [cancel_signal].
  destruct (lookup_lt_is_Some_2 _ _ Hs) as [sg Hsg]. rewrite Hsg.
  cbn [mbind option_bind].
  set (w1 := put_signal s (mkSignal e true (listeners sg)) w).
  destruct (aborted sg) eqn:Ha; [by exists w1|].
  assert (evolves w w1) as Hev1.
  { eapply evolves_put_signal; [done|]. by split. }
  destruct (dispatch_hoare (cancel_signal fuel) (length (signals w)) s)
    with (I := λ (_ : list Listener) wc,
                 fired_with e wc s ∧ pending_or_rejected p e wc)
         (w0 := w) (ls := listeners sg) (w := w1)
    as (w' & Hw' & _ & _ & Hp'); try done.
  - intros c e' w2 Hwf2 Hlen2 Hc.
    destruct fuel as [|fuel]; [lia|].
    apply cancel_signal_ok; [done|lia|lia].
  - intros l todo wc sgc wc2 Hevc Hsgc Hl [Hfs HI] Hcall Hevc2 Hlow Hsame.
    assert (_error sgc = e) as Hesgc.
    { unfold fired_with, status in Hfs. rewrite Hsgc in Hfs.
      cbn in Hfs. congruence. }
    split.
    { destruct Hsame as (sg2 & Hsg2 & He2 & Ha2).
      unfold fired_with, status in Hfs |- *. rewrite Hsg2. rewrite Hsgc in Hfs.
      cbn in Hfs |- *. injection Hfs as _ Hab.
      by rewrite He2, Ha2, Hesgc, Hab. }
    rewrite Hesgc in Hcall.
    eapply (call_pending_or_rejected (cancel_signal fuel) p s e (l_fn l) w);
      [|by apply (wf_code _ Hwf)| |done|].
    + intros c Hc _ Hcancel.
      assert (evolves w (take_once s l sgc wc)) as Hevt.
      { etrans; [done|]. by apply evolves_take_once. }
      destruct fuel as [|fuel]; [lia|].
      destruct (IH fuel ltac:(lia) c (take_once s l sgc wc))
        as (w'' & Hw'' & Hp''); [by eapply WF_evolves|..].
      * rewrite (evolves_length_signals _ _ Hevt). lia.
      * rewrite (evolves_length_signals _ _ Hevt). lia.
      * unfold pending_or_rejected. by rewrite promises_take_once.
      * rewrite Hw'' in Hcancel. by injection Hcancel as <-.
    + unfold fired_with. by rewrite status_take_once.
    + unfold pending_or_rejected. by rewrite promises_take_once.
  - intros l Hl. by exists sg.
  - by eapply wf_nodup.
  - intros sg1 l Hsg1 Hl. cbn in Hsg1.
    rewrite list_lookup_insert_eq in Hsg1 by done. simplify_eq. cbn.
    by apply list_elem_of_fmap_2.
  - split; [|done].
    unfold fired_with, status. cbn. by rewrite list_lookup_insert_eq.
  - by exists w'.
Qed.

(** The observer that rejects promise [p] is registered on signal [s], which
    has not fired. *)
Definition observes (w : World) (s p : nat) : bool :=
  match signals w !! s with
  | Some sg =>
      negb (aborted sg)
      && existsb (λ l, match fn_code (l_fn l) with
                       | CReject q => q =? p
                       | _ => false
                       end) (listeners sg)
  | None => false
  end.

Lemma observes_spec (w : World) (s p : nat) :
  observes w s p = true ↔
    ∃ sg l, signals w !! s = Some sg ∧ aborted sg = false
            ∧ l ∈ listeners sg ∧ fn_code (l_fn l) = CReject p.
Proof.
  unfold observes. split.
  - destruct (signals w !! s) as [sg|]; [|done].
    intros [Ha Hex]%andb_true_iff. apply negb_true_iff in Ha.
    apply existsb_exists in Hex as (l & Hl%list_elem_of_In & Hc).
    exists sg, l. split_and!; [done..|].
    destruct (fn_code (l_fn l)); try done.
    apply Nat.eqb_eq in Hc. by subst.
  - intros (sg & l & -> & Ha & Hl & Hc). rewrite Ha. cbn.
    apply existsb_exists. exists l.
    split; [by apply list_elem_of_In|]. rewrite Hc. apply Nat.eqb_refl.
Qed.

(** When the signal fires with [e], the pending promise its observer guards
    is rejected with [e]. *)
Lemma cancel_signal_rejects (p : nat) (e : option Cause) (fuel s : nat)
    (w : World) :
  WF w → observes w s p = true → promises w !! p = Some Pending →
  length (signals w) - s ≤ fuel →
  ∃ w', cancel_signal (S fuel) s e w = Some w'
        ∧ promises w' !! p = Some (Rejected (RCause e))
        ∧ fired_with e w' s.
Proof.
  intros Hwf (sg & l0 & Hsg & Ha & Hl0 & Hc0)%observes_spec Hp Hfuel.
  pose proof (lookup_lt_Some _ _ _ Hsg) as Hs.
  cbn [cancel_signal]. rewrite Hsg. cbn [mbind option_bind]. rewrite Ha.
  set (w1 := put_signal s (mkSignal e true (listeners sg)) w).
  assert (evolves w w1) as Hev1.
  { eapply evolves_put_signal; [done|]. by split. }
  set (I := λ (todo : list Listener) (wc : World),
         fired_with e wc s
         ∧ (((∃ l, l ∈ todo ∧ fn_code (l_fn l) = CReject p)
             ∧ pending_or_rejected p e wc)
            ∨ promises wc !! p = Some (Rejected (RCause e)))).
  destruct (dispatch_hoare (cancel_signal fuel) (length (signals w)) s)
    with (I := I) (w0 := w) (ls := listeners sg) (w := w1)
    as (w' & Hw' & _ & Hfs' & [[(l & Hl & _) _]|Hrej]); try done.
  - intros c e' w2 Hwf2 Hlen2 Hc.
    destruct fuel as [|fuel]; [lia|].
    apply cancel_signal_ok; [done|lia|lia].
  - intros l todo wc sgc wc2 Hevc Hsgc Hl [Hfs HI] Hcall Hevc2 Hlow Hsame.
    assert (_error sgc = e) as Hesgc.
    { unfold fired_with, status in Hfs. rewrite Hsgc in Hfs.
      cbn in Hfs. congruence. }
    split.
    { destruct Hsame as (sg2 & Hsg2 & He2 & Ha2).
      unfold fired_with, status in Hfs |- *. rewrite Hsg2. rewrite Hsgc in Hfs.
      cbn in Hfs |- *. injection Hfs as _ Hab.
      by rewrite He2, Ha2, Hesgc, Hab. }
    destruct HI as [[(l1 & Hl1 & Hc1) Hpr]|Hrej];
      [|right; by eapply evolves_settled].
    rewrite Hesgc in Hcall.
    set (wt := take_once s l sgc wc) in *.
    assert (evolves w wt) as Hevt.
    { etrans; [done|]. by apply evolves_take_once. }
    assert (pending_or_rejected p e wc2) as Hpr2.
    { eapply (call_pending_or_rejected (cancel_signal fuel) p s e (l_fn l) w);
        [|by apply (wf_code _ Hwf)| |done|].
      - intros c Hc _ Hcancel.
        destruct fuel as [|fuel]; [lia|].
        destruct (cancel_signal_pending_or_rejected p e fuel c wt)
          as (w'' & Hw'' & Hp''); [by eapply WF_evolves|..].
        + rewrite (evolves_length_signals _ _ Hevt). lia.
        + rewrite (evolves_length_signals _ _ Hevt). lia.
        + unfold pending_or_rejected. unfold wt.
          by rewrite promises_take_once.
        + rewrite Hw'' in Hcancel. by injection Hcancel as <-.
      - unfold fired_with, wt. by rewrite status_take_once.
      - unfold pending_or_rejected, wt. by rewrite promises_take_once. }
    destruct (decide (fn_code (l_fn l) = CReject p)) as [Hcl|Hcl].
    + right. unfold call in Hcall. rewrite Hcl in Hcall.
      unfold reject, promise_reject in Hcall.
      assert (promises wt !! p = promises wc !! p) as Heq
        by (unfold wt; by rewrite promises_take_once).
      destruct Hpr as [Hpp|Hpp]; rewrite <-Heq in Hpp.
      * rewrite (settle_pending _ _ _ Hpp) in Hcall. injection Hcall as <-.
        cbn. apply list_lookup_insert_eq. by eapply lookup_lt_Some.
      * rewrite (settle_settled _ _ _ _ Hpp) in Hcall by done.
        by injection Hcall as <-.
    + left. split; [|done]. exists l1. split; [|done].
      apply elem_of_cons in Hl1 as [->|]; [congruence|done].
  - intros l Hl. by exists sg.
  - by eapply wf_nodup.
  - intros sg1 l Hsg1 Hl. cbn in Hsg1.
    rewrite list_lookup_insert_eq in Hsg1 by done. simplify_eq. cbn.
    by apply list_elem_of_fmap_2.
  - split.
    + unfold fired_with, status. cbn. by rewrite list_lookup_insert_eq.
    + left. split; [by exists l0|by left].
  - by apply elem_of_nil in Hl.
  - by exists w'.
Qed.

Lemma outcome_not_pending (a : Settle) : outcome a ≠ Pending.
Proof. by destruct a as [[]|]. Qed.

(** Each call of a resolving function is one use of [settle]. *)
Lemma settle_with_outcome (p : nat) (a : Settle) (w : World) :
  settle_with p a w = settle p (outcome a) w.
Proof. by destruct a. Qed.

Lemma run_executor_settled (p : nat) (calls : list Settle) (cur : PromiseState)
    (w : World) :
  promises w !! p = Some cur → cur ≠ Pending → run_executor p calls w = Some w.
Proof.
  intros Hp Hcur. induction calls as [|a calls IH]; [done|]. cbn.
  assert (settle_with p a w = Some w) as ->; [|done].
  rewrite settle_with_outcome. by eapply settle_settled.
Qed.

(** The executor's first call decides the state of the new promise. *)
Lemma run_executor_new (calls : list Settle) (w : World) :
  let p := length (promises w) in
  let w0 := set_promises (promises w ++ [Pending]) w in
  run_executor p calls w0 =
    Some match calls with
         | [] => w0
         | a :: _ => set_promises (promises w ++ [outcome a]) w
         end.
Proof.
  intros p w0. destruct calls as [|a calls]; [done|]. cbn.
  assert (settle_with p a w0 =
          Some (set_promises (promises w ++ [outcome a]) w)) as ->.
  { assert (promises w0 !! p = Some Pending) as Hp by apply lookup_snoc_new.
    rewrite settle_with_outcome, (settle_pending _ _ _ Hp). cbn.
    unfold set_promises. cbn. do 2 f_equal.
    by rewrite insert_app_r_alt, Nat.sub_diag by done. }
  cbn. eapply run_executor_settled; [apply lookup_snoc_new|].
  apply outcome_not_pending.
Qed.

Lemma WF_alloc_promise (st : PromiseState) (w : World) :
  WF w → WF (set_promises (promises w ++ [st]) w).
Proof.
  intros Hwf. apply (WF_mono w); cbn; try done.
  - by eapply wf_nodup.
  - rewrite length_app. lia.
  - by eapply wf_timers.
Qed.

(** ** A canceled timeout and the deadline of its parent *)

(** C4 fails on the code.  [p = new WithTimeout(new Background(), 100)],
    [t = new WithTimeout(p, 50)], [t.cancel()]: the cause of [t] is
    [Canceled] and its own timer is disarmed.  But the observer of [t] is
    still on the signal of [p] (see C3); when the deadline of [p] passes,
    it calls [cancel] on the signal of [t] again, which overwrites the
    recorded cause: [t.error()] is then [DeadlineExceeded]. *)
Theorem canceled_timeout_overwritten_by_parent_deadline :
  ∃ p t w1 w2 w3,
    (new_WithTimeout Background 100 empty_world
       ≫= λ '(p, w), new_WithTimeout p 50 w ≫= λ '(t, w'), Some (p, t, w'))
    = Some (p, t, w1)
    ∧ cancel t w1 = Some w2
    ∧ error t w2 = Some Canceled
    ∧ timers w2 !! 1 = Some (mkTimer 50 1 false)
    ∧ delay 100 w2 = Some w3
    ∧ error t w3 = Some DeadlineExceeded.
Proof.
  eexists _, _, _, _, _.
  split; [vm_compute; reflexivity|].
  split; [vm_compute; reflexivity|].
  split; [reflexivity|]. split; [reflexivity|].
  split; [vm_compute; reflexivity|]. reflexivity.
Qed.

(** ** Time passing *)

Lemma evolves_set_now (x : Z) (w : World) : evolves w (set_now x w).
Proof. by split. Qed.

Lemma fire_timer_evolves (id : nat) (w w' : World) :
  fire_timer id w = Some w' → evolves w w'.
Proof.
  unfold fire_timer. intros H.
  destruct (timers w !! id) as [t|] eqn:Ht; simplify_eq/=.
  destruct (t_armed t); simplify_eq/=; [|done].
  etrans; [|by eapply cancel_signal_evolves].
  split; cbn; try done.
  eapply Forall2_insert_same; [apply _|done|]. by split_and!.
Qed.

Lemma fire_timer_ok (id : nat) (w : World) :
  WF w → id < length (timers w) → ∃ w', fire_timer id w = Some w'.
Proof.
  intros Hwf Hid. unfold fire_timer.
  destruct (lookup_lt_is_Some_2 _ _ Hid) as [t Ht]. rewrite Ht. cbn.
  destruct (t_armed t); [|by eexists].
  match goal with |- ∃ _, signal_cancel _ _ ?x = _ => set (w1 := x) end.
  assert (evolves w w1) as Hev.
  { split; cbn; try done.
    eapply Forall2_insert_same; [apply _|done|]. by split_and!. }
  destruct (signal_cancel_ok (t_signal t) (Some DeadlineExceeded) w1)
    as (w' & Hw' & _); [by eapply WF_evolves| |by exists w'].
  rewrite (evolves_length_signals _ _ Hev). by eapply wf_timers.
Qed.

Lemma run_timers_ok (ids : list nat) (w : World) :
  WF w → Forall (λ id, id < length (timers w)) ids →
  ∃ w', run_timers ids w = Some w' ∧ evolves w w'.
Proof.
  revert w. induction ids as [|id ids IH]; intros w Hwf Hids; cbn.
  { by exists w. }
  apply Forall_cons in Hids as [Hid Hids].
  destruct (fire_timer_ok id w Hwf Hid) as [w1 Hw1]. rewrite Hw1. cbn.
  pose proof (fire_timer_evolves _ _ _ Hw1) as Hev1.
  destruct (IH w1) as (w' & Hw' & Hev'); [by eapply WF_evolves| |].
  - eapply Forall_impl; [done|]. intros i Hi. cbn in Hi.
    by rewrite <-(Forall2_length _ _ _ (ev_timers _ _ Hev1)).
  - exists w'. split; [done|]. by etrans.
Qed.

Lemma elem_of_insert_due (ts : list Timer) (id x : nat) (ids : list nat) :
  x ∈ insert_due ts id ids → x = id ∨ x ∈ ids.
Proof.
  induction ids as [|i ids IH]; cbn.
  - intros ->%list_elem_of_singleton. by left.
  - destruct (ts !! id), (ts !! i); try (by intros [->|?]%elem_of_cons; auto).
    destruct (_ <? _)%Z; [by intros [->|?]%elem_of_cons; auto|].
    intros [->|[->|?]%IH]%elem_of_cons; [right; left|by left|right; by right].
Qed.

Lemma elem_of_foldr_insert_due (ts : list Timer) (x : nat) (ids : list nat) :
  x ∈ foldr (insert_due ts) [] ids → x ∈ ids.
Proof.
  induction ids as [|i ids IH]; cbn; [done|].
  intros [->|Hx]%elem_of_insert_due; [left|right; by apply IH].
Qed.

Lemma due_timers_lt (target : Z) (w : World) :
  Forall (λ id, id < length (timers w)) (due_timers target w).
Proof.
  apply Forall_forall. intros x Hx%elem_of_foldr_insert_due.
  apply elem_of_reverse, list_elem_of_filter in Hx as [_ Hx].
  apply elem_of_seq in Hx. lia.
Qed.

(** Waiting always returns in a well-formed store. *)
Lemma delay_ok (ms : Z) (w : World) :
  WF w → ∃ w', delay ms w = Some w' ∧ evolves w w'.
Proof.
  intros Hwf. unfold delay.
  destruct (run_timers_ok (due_timers (now w + 0 `max` ms) w) w Hwf)
    as (w' & Hw' & Hev); [apply due_timers_lt|].
  rewrite Hw'. cbn. eexists. split; [done|].
  etrans; [done|]. apply evolves_set_now.
Qed.

(** ** Every operation keeps the store well formed *)

Lemma run_executor_ok (p : nat) (calls : list Settle) (w : World) :
  p < length (promises w) →
  ∃ w', run_executor p calls w = Some w' ∧ evolves w w'.
Proof.
  revert w. induction calls as [|a calls IH]; intros w Hp; cbn.
  { by exists w. }
  destruct (lookup_lt_is_Some_2 _ _ Hp) as [cur Hcur].
  assert (∃ w1, settle_with p a w = Some w1 ∧ evolves w w1) as (w1 & Hw1 & Hev1).
  { rewrite settle_with_outcome. unfold settle. rewrite Hcur. cbn. eexists.
    split; [done|]. eapply evolves_settle. unfold settle. by rewrite Hcur. }
  rewrite Hw1. cbn.
  destruct (IH w1) as (w' & Hw' & Hev').
  { by rewrite (evolves_length_promises _ _ Hev1). }
  exists w'. split; [done|]. by etrans.
Qed.

Lemma new_ContextPromise_WF (ctx : Context) (executor : list Settle)
    (w : World) :
  WF w → valid_ctx w ctx = true →
  ∃ w', new_ContextPromise ctx executor w = Some (length (promises w), w')
        ∧ WF w' ∧ extends w w'.
Proof.
  intros Hwf Hvalid0.
  pose proof (proj1 (valid_ctx_spec _ _) Hvalid0) as Hvalid.
  unfold new_ContextPromise.
  set (p := length (promises w)).
  set (w0 := set_promises (promises w ++ [Pending]) w).
  assert (WF w0) as Hwf0 by by apply WF_alloc_promise.
  assert (extends w w0) as Hex0.
  { apply mkExtends; cbn; [lia|rewrite length_app; lia|lia|]. by left. }
  destruct (run_executor_ok p executor w0) as (w1 & Hw1 & Hev1).
  { cbn. rewrite length_app. cbn. subst p. lia. }
  rewrite Hw1. cbn [mbind option_bind].
  assert (WF w1) as Hwf1 by by eapply WF_evolves.
  assert (extends w w1) as Hex1.
  { etrans; [done|]. by apply evolves_extends. }
  destruct (done ctx) as [s|] eqn:Hd; [|by exists w1].
  destruct (onCanceled_WF s (mkClosure (next_fn w1) (CReject p)) (bump_fn w1))
    as (w2 & Hw2 & Hwf2 & Hlen2 & Hlenp2 & _ & Hfn2 & Hl2).
  { by apply WF_bump_fn. }
  { cbn. rewrite (evolves_length_signals w0 w1) by done. cbn. by apply Hvalid. }
  { cbn. rewrite (evolves_length_promises w0 w1) by done. cbn.
    rewrite length_app. cbn. subst p. lia. }
  rewrite Hw2. cbn. exists w2. split; [done|]. split; [done|].
  cbn in Hlen2, Hlenp2, Hfn2.
  pose proof (ex_signals _ _ Hex1). pose proof (ex_promises _ _ Hex1).
  pose proof (ex_next_fn _ _ Hex1).
  apply mkExtends; [lia..|].
  intros q l [Hold|[-> ->]]%Hl2.
  - by apply (ex_listeners _ _ Hex1).
  - right. cbn. split; [lia|done].
Qed.

(** A call from a thenable touches the promises only, and none is added. *)
Lemma thenable_calls_frame (p : nat) (a : Settle) (w w' : World) :
  thenable_calls p a w = Some w' →
  signals w' = signals w ∧ timers w' = timers w ∧ next_fn w' = next_fn w
  ∧ now w' = now w ∧ length (promises w') = length (promises w).
Proof.
  unfold thenable_calls. intros H.
  destruct (promises w !! p) as [cur|]; simplify_eq/=.
  destruct cur; cbn; split_and!; try done. by rewrite length_insert.
Qed.

Lemma thenable_calls_WF (p : nat) (a : Settle) (w : World) :
  WF w → p < length (promises w) →
  ∃ w', thenable_calls p a w = Some w' ∧ WF w' ∧ extends w w'.
Proof.
  intros Hwf Hp.
  destruct (thenable_calls p a w) as [w'|] eqn:Hw'.
  2: { unfold thenable_calls in Hw'.
       destruct (lookup_lt_is_Some_2 _ _ Hp) as [cur Hcur].
       by rewrite Hcur in Hw'. }
  destruct (thenable_calls_frame _ _ _ _ Hw') as (Hsg & Htm & Hfn & _ & Hlen).
  assert (∀ q l, listener_at w' q l → listener_at w q l) as Hl.
  { intros q l. unfold listener_at. by rewrite Hsg. }
  exists w'. split; [done|]. split.
  - apply (WF_mono w); try done.
    + intros q sg. rewrite Hsg. by apply (wf_nodup _ Hwf).
    + by rewrite Hsg.
    + by rewrite Hlen.
    + by rewrite Hfn.
    + intros i t. rewrite Htm, Hsg. by apply (wf_timers _ Hwf).
  - apply mkExtends; [by rewrite Hsg|by rewrite Hlen|by rewrite Hfn|].
    intros q l Hql. left. by apply Hl.
Qed.

(** The operations of the module, as a caller issues them, and the calls
    that reach it from outside: a thenable settling a promise that follows
    it, and time passing. *)
Inductive Op : Type :=
| NewWithCancel (ctx : Context)
| NewWithTimeout (ctx : Context) (ms : Z)
| NewContextPromise (ctx : Context) (executor : list Settle)
| CallCancel (ctx : Context)
| CallResolve (p : nat) (x : Resolution)
| CallReject (p : nat) (r : Reason)
| ThenableCalls (p : nat) (a : Settle)
| Await (ms : Z).

Definition step (op : Op) (w : World) : option World :=
  match op with
  | NewWithCancel ctx => snd <$> new_WithCancel ctx w
  | NewWithTimeout ctx ms => snd <$> new_WithTimeout ctx ms w
  | NewContextPromise ctx executor => snd <$> new_ContextPromise ctx executor w
  | CallCancel ctx => cancel ctx w
  | CallResolve p x => resolve p x w
  | CallReject p r => reject p r w
  | ThenableCalls p a => thenable_calls p a w
  | Await ms => delay ms w
  end.

(** The operation is applied to objects that exist. *)
Definition op_ok (w : World) (op : Op) : bool :=
  match op with
  | NewWithCancel ctx | NewWithTimeout ctx _ | NewContextPromise ctx _ =>
      valid_ctx w ctx
  | CallCancel (WithCancel _ s) | CallCancel (WithTimeout _ s) =>
      s <? length (signals w)
  | CallCancel _ => false
  | CallResolve p _ | CallReject p _ | ThenableCalls p _ =>
      p <? length (promises w)
  | Await _ => true
  end.

(** Every operation returns, and leaves a well-formed store that extends
    the one before. *)
Lemma step_WF (op : Op) (w : World) :
  WF w → op_ok w op = true →
  ∃ w', step op w = Some w' ∧ WF w' ∧ extends w w'.
Proof.
  intros Hwf Hok. destruct op as [ctx|ctx ms|ctx ex|ctx|p v|p r|p a|ms];
    cbn in *.
  - destruct (new_WithCancel_WF ctx w Hwf Hok) as (w' & -> & ? & ? & _).
    by exists w'.
  - destruct (new_WithTimeout_WF ctx ms w Hwf Hok) as (w' & -> & ? & ? & _).
    by exists w'.
  - destruct (new_ContextPromise_WF ctx ex w Hwf Hok) as (w' & -> & ? & ?).
    by exists w'.
  - assert (∃ s, cancel ctx w = signal_cancel s (Some Canceled) w
                 ∧ s < length (signals w)) as (s & -> & Hs).
    { destruct ctx as [| | ? s| ? s]; try done;
        exists s; by apply Nat.ltb_lt in Hok. }
    destruct (signal_cancel_ok s (Some Canceled) w Hwf Hs) as (w' & -> & Hev & _).
    exists w'. split; [done|]. split; [by eapply WF_evolves|].
    by apply evolves_extends.
  - apply Nat.ltb_lt in Hok. unfold resolve, promise_resolve.
    destruct (lookup_lt_is_Some_2 _ _ Hok) as [cur Hcur].
    destruct (settle p (resolved_with v) w) as [w'|] eqn:Hw';
      [|unfold settle in Hw'; by rewrite Hcur in Hw'].
    pose proof (evolves_settle _ _ _ _ Hw').
    exists w'. split; [done|]. split; [by eapply WF_evolves|].
    by apply evolves_extends.
  - apply Nat.ltb_lt in Hok. unfold reject, promise_reject.
    destruct (lookup_lt_is_Some_2 _ _ Hok) as [cur Hcur].
    destruct (settle p (Rejected r) w) as [w'|] eqn:Hw';
      [|unfold settle in Hw'; by rewrite Hcur in Hw'].
    pose proof (evolves_settle _ _ _ _ Hw').
    exists w'. split; [done|]. split; [by eapply WF_evolves|].
    by apply evolves_extends.
  - apply Nat.ltb_lt in Hok. by apply thenable_calls_WF.
  - destruct (delay_ok ms w Hwf) as (w' & -> & Hev).
    exists w'. split; [done|]. split; [by eapply WF_evolves|].
    by apply evolves_extends.
Qed.

(** ** A canceled node that nothing can reach *)

(** The signal [s] records [Canceled], no observer fires it, and no armed
    timer is set on it. *)
Definition sealed (w : World) (s : nat) : Prop :=
  fired_with (Some Canceled) w s
  ∧ (∀ q, ¬ edge w q s)
  ∧ ∀ i tm, timers w !! i = Some tm → t_armed tm = true → t_signal tm ≠ s.

Lemma sealed_evolves (w w' : World) (s : nat) :
  evolves w w' → status w' s = status w s → sealed w s → sealed w' s.
Proof.
  intros Hev Hst (Hf & Hedge & Htm). split_and!.
  - unfold fired_with. by rewrite Hst.
  - intros q (l & p & Hl & Hc). apply (Hedge q). exists l, p.
    split; [|done]. by eapply evolves_listener_at.
  - intros i tm Hi Harmed.
    destruct (Forall2_lookup_r _ _ _ _ _ (ev_timers _ _ Hev) Hi)
      as (tm0 & Hi0 & _ & Hsig & Ha).
    rewrite Hsig. by apply (Htm i tm0), Ha.
Qed.

Lemma fire_timer_sealed (id s : nat) (w w' : World) :
  fire_timer id w = Some w' → sealed w s → sealed w' s.
Proof.
  intros Hfire Hsealed. pose proof (fire_timer_evolves _ _ _ Hfire) as Hev.
  apply (sealed_evolves w); [done| |done].
  unfold fire_timer in Hfire.
  destruct (timers w !! id) as [tm|] eqn:Htm; simplify_eq/=.
  destruct (t_armed tm) eqn:Harmed; simplify_eq/=; [|done].
  destruct Hsealed as (_ & Hedge & Htms).
  match type of Hfire with signal_cancel _ _ ?x = _ => set (w1 := x) in * end.
  change (status w s) with (status w1 s).
  apply (cancel_signal_frame (λ j, j ≠ s) _ _ _ _ _) with (j := s) in Hfire;
    [done| |by eapply Htms|by intros ?].
  intros q c _ Hqc ->. by apply (Hedge q).
Qed.

Lemma run_timers_sealed (ids : list nat) (s : nat) (w w' : World) :
  run_timers ids w = Some w' → sealed w s → sealed w' s.
Proof.
  revert w. induction ids as [|id ids IH]; intros w Hrun Hs; simplify_eq/=;
    [done|].
  destruct (fire_timer id w) as [w1|] eqn:Hw1; simplify_eq/=.
  eapply IH; [done|]. by eapply fire_timer_sealed.
Qed.

Lemma delay_sealed (ms : Z) (s : nat) (w w' : World) :
  delay ms w = Some w' → sealed w s → sealed w' s.
Proof.
  unfold delay. intros Hd Hs.
  destruct (run_timers _ w) as [w1|] eqn:Hw1; simplify_eq/=.
  change (sealed w1 s). by eapply run_timers_sealed.
Qed.

(** Waiting several times in a row. *)
Fixpoint delays (waits : list Z) (w : World) : option World :=
  match waits with
  | [] => Some w
  | ms :: waits' => w' ← delay ms w; delays waits' w'
  end.

Lemma delays_sealed (waits : list Z) (s : nat) (w : World) :
  WF w → sealed w s →
  ∃ w', delays waits w = Some w' ∧ sealed w' s.
Proof.
  revert w. induction waits as [|ms waits IH]; intros w Hwf Hs; cbn.
  { by exists w. }
  destruct (delay_ok ms w Hwf) as (w1 & Hw1 & Hev1). rewrite Hw1. cbn.
  apply IH; [by eapply WF_evolves|by eapply delay_sealed].
Qed.

(** A [WithTimeout] node over a parent that has no signal (over
    [Background], as in the repository's test "clearTimeout on
    context.WithTimeout"), canceled before its deadline: the timer is
    cleared, and however long one waits, [error()] stays [Canceled]. *)
Lemma canceled_root_timeout_stays_canceled (parent : Context) (ms : Z)
    (waits : list Z) (w : World) :
  wf_world w = true → done parent = None →
  let t := WithTimeout parent (length (signals w)) in
  ∃ w1 w2 w3,
    new_WithTimeout parent ms w = Some (t, w1)
    ∧ cancel t w1 = Some w2
    ∧ error t w2 = Some Canceled
    ∧ (∃ tm, timers w2 !! length (timers w) = Some tm
             ∧ t_signal tm = length (signals w) ∧ t_armed tm = false)
    ∧ delays waits w2 = Some w3
    ∧ error t w3 = Some Canceled.
Proof.
  intros Hwf%wf_world_spec Hd t.
  set (s := length (signals w)) in *.
  set (id := length (timers w)).
  pose proof (WithCancel_constructor_root parent w Hd) as Hc. fold s in Hc.
  pose proof (new_WithTimeout_unfold parent ms s new_CancelSignal w _ Hc
                (lookup_snoc_new _ _)) as Hnew.
  cbn zeta in Hnew. cbn [aborted new_CancelSignal] in Hnew.
  set (clear := mkListener (S (next_fn w))
                  (mkClosure (next_fn w) (CClearTimeout id)) true).
  set (tm := mkTimer (now w + timeout_delay ms) s true).
  set (w1 := mkWorld (<[s := mkSignal None false [clear]]>
                        (signals w ++ [new_CancelSignal]))
               (timers w ++ [tm]) (promises w) (S (S (next_fn w))) (now w)).
  change (new_WithTimeout parent ms w = Some (t, w1)) in Hnew.
  assert (s < length (signals w ++ [new_CancelSignal])) as Hlt.
  { rewrite length_app. cbn. lia. }
  assert (signals w1 !! s = Some (mkSignal None false [clear])) as Hs1.
  { cbn. by rewrite list_lookup_insert_eq. }
  assert (length (signals w1) = S s) as Hlen1.
  { cbn. rewrite length_insert, length_app. cbn. lia. }
  set (w2 := mkWorld (<[s := mkSignal (Some Canceled) true []]>
                        (signals w ++ [new_CancelSignal]))
               (<[id := mkTimer (now w + timeout_delay ms) s false]>
                  (timers w ++ [tm]))
               (promises w) (S (S (next_fn w))) (now w)).
  assert (cancel t w1 = Some w2) as Hw2.
  { unfold t, cancel, signal_cancel, enough_fuel. rewrite Hlen1.
    cbn [cancel_signal]. rewrite Hs1. cbn [mbind option_bind aborted listeners].
    cbn [dispatch].
    assert (signals (put_signal s (mkSignal (Some Canceled) true [clear]) w1)
              !! s = Some (mkSignal (Some Canceled) true [clear])) as ->.
    { cbn. rewrite list_lookup_insert_eq; [done|]. by rewrite length_insert. }
    cbn [mbind option_bind aborted listeners _error fmap list_fmap].
    rewrite decide_True by (apply list_elem_of_singleton; done).
    cbn [l_once clear]. rewrite put_signal_twice.
    rewrite filter_cons_False by (intros Hne; by apply Hne).
    unfold call, clear. cbn [l_fn fn_code l_id filter list_filter].
    cbn [mbind option_bind]. f_equal. unfold clearTimeout.
    assert (timers (put_signal s (mkSignal (Some Canceled) true []) w1) !! id
            = Some tm) as ->.
    { cbn. apply lookup_snoc_new. }
    unfold w2, put_signal, set_signals, set_timers. cbn.
    by rewrite list_insert_insert_eq. }
  assert (WF w1) as Hwf1.
  { destruct (new_WithTimeout_WF parent ms w Hwf) as (w' & Hw' & Hwf' & _).
    { unfold valid_ctx. by rewrite Hd. }
    rewrite Hnew in Hw'. by simplify_eq. }
  assert (WF w2) as Hwf2.
  { destruct (signal_cancel_ok s (Some Canceled) w1 Hwf1) as (w' & Hw' & Hf).
    { rewrite Hlen1. lia. }
    change (cancel t w1 = Some w') in Hw'. rewrite Hw2 in Hw'.
    injection Hw' as <-. destruct Hf as [Hev _]. by eapply WF_evolves. }
  assert (sealed w2 s) as Hsealed.
  { split_and!.
    - unfold fired_with, status. cbn. by rewrite list_lookup_insert_eq.
    - intros q (l & p & Hl & Hcode).
      pose proof (wf_code _ Hwf2 _ _ Hl) as Hok. rewrite Hcode in Hok.
      destruct Hok as (_ & Hq & _).
      destruct Hl as (sg & Hsg & Hin). cbn in Hsg.
      rewrite list_lookup_insert_ne, lookup_app_l in Hsg by (fold s; lia).
      assert (listener_at w q l) as Hl0 by by exists sg.
      pose proof (wf_code _ Hwf _ _ Hl0) as Hok. rewrite Hcode in Hok.
      destruct Hok as (_ & _ & Hs). fold s in Hs. lia.
    - intros i tm' Hi Harmed. cbn in Hi.
      destruct (decide (i = id)) as [->|Hne].
      + rewrite list_lookup_insert_eq in Hi
          by (rewrite length_app; cbn; fold id; lia).
        by simplify_eq.
      + rewrite list_lookup_insert_ne in Hi by done.
        apply lookup_app_Some in Hi as [Hi|[Hge Hi]].
        * pose proof (wf_timers _ Hwf _ _ Hi). fold s in H. lia.
        * apply list_lookup_singleton_Some in Hi as [Hi _]. fold id in Hge, Hi.
          lia. }
  destruct (delays_sealed waits s w2 Hwf2 Hsealed) as (w3 & Hw3 & Hsealed3).
  exists w1, w2, w3. split_and!; try done.
  - by apply (fired_with_error (Some Canceled) t s w2), Hsealed.
  - exists (mkTimer (now w + timeout_delay ms) s false). split; [|done]. cbn.
    apply list_lookup_insert_eq. rewrite length_app. cbn. fold id. lia.
  - by apply (fired_with_error (Some Canceled) t s w3), Hsealed3.
Qed.

(** * More of the module *)

(** ** Lookup of values *)

(** The bindings on the way from [ctx] to the root, the nearest first. *)
Fixpoint bindings (ctx : Context) : list (JSValue * JSValue) :=
  match ctx with
  | Background => []
  | WithValue parent k v => (k, v) :: bindings parent
  | WithCancel parent _ | WithTimeout parent _ => bindings parent
  end.

(** Two numbers are equal when they are the same number, NaN apart, or
    when both are zeros. *)
Lemma SFeqb_true (x y : spec_float) :
  SFeqb x y = true →
  (x = y ∧ x ≠ S754_nan) ∨ (∃ s s', x = S754_zero s ∧ y = S754_zero s').
Proof.
  unfold SFeqb.
  destruct x as [s|s| |s m e], y as [s'|s'| |s' m' e']; cbn; try done.
  - intros _. right. by exists s, s'.
  - by destruct s'.
  - by destruct s'.
  - by destruct s.
  - destruct s, s'; try done; intros _; by left.
  - by destruct s.
  - by destruct s.
  - by destruct s'.
  - change (Pos.compare_cont Eq m m') with (Pos.compare m m').
    destruct s, s'; try done; destruct (Z.compare_spec e e') as [->| |];
      try done; destruct (Pos.compare_spec m m') as [->| |]; try done;
      intros _; by left.
Qed.

Lemma strict_equals_true (a b : JSValue) :
  strict_equals a b = true →
  (a = b ∧ a ≠ NaN)
  ∨ (∃ s s', a = JSNumber (S754_zero s) ∧ b = JSNumber (S754_zero s')).
Proof.
  destruct a, b; cbn; try done.
  - intros _. by left.
  - intros _. by left.
  - intros ->%Bool.eqb_prop. by left.
  - intros [[-> Hx]|(s & s' & -> & ->)]%SFeqb_true.
    + left. split; [done|]. unfold NaN. congruence.
    + right. by exists s, s'.
  - intros ->%Z.eqb_eq. by left.
  - intros ->%String.eqb_eq. by left.
  - intros ->%Nat.eqb_eq. by left.
  - intros ->%Nat.eqb_eq. by left.
  - intros ->%Nat.eqb_eq. by left.
  - intros ->%Nat.eqb_eq. by left.
Qed.

(** Keys that are strictly equal match the same keys. *)
Lemma strict_equals_compat (a k k' : JSValue) :
  strict_equals k k' = true → strict_equals a k = strict_equals a k'.
Proof.
  intros [[-> _]|(s & s' & -> & ->)]%strict_equals_true; [done|].
  by destruct a as [| | |[]| | | | | |].
Qed.

(** X1.  [value(key)] is the value of the nearest binding, going from the
    node towards the root, whose key is strictly equal to [key], and null
    when there is none; [WithCancel] and [WithTimeout] nodes on the way bind
    nothing. *)
Theorem value_nearest_binding (ctx : Context) (key : JSValue) :
  value ctx key =
    match List.find (λ kv, strict_equals kv.1 key) (bindings ctx) with
    | Some kv => kv.2
    | None => JSNull
    end.
Proof.
  induction ctx as [|parent IH k v|parent IH s|parent IH s]; cbn; try done.
  by destruct (strict_equals k key).
Qed.

(** X2.  Lookup depends on the key only up to strict equality: two keys
    that are strictly equal, such as the numbers +0 and -0, find the same
    value in every context. *)
Theorem value_strictly_equal_keys (k k' : JSValue) (ctx : Context) :
  strict_equals k k' = true → value ctx k = value ctx k'.
Proof.
  intros Heq.
  induction ctx as [|parent IH a v|parent IH s|parent IH s]; cbn; try done.
  by rewrite (strict_equals_compat a k k' Heq), IH.
Qed.

Lemma value_strictly_equal_keys_witness :
  let plus0 := JSNumber (S754_zero false) in
  let minus0 := JSNumber (S754_zero true) in
  let ctx := WithValue Background plus0 (JSString "zero"%string) in
  strict_equals minus0 plus0 = true
  ∧ value ctx minus0 = JSString "zero"%string.
Proof.
  intros plus0 minus0 ctx. split; [reflexivity|].
  change (JSString "zero"%string) with (value ctx plus0).
  apply (value_strictly_equal_keys minus0 plus0 ctx). reflexivity.
Defined.

(** ** What one firing does *)

(** How a firing with cause [e] can change a signal: not at all; or, on a
    signal that had fired before, only the recorded cause is written; or a
    signal that had not fired is aborted, records the cause, and keeps none
    of its [once] listeners. *)
Definition change (e : option Cause) (sg sg' : CancelSignal) : Prop :=
  sg' = sg
  ∨ (aborted sg = true ∧ sg' = mkSignal e true (listeners sg))
  ∨ (aborted sg = false ∧ _error sg' = e ∧ aborted sg' = true
     ∧ ∀ l, l ∈ listeners sg' → l ∈ listeners sg ∧ l_once l = false).

Definition changes (e : option Cause) (w w' : World) : Prop :=
  ∀ j sg, signals w !! j = Some sg →
    ∃ sg', signals w' !! j = Some sg' ∧ change e sg sg'.

(** The effect of a listener that has run with cause [e]: the signal a
    handler fires is aborted with that cause, the timer is cleared, the
    promise is not pending. *)
Definition ran (e : option Cause) (w : World) (l : Listener) : Prop :=
  match fn_code (l_fn l) with
  | CPropagate c _ => status w c = Some (e, true)
  | CUnlisten _ _ => True
  | CClearTimeout id => ∀ t, timers w !! id = Some t → t_armed t = false
  | CReject p => ∀ st, promises w !! p = Some st → st ≠ Pending
  end.

(** [l] was a listener of signal [q], which had not fired in [w] and has
    fired in [w']. *)
Definition fired_listener (w w' : World) (q : nat) (l : Listener) : Prop :=
  ∃ sg, signals w !! q = Some sg ∧ aborted sg = false ∧ l ∈ listeners sg
        ∧ is_aborted q w' = true.

(** What happens to a timer and to a promise between [w] and [w'], when
    [cause] tells which closures ran. *)
Definition timer_step (w' : World) (i : nat) (t : Timer) (cause : Prop)
  : Prop :=
  timers w' !! i = Some t
  ∨ (t_armed t = true
     ∧ timers w' !! i = Some (mkTimer (t_due t) (t_signal t) false)
     ∧ cause).

Definition promise_step (e : option Cause) (w' : World) (p : nat)
    (st : PromiseState) (cause : Prop) : Prop :=
  promises w' !! p = Some st
  ∨ (st = Pending ∧ promises w' !! p = Some (Rejected (RCause e)) ∧ cause).

(** Some listener of a signal that fired between [w] and [w'] has the
    code [code]. *)
Definition ran_code (w w' : World) (code : Code) : Prop :=
  ∃ q l, fired_listener w w' q l ∧ fn_code (l_fn l) = code.

(** A firing with cause [e] takes [w] to [w']. *)
Record fires (e : option Cause) (w w' : World) : Prop := mkFires {
  f_evolves : evolves w w';
  f_now : now w' = now w;
  f_signals : changes e w w';
  f_ran : ∀ q l, fired_listener w w' q l → ran e w' l;
  f_timers : ∀ i t, timers w !! i = Some t →
    timer_step w' i t (ran_code w w' (CClearTimeout i));
  f_promises : ∀ p st, promises w !! p = Some st →
    promise_step e w' p st (ran_code w w' (CReject p))
}.

(** What one listener [l] of a signal that is firing does. *)
Record listener_step (e : option Cause) (l : Listener) (w w' : World)
  : Prop := mkListenerStep {
  ls_evolves : evolves w w';
  ls_now : now w' = now w;
  ls_signals : changes e w w';
  ls_ran_l : ran e w' l;
  ls_ran : ∀ q l', fired_listener w w' q l' → ran e w' l';
  ls_timers : ∀ i t, timers w !! i = Some t →
    timer_step w' i t
      (fn_code (l_fn l) = CClearTimeout i
       ∨ ran_code w w' (CClearTimeout i));
  ls_promises : ∀ p st, promises w !! p = Some st →
    promise_step e w' p st
      (fn_code (l_fn l) = CReject p ∨ ran_code w w' (CReject p))
}.

(** The state of the firing of signal [s], which was [sg] in [w], when the
    listeners [todo] are still to run. *)
Record firing (e : option Cause) (s : nat) (sg : CancelSignal) (w : World)
    (todo : list Listener) (wc : World) : Prop := mkFiring {
  g_now : now wc = now w;
  g_self : ∃ sgc, signals wc !! s = Some sgc ∧ _error sgc = e
                  ∧ aborted sgc = true
                  ∧ ∀ l, l ∈ listeners sgc →
                      l ∈ listeners sg ∧ (l ∈ todo ∨ l_once l = false);
  g_signals : ∀ j sg0, j ≠ s → signals w !! j = Some sg0 →
    ∃ sg', signals wc !! j = Some sg' ∧ change e sg0 sg';
  g_ran_self : ∀ l, l ∈ listeners sg → l ∈ todo ∨ ran e wc l;
  g_ran : ∀ q l, q ≠ s → fired_listener w wc q l → ran e wc l;
  g_timers : ∀ i t, timers w !! i = Some t →
    timer_step wc i t (ran_code w wc (CClearTimeout i));
  g_promises : ∀ p st, promises w !! p = Some st →
    promise_step e wc p st (ran_code w wc (CReject p))
}.

Lemma change_refl (e : option Cause) (sg : CancelSignal) : change e sg sg.
Proof. by left. Qed.

Lemma change_trans (e : option Cause) (a b c : CancelSignal) :
  change e a b → change e b c → change e a c.
Proof.
  intros [->|[[Ha ->]|(Ha & He & Hab & Hl)]]; [done|..].
  - intros [->|[[_ ->]|(Hb & _)]]; [right; by left|right; by left|done].
  - intros [->|[[_ ->]|(Hb & _)]].
    + right. right. done.
    + right. right. done.
    + congruence.
Qed.

(** A signal that has fired with [e] is not changed by a firing with [e]. *)
Lemma change_fired (e : option Cause) (sg sg' : CancelSignal) :
  _error sg = e → aborted sg = true → change e sg sg' → sg' = sg.
Proof.
  intros He Ha [->|[[_ ->]|(Hf & _)]]; [done| |congruence].
  destruct sg; cbn in *. by subst.
Qed.

(** A signal that has not fired afterwards was not changed. *)
Lemma change_pending (e : option Cause) (sg sg' : CancelSignal) :
  aborted sg' = false → change e sg sg' → sg' = sg.
Proof. intros Ha [->|[[_ ->]|(_ & _ & Ha' & _)]]; [done|done|congruence]. Qed.

Lemma change_status (e : option Cause) (sg sg' : CancelSignal) :
  change e sg sg' →
  (_error sg', aborted sg') = (_error sg, aborted sg)
  ∨ (_error sg', aborted sg') = (e, true).
Proof.
  intros [->|[[_ ->]|(_ & -> & -> & _)]]; [by left|by right|by right].
Qed.

Lemma change_signal_le (e : option Cause) (sg sg' : CancelSignal) :
  change e sg sg' → aborted sg = true → aborted sg' = true.
Proof. intros [->|[[_ ->]|(_ & _ & -> & _)]]; done. Qed.

Lemma changes_refl (e : option Cause) (w : World) : changes e w w.
Proof. intros j sg Hj. exists sg. split; [done|apply change_refl]. Qed.

Lemma changes_trans (e : option Cause) (w1 w2 w3 : World) :
  changes e w1 w2 → changes e w2 w3 → changes e w1 w3.
Proof.
  intros H12 H23 j sg Hj.
  destruct (H12 j sg Hj) as (sg2 & Hj2 & Hc2).
  destruct (H23 j sg2 Hj2) as (sg3 & Hj3 & Hc3).
  exists sg3. split; [done|]. by eapply change_trans.
Qed.

Lemma changes_is_aborted (e : option Cause) (w w' : World) (q : nat) :
  changes e w w' → is_aborted q w = true → is_aborted q w' = true.
Proof.
  intros Hch. unfold is_aborted.
  destruct (signals w !! q) as [sg|] eqn:Hq; [|done].
  destruct (Hch q sg Hq) as (sg' & -> & Hc). intros Ha.
  by eapply change_signal_le.
Qed.

Lemma changes_status_fired (e : option Cause) (w w' : World) (c : nat) :
  changes e w w' → status w c = Some (e, true) → status w' c = Some (e, true).
Proof.
  intros Hch. unfold status.
  destruct (signals w !! c) as [sg|] eqn:Hc; [|done]. cbn. intros [= He Ha].
  destruct (Hch c sg Hc) as (sg' & -> & Hcg). cbn.
  by rewrite (change_fired e sg sg'), He, Ha.
Qed.

(** What has run stays run. *)
Lemma ran_stable (e : option Cause) (w w' : World) (l : Listener) :
  evolves w w' → changes e w w' → ran e w l → ran e w' l.
Proof.
  intros Hev Hch. unfold ran.
  destruct (fn_code (l_fn l)) as [c p|p h|id|pr]; [|done|..].
  - by apply changes_status_fired.
  - intros Hr t' Ht'.
    destruct (Forall2_lookup_r _ _ _ _ _ (ev_timers _ _ Hev) Ht')
      as (t & Ht & _ & _ & Harm).
    specialize (Hr t Ht). destruct (t_armed t'); [|done].
    by rewrite Harm in Hr.
  - intros Hr st' Hst'.
    destruct (Forall2_lookup_r _ _ _ _ _ (ev_promises _ _ Hev) Hst')
      as (st & Hst & Hle).
    specialize (Hr st Hst). by rewrite (Hle Hr).
Qed.

Lemma evolves_is_aborted (w w' : World) (q : nat) :
  evolves w w' → is_aborted q w = true → is_aborted q w' = true.
Proof.
  intros Hev. unfold is_aborted.
  destruct (signals w !! q) as [sg|] eqn:Hq; [|done].
  destruct (Forall2_lookup_l _ _ _ _ _ (ev_signals _ _ Hev) Hq)
    as (sg' & -> & _ & Ha). done.
Qed.

Lemma fired_listener_later (w w1 w2 : World) (q : nat) (l : Listener) :
  evolves w1 w2 → fired_listener w w1 q l → fired_listener w w2 q l.
Proof.
  intros Hev (sg & Hq & Ha & Hl & Hab). exists sg. split_and!; try done.
  by eapply evolves_is_aborted.
Qed.

Lemma ran_code_later (w w1 w2 : World) (code : Code) :
  evolves w1 w2 → ran_code w w1 code → ran_code w w2 code.
Proof.
  intros Hev (q & l & Hf & Hc). exists q, l. split; [|done].
  by eapply fired_listener_later.
Qed.

Lemma timers_take_once (s : nat) (l : Listener) (sg : CancelSignal)
    (w : World) :
  timers (take_once s l sg w) = timers w.
Proof. unfold take_once. by destruct (l_once l). Qed.

Lemma take_once_self (s : nat) (l : Listener) (sg : CancelSignal) (w : World) :
  signals w !! s = Some sg →
  ∃ sgt, signals (take_once s l sg w) !! s = Some sgt
         ∧ _error sgt = _error sg ∧ aborted sgt = aborted sg
         ∧ ∀ l', l' ∈ listeners sgt →
             l' ∈ listeners sg ∧ (l_once l = true → l' ≠ l).
Proof.
  intros Hs. unfold take_once. destruct (l_once l).
  - eexists. split.
    { cbn. apply list_lookup_insert_eq. by eapply lookup_lt_Some. }
    split_and!; [done..|]. cbn.
    intros l' [Hne Hin]%list_elem_of_filter. split; [done|].
    intros _ ->. by apply Hne.
  - exists sg. split_and!; [done..|]. intros l' Hl'. by split.
Qed.

Lemma is_aborted_take_once (s q : nat) (l : Listener) (sg : CancelSignal)
    (w : World) :
  signals w !! s = Some sg →
  is_aborted q (take_once s l sg w) = is_aborted q w.
Proof.
  intros Hs. pose proof (status_take_once s q l sg w Hs) as Hst.
  unfold status, is_aborted in *.
  destruct (signals (take_once s l sg w) !! q), (signals w !! q);
    by simplify_eq/=.
Qed.

Lemma firing_init (e : option Cause) (s : nat) (sg : CancelSignal)
    (w : World) :
  signals w !! s = Some sg →
  firing e s sg w (listeners sg)
    (put_signal s (mkSignal e true (listeners sg)) w).
Proof.
  intros Hs. pose proof (lookup_lt_Some _ _ _ Hs) as Hlt. split.
  - done.
  - eexists. split; [cbn; by apply list_lookup_insert_eq|].
    split_and!; [done..|]. cbn. intros l Hl. split; [done|by left].
  - intros j sg0 Hj Hsg0. exists sg0. split; [|apply change_refl].
    cbn. by rewrite list_lookup_insert_ne.
  - intros l Hl. by left.
  - intros q l Hq (sgq & Hsgq & Ha & _ & Hab).
    unfold is_aborted in Hab. cbn in Hab.
    rewrite list_lookup_insert_ne, Hsgq in Hab by done. congruence.
  - intros i t Ht. by left.
  - intros p st Hp. by left.
Qed.

Lemma firing_done (e : option Cause) (s : nat) (sg : CancelSignal)
    (w w' : World) :
  signals w !! s = Some sg → aborted sg = false → evolves w w' →
  firing e s sg w [] w' → fires e w w'.
Proof.
  intros Hs Ha Hev [Hnow Hself Hsig Hrs Hr Ht Hp]. split; try done.
  - intros j sg0 Hj. destruct (decide (j = s)) as [->|Hne]; [|by apply Hsig].
    simplify_eq. destruct Hself as (sgc & Hsgc & He & Hab & Hl).
    exists sgc. split; [done|]. right. right. split_and!; [done..|].
    intros l Hin. destruct (Hl l Hin) as [? [Hnil|?]]; [|done].
    by apply elem_of_nil in Hnil.
  - intros q l Hf. destruct (decide (q = s)) as [->|Hne]; [|by apply (Hr q)].
    destruct Hf as (sg0 & Hsg0 & _ & Hl & _). simplify_eq.
    destruct (Hrs l Hl) as [Hnil|?]; [|done]. by apply elem_of_nil in Hnil.
Qed.

(** Firing a signal that has fired before. *)
Lemma fires_again (e : option Cause) (s : nat) (sg : CancelSignal)
    (w : World) :
  signals w !! s = Some sg → aborted sg = true →
  fires e w (put_signal s (mkSignal e true (listeners sg)) w).
Proof.
  intros Hs Ha. pose proof (lookup_lt_Some _ _ _ Hs) as Hlt. split.
  - eapply evolves_put_signal; [done|]. by split.
  - done.
  - intros j sg0 Hj. destruct (decide (j = s)) as [->|Hne].
    + simplify_eq. eexists. split; [cbn; by apply list_lookup_insert_eq|].
      right. by left.
    + exists sg0. split; [|apply change_refl].
      cbn. by rewrite list_lookup_insert_ne.
  - intros q l (sgq & Hsgq & Haq & _ & Hab).
    unfold is_aborted in Hab. cbn in Hab.
    destruct (decide (q = s)) as [->|Hne]; [congruence|].
    rewrite list_lookup_insert_ne, Hsgq in Hab by done. congruence.
  - intros i t Ht. by left.
  - intros p st Hp. by left.
Qed.

(** What has run stays run. *)
Lemma ran_later (e : option Cause) (w w' : World) (l : Listener) :
  evolves w w' →
  (∀ c, status w c = Some (e, true) → status w' c = Some (e, true)) →
  ran e w l → ran e w' l.
Proof.
  intros Hev Hst. unfold ran.
  destruct (fn_code (l_fn l)) as [c p|p h|id|pr]; [|done|..].
  - apply Hst.
  - intros Hr t' Ht'.
    destruct (Forall2_lookup_r _ _ _ _ _ (ev_timers _ _ Hev) Ht')
      as (t & Ht & _ & _ & Harm).
    specialize (Hr t Ht). destruct (t_armed t'); [|done].
    by rewrite Harm in Hr.
  - intros Hr st' Hst'.
    destruct (Forall2_lookup_r _ _ _ _ _ (ev_promises _ _ Hev) Hst')
      as (st & Hst0 & Hle).
    specialize (Hr st Hst0). by rewrite (Hle Hr).
Qed.

Lemma firing_next (e : option Cause) (s : nat) (sg sgc : CancelSignal)
    (w wc wc2 : World) (l : Listener) (rest : list Listener) :
  signals w !! s = Some sg → aborted sg = false → l ∈ listeners sg →
  evolves w wc → signals wc !! s = Some sgc →
  firing e s sg w (l :: rest) wc →
  listener_step e l (take_once s l sgc wc) wc2 →
  firing e s sg w rest wc2.
Proof.
  intros Hs Ha Hl Hev Hsgc [Hnow Hself Hsig Hrs Hr Ht Hp]
    [Hev2 Hnow2 Hch2 Hrl Hr2 Ht2 Hp2].
  set (wt := take_once s l sgc wc) in *.
  assert (evolves wc wt) as Hevt by by apply evolves_take_once.
  assert (evolves wc wc2) as Hevc2 by by etrans.
  assert (∀ j, j ≠ s → signals wt !! j = signals wc !! j) as Hne
    by (intros j Hj; by apply signals_take_once_ne).
  destruct Hself as (sgc' & Hsgc' & He & Hab & Hlc). simplify_eq.
  destruct (take_once_self s l sgc wc Hsgc) as (sgt & Hsgt & Het & Hat & Hlt).
  fold wt in Hsgt.
  assert (signals wc2 !! s = Some sgt) as Hsg2.
  { destruct (Hch2 s sgt Hsgt) as (sg2 & Hsg2 & Hc2).
    apply change_fired in Hc2; congruence. }
  assert (∀ c, status wc c = Some (_error sgc, true) →
               status wc2 c = Some (_error sgc, true)) as Hkeep.
  { intros c Hc. apply (changes_status_fired _ wt); [done|].
    unfold wt. by rewrite status_take_once. }
  assert (∀ q l', fired_listener wt wc2 q l' → fired_listener w wc2 q l')
    as Hlift.
  { intros q l' (sgq & Hq & Haq & Hin & Habq).
    assert (q ≠ s) as Hqs by (intros ->; simplify_eq; congruence).
    rewrite Hne in Hq by done.
    destruct (Forall2_lookup_r _ _ _ _ _ (ev_signals _ _ Hev) Hq)
      as (sg0 & Hsg0 & _).
    destruct (Hsig q sg0 Hqs Hsg0) as (sg' & Hsg' & Hc).
    rewrite Hq in Hsg'. injection Hsg' as <-.
    apply change_pending in Hc; [|done]. rewrite Hc in *.
    by exists sg0. }
  assert (fired_listener w wc2 s l) as Hfl.
  { exists sg. split_and!; try done. unfold is_aborted. rewrite Hsg2.
    congruence. }
  split.
  - rewrite Hnow2, <-Hnow. unfold wt, take_once. by destruct (l_once l).
  - exists sgt. split_and!; [done|congruence|congruence|].
    intros l' Hl'. destruct (Hlt l' Hl') as [Hin Hnot].
    destruct (Hlc l' Hin) as [Hin0 [Htodo|Honce]]; (split; [done|]);
      [|by right].
    apply elem_of_cons in Htodo as [->|Hrest]; [|by left].
    right. destruct (l_once l); [|done]. by destruct Hnot.
  - intros j sg0 Hj Hsg0. destruct (Hsig j sg0 Hj Hsg0) as (sg1 & Hsg1 & Hc1).
    destruct (Hch2 j sg1) as (sg2 & Hsg2' & Hc2); [by rewrite Hne|].
    exists sg2. split; [done|]. by eapply change_trans.
  - intros l' Hl'. destruct (Hrs l' Hl') as [[->|Hrest]%elem_of_cons|Hran].
    + by right.
    + by left.
    + right. by eapply ran_later.
  - intros q l' Hq (sgq & Hsgq & Haq & Hin & Habq).
    destruct (is_aborted q wc) eqn:Habc.
    + eapply ran_later; [done..|]. apply (Hr q); [done|]. by exists sgq.
    + apply (Hr2 q). exists sgq. split_and!; try done.
      rewrite Hne by done.
      destruct (Hsig q sgq Hq Hsgq) as (sg1 & Hsg1 & Hc1).
      unfold is_aborted in Habc. rewrite Hsg1 in Habc.
      apply change_pending in Hc1; [|done]. by subst.
  - intros i t Hi. destruct (Ht i t Hi) as [Hsame|(Harm & Hdis & Hcause)].
    + destruct (Ht2 i t) as [Hsame2|(Harm2 & Hdis2 & Hcause2)].
      { unfold wt. by rewrite timers_take_once. }
      { by left. }
      right. split_and!; [done..|].
      destruct Hcause2 as [Hcode|(q & l' & Hf & Hcode)].
      * by exists s, l.
      * exists q, l'. split; [by apply Hlift|done].
    + destruct (Ht2 i (mkTimer (t_due t) (t_signal t) false))
        as [Hsame2|(Harm2 & _)]; [|..|done].
      { unfold wt. by rewrite timers_take_once. }
      right. split_and!; [done..|]. by eapply ran_code_later.
  - intros p st Hpst.
    destruct (Hp p st Hpst) as [Hsame|(Hpend & Hrej & Hcause)].
    + destruct (Hp2 p st) as [Hsame2|(Hpend2 & Hrej2 & Hcause2)].
      { unfold wt. by rewrite promises_take_once. }
      { by left. }
      right. split_and!; [done..|].
      destruct Hcause2 as [Hcode|(q & l' & Hf & Hcode)].
      * by exists s, l.
      * exists q, l'. split; [by apply Hlift|done].
    + destruct (Hp2 p (Rejected (RCause (_error sgc))))
        as [Hsame2|(Hpend2 & _)]; [|..|done].
      { unfold wt. by rewrite promises_take_once. }
      right. split_and!; [done..|]. by eapply ran_code_later.
Qed.

Lemma timer_step_mono (w' : World) (i : nat) (t : Timer) (P Q : Prop) :
  (P → Q) → timer_step w' i t P → timer_step w' i t Q.
Proof. intros HPQ [?|(? & ? & ?)]; [by left|right; auto]. Qed.

Lemma promise_step_mono (e : option Cause) (w' : World) (p : nat)
    (st : PromiseState) (P Q : Prop) :
  (P → Q) → promise_step e w' p st P → promise_step e w' p st Q.
Proof. intros HPQ [?|(? & ? & ?)]; [by left|right; auto]. Qed.

(** Nothing fires when the signals stay as they are. *)
Lemma fired_listener_same (w w' : World) (q : nat) (l : Listener) :
  signals w' = signals w → ¬ fired_listener w w' q l.
Proof.
  intros Heq (sg & Hq & Ha & _ & Hab). unfold is_aborted in Hab.
  rewrite Heq, Hq in Hab. congruence.
Qed.

Lemma changes_same (e : option Cause) (w w' : World) :
  signals w' = signals w → changes e w w'.
Proof. intros Heq. unfold changes. rewrite Heq. apply changes_refl. Qed.

Lemma timers_settle (p : nat) (st : PromiseState) (w w' : World) :
  settle p st w = Some w' → timers w' = timers w.
Proof.
  unfold settle. intros H.
  destruct (promises w !! p) as [[]|]; by simplify_eq/=.
Qed.

(** The unlisten closure, when it removes nothing. *)
Lemma listener_step_unlisten (e : option Cause) (l : Listener) (w : World)
    (p h : nat) :
  fn_code (l_fn l) = CUnlisten p h → listener_step e l w w.
Proof.
  intros Hcode. split.
  - done.
  - done.
  - apply changes_refl.
  - unfold ran. by rewrite Hcode.
  - intros q l' Hf. by destruct (fired_listener_same w w q l').
  - intros i t Ht. by left.
  - intros p' st Hp. by left.
Qed.

Lemma listener_step_clearTimeout (e : option Cause) (l : Listener)
    (w : World) (id : nat) :
  fn_code (l_fn l) = CClearTimeout id →
  listener_step e l w (clearTimeout id w).
Proof.
  intros Hcode. split.
  - apply evolves_clearTimeout.
  - unfold clearTimeout. by destruct (timers w !! id).
  - apply changes_same, signals_clearTimeout.
  - unfold ran. rewrite Hcode. intros t. unfold clearTimeout.
    destruct (timers w !! id) as [t0|] eqn:Ht0.
    + cbn. rewrite list_lookup_insert_eq by by eapply lookup_lt_Some.
      by intros [= <-].
    + by rewrite Ht0.
  - intros q l' Hf.
    by destruct (fired_listener_same w (clearTimeout id w) q l'
                   (signals_clearTimeout id w)).
  - intros i t Ht. unfold timer_step, clearTimeout.
    destruct (decide (i = id)) as [->|Hne].
    + rewrite Ht. cbn.
      rewrite list_lookup_insert_eq by by eapply lookup_lt_Some.
      destruct (t_armed t) eqn:Harm.
      * right. split_and!; [done..|by left].
      * left. destruct t; cbn in *. by subst.
    + left. destruct (timers w !! id); [|done].
      cbn. by rewrite list_lookup_insert_ne.
  - intros p st Hp. left. unfold clearTimeout.
    by destruct (timers w !! id).
Qed.

Lemma listener_step_reject (e : option Cause) (l : Listener) (w w' : World)
    (p : nat) :
  fn_code (l_fn l) = CReject p →
  settle p (Rejected (RCause e)) w = Some w' →
  listener_step e l w w'.
Proof.
  intros Hcode Hsettle.
  pose proof (signals_settle _ _ _ _ Hsettle) as Hsig.
  pose proof (timers_settle _ _ _ _ Hsettle) as Htm.
  assert (∀ q st, promises w !! q = Some st →
            promises w' !! q = Some st
            ∨ (q = p ∧ st = Pending
               ∧ promises w' !! q = Some (Rejected (RCause e)))) as Hpr.
  { intros q st Hq. unfold settle in Hsettle.
    destruct (promises w !! p) as [cur|] eqn:Hp; simplify_eq/=.
    destruct (decide (q = p)) as [->|Hne].
    - rewrite Hp in Hq. injection Hq as <-. destruct cur; [|by left..].
      right. split_and!; [done..|]. cbn.
      apply list_lookup_insert_eq. by eapply lookup_lt_Some.
    - left. destruct cur; [|done..]. cbn. by rewrite list_lookup_insert_ne. }
  split.
  - by eapply evolves_settle.
  - unfold settle in Hsettle.
    destruct (promises w !! p) as [[]|]; by simplify_eq/=.
  - by apply changes_same.
  - unfold ran. rewrite Hcode. intros st Hst.
    destruct (Forall2_lookup_r _ _ _ _ _
                (ev_promises _ _ (evolves_settle _ _ _ _ Hsettle)) Hst)
      as (st0 & Hst0 & _).
    destruct (Hpr p st0 Hst0) as [Hsame|(_ & _ & Hrej)].
    + rewrite Hst in Hsame. injection Hsame as ->.
      unfold settle in Hsettle. rewrite Hst0 in Hsettle. cbn in Hsettle.
      destruct st0; [|done..]. injection Hsettle as <-.
      cbn in Hst. rewrite list_lookup_insert_eq in Hst
        by by eapply lookup_lt_Some.
      done.
    + rewrite Hst in Hrej. by injection Hrej as ->.
  - intros q l' Hf. by destruct (fired_listener_same w w' q l').
  - intros i t Ht. left. by rewrite Htm.
  - intros q st Hq. destruct (Hpr q st Hq) as [?|(-> & -> & ?)]; [by left|].
    right. split_and!; [done..|by left].
Qed.

(** The handler of a child, when the firing of the child is known. *)
Lemma listener_step_propagate (e : option Cause) (l : Listener)
    (w w' : World) (c p : nat) :
  fn_code (l_fn l) = CPropagate c p →
  fires e w w' → status w' c = Some (e, true) →
  listener_step e l w w'.
Proof.
  intros Hcode [Hev Hnow Hch Hr Ht Hp] Hst. split; try done.
  - unfold ran. by rewrite Hcode.
  - intros i t Hi. eapply timer_step_mono; [|by apply Ht]. by right.
  - intros q st Hq. eapply promise_step_mono; [|by apply Hp]. by right.
Qed.

(** A firing in a well-formed store runs to its end and is a firing in the
    sense above. *)
Lemma cancel_signal_fires (fuel s : nat) (e : option Cause) (w : World) :
  WF w → s < length (signals w) → length (signals w) - s ≤ fuel →
  ∃ w', cancel_signal (S fuel) s e w = Some w' ∧ fires e w w'
        ∧ status w' s = Some (e, true).
Proof.
  revert s w. induction fuel as [fuel IH] using lt_wf_ind.
  intros s w Hwf Hs Hfuel. cbn [cancel_signal].
  destruct (lookup_lt_is_Some_2 _ _ Hs) as [sg Hsg]. rewrite Hsg.
  cbn [mbind option_bind].
  set (w1 := put_signal s (mkSignal e true (listeners sg)) w).
  assert (status w1 s = Some (e, true)) as Hst1.
  { unfold status. cbn. by rewrite list_lookup_insert_eq. }
  destruct (aborted sg) eqn:Ha.
  { exists w1. split; [done|]. split; [by apply fires_again|done]. }
  assert (evolves w w1) as Hev1.
  { eapply evolves_put_signal; [done|]. by split. }
  destruct (dispatch_hoare (cancel_signal fuel) (length (signals w)) s)
    with (I := firing e s sg w) (w0 := w) (ls := listeners sg) (w := w1)
    as (w' & Hw' & Hev' & Hfiring); try done.
  - intros c e' w2 Hwf2 Hlen2 Hc.
    destruct fuel as [|fuel]; [lia|].
    apply cancel_signal_ok; [done|lia|lia].
  - intros l todo wc sgc wc2 Hevc Hsgc Hl HI Hcall Hevc2 Hlow Hsame.
    destruct Hl as (sg' & Hsg' & Hin). simplify_eq.
    eapply firing_next; [done..|].
    destruct (g_self _ _ _ _ _ _ HI) as (sgc' & Hsgc' & He & Hab & _).
    simplify_eq.
    set (wt := take_once s l sgc wc) in *.
    assert (evolves w wt) as Hevt.
    { etrans; [done|]. by apply evolves_take_once. }
    pose proof (wf_code _ Hwf s l ltac:(by exists sg)) as Hok.
    unfold call in Hcall.
    destruct (fn_code (l_fn l)) as [c p|p h|id|pr] eqn:Hcode; cbn in Hok.
    + destruct Hok as [-> Hc].
      destruct (take_once_self s l sgc wc Hsgc) as (sgt & Hsgt & Het & _).
      fold wt in Hsgt. rewrite Hsgt in Hcall. cbn in Hcall.
      rewrite Het in Hcall.
      destruct fuel as [|fuel]; [lia|].
      destruct (IH fuel ltac:(lia) c wt) as (w'' & Hw'' & Hf'' & Hst'').
      * by eapply WF_evolves.
      * rewrite (evolves_length_signals _ _ Hevt). lia.
      * rewrite (evolves_length_signals _ _ Hevt). lia.
      * rewrite Hw'' in Hcall. injection Hcall as <-.
        by eapply listener_step_propagate.
    + destruct Hok as (Hp & _ & Hfresh).
      destruct (lookup_lt_is_Some_2 (signals wt) p) as [psg Hpsg].
      { by rewrite (evolves_length_signals w wt). }
      rewrite (removeEventListener_fresh p h psg) in Hcall; [|done|].
      2:{ intros l' Hl'. eapply Hfresh, evolves_listener_at; [done|].
          by exists psg. }
      injection Hcall as <-. by eapply listener_step_unlisten.
    + injection Hcall as <-. by apply listener_step_clearTimeout.
    + by eapply listener_step_reject.
  - intros l Hl. by exists sg.
  - by eapply wf_nodup.
  - intros sg1 l Hsg1 Hl. cbn in Hsg1.
    rewrite list_lookup_insert_eq in Hsg1 by done. simplify_eq. cbn.
    by apply list_elem_of_fmap_2.
  - by apply firing_init.
  - exists w'. split; [done|]. split.
    + eapply firing_done; [done..|by etrans|done].
    + destruct (g_self _ _ _ _ _ _ Hfiring) as (sgc & Hsgc & He & Hab & _).
      unfold status. rewrite Hsgc. cbn. by rewrite He, Hab.
Qed.

Lemma signal_cancel_fires (s : nat) (e : option Cause) (w : World) :
  WF w → s < length (signals w) →
  ∃ w', signal_cancel s e w = Some w' ∧ fires e w w'
        ∧ status w' s = Some (e, true).
Proof. intros Hwf Hs. apply cancel_signal_fires; [done..|lia]. Qed.

(** ** One firing, one cause *)

Lemma signal_cancel_Some (s : nat) (e : option Cause) (w w' : World) :
  signal_cancel s e w = Some w' → s < length (signals w).
Proof.
  unfold signal_cancel, enough_fuel. cbn [cancel_signal]. intros H.
  destruct (signals w !! s) as [sg|] eqn:Hs; [|done].
  by eapply lookup_lt_Some.
Qed.

(** The firing of a timer, as far as the signals go. *)
Lemma fire_timer_changes (id : nat) (w w' : World) :
  WF w → fire_timer id w = Some w' → changes (Some DeadlineExceeded) w w'.
Proof.
  intros Hwf. unfold fire_timer. intros H.
  destruct (timers w !! id) as [t|] eqn:Ht; simplify_eq/=.
  destruct (t_armed t); simplify_eq/=; [|apply changes_refl].
  match type of H with signal_cancel _ _ ?x = _ => set (wa := x) in * end.
  assert (evolves w wa) as Heva.
  { split; cbn; try done.
    eapply Forall2_insert_same; [apply _|done|]. by split_and!. }
  destruct (signal_cancel_fires (t_signal t) (Some DeadlineExceeded) wa)
    as (w'' & Hw'' & Hf & _); [by eapply WF_evolves| |].
  { by eapply signal_cancel_Some. }
  rewrite Hw'' in H. injection H as <-.
  apply (f_signals _ _ _ Hf).
Qed.

Lemma run_timers_changes (ids : list nat) (w w' : World) :
  WF w → run_timers ids w = Some w' → changes (Some DeadlineExceeded) w w'.
Proof.
  revert w. induction ids as [|id ids IH]; intros w Hwf H; simplify_eq/=.
  { apply changes_refl. }
  destruct (fire_timer id w) as [w1|] eqn:Hw1; simplify_eq/=.
  eapply changes_trans; [by eapply fire_timer_changes|].
  apply IH; [|done]. eapply WF_evolves; [done|]. by eapply fire_timer_evolves.
Qed.

Lemma delay_changes (ms : Z) (w w' : World) :
  WF w → delay ms w = Some w' → changes (Some DeadlineExceeded) w w'.
Proof.
  intros Hwf. unfold delay. intros H.
  destruct (run_timers _ w) as [w1|] eqn:Hw1; simplify_eq/=.
  change (changes (Some DeadlineExceeded) w w1).
  by eapply run_timers_changes.
Qed.

(** What the contexts show after signals have changed with cause [e]. *)
Lemma changes_shown (e : option Cause) (w w' : World) (ctx : Context)
    (s : nat) :
  changes e w w' → length (signals w') = length (signals w) →
  done ctx = Some s →
  (error ctx w' = error ctx w ∧ is_aborted s w' = is_aborted s w)
  ∨ (error ctx w' = e ∧ is_aborted s w' = true).
Proof.
  intros Hch Hlen Hd. rewrite !(error_done ctx s) by done.
  unfold is_aborted.
  destruct (signals w !! s) as [sg|] eqn:Hs.
  - destruct (Hch s sg Hs) as (sg' & -> & Hc). cbn.
    destruct (change_status _ _ _ Hc) as [[= -> ->]|[= -> ->]];
      [by left|by right].
  - left. apply lookup_ge_None in Hs. rewrite <-Hlen in Hs.
    apply lookup_ge_None in Hs. by rewrite Hs.
Qed.

(** X3.  One firing writes one cause.  After [cancel()] on any node, every
    context shows what it showed before, or is aborted with the cause
    [Canceled]; after a wait, every context shows what it showed before,
    or is aborted with the cause [DeadlineExceeded].  In particular no
    firing clears an error or an aborted flag. *)
Theorem firing_writes_one_cause (w : World) :
  wf_world w = true →
  (∀ node w', cancel node w = Some w' →
     ∀ ctx s, done ctx = Some s →
       (error ctx w' = error ctx w ∧ is_aborted s w' = is_aborted s w)
       ∨ (error ctx w' = Some Canceled ∧ is_aborted s w' = true))
  ∧ (∀ ms w', delay ms w = Some w' →
       ∀ ctx s, done ctx = Some s →
         (error ctx w' = error ctx w ∧ is_aborted s w' = is_aborted s w)
         ∨ (error ctx w' = Some DeadlineExceeded ∧ is_aborted s w' = true)).
Proof.
  intros Hwf%wf_world_spec. split.
  - intros node w' Hc ctx s Hd.
    assert (∃ j, signal_cancel j (Some Canceled) w = Some w') as [j Hj].
    { destruct node as [| |p j|p j]; try done; by exists j. }
    destruct (signal_cancel_fires j (Some Canceled) w Hwf)
      as (w'' & Hw'' & Hf & _); [by eapply signal_cancel_Some|].
    rewrite Hw'' in Hj. injection Hj as <-.
    eapply changes_shown; [apply Hf| |done].
    apply evolves_length_signals, Hf.
  - intros ms w' Hdel ctx s Hd.
    eapply changes_shown; [by eapply delay_changes| |done].
    destruct (delay_ok ms w Hwf) as (w'' & Hw'' & Hev).
    rewrite Hw'' in Hdel. injection Hdel as <-.
    by apply evolves_length_signals.
Qed.

Lemma firing_writes_one_cause_witness :
  wf_world family_world = true
  ∧ (∀ node w', cancel node family_world = Some w' →
       ∀ ctx s, done ctx = Some s →
         (error ctx w' = error ctx family_world
          ∧ is_aborted s w' = is_aborted s family_world)
         ∨ (error ctx w' = Some Canceled ∧ is_aborted s w' = true)).
Proof.
  split; [reflexivity|].
  apply (firing_writes_one_cause family_world). reflexivity.
Defined.

(** ** The stores the operations reach *)

(** Every listener is registered with [once]. *)
Definition once_only (w : World) : Prop :=
  ∀ q l, listener_at w q l → l_once l = true.

(** A signal is aborted exactly when it records a cause. *)
Definition consistent (w : World) : Prop :=
  ∀ j sg, signals w !! j = Some sg → aborted sg = true ↔ is_Some (_error sg).

(** A signal that has fired has no listener left. *)
Definition drained (w : World) : Prop :=
  ∀ j sg, signals w !! j = Some sg → aborted sg = true → listeners sg = [].

(** An armed timer is that of a signal that has not fired, on which the
    closure that clears the timer is registered. *)
Definition guarded (w : World) : Prop :=
  ∀ i t, timers w !! i = Some t → t_armed t = true →
    ∃ sg l, signals w !! t_signal t = Some sg ∧ aborted sg = false
            ∧ l ∈ listeners sg ∧ fn_code (l_fn l) = CClearTimeout i.

(** A closure that clears a timer is registered on the signal the timer
    fires. *)
Definition owned (w : World) : Prop :=
  ∀ q l i, listener_at w q l → fn_code (l_fn l) = CClearTimeout i →
    ∃ t, timers w !! i = Some t ∧ t_signal t = q.

Record Sound (w : World) : Prop := mkSound {
  s_wf : WF w;
  s_once : once_only w;
  s_consistent : consistent w;
  s_drained : drained w;
  s_guarded : guarded w;
  s_owned : owned w
}.

Lemma Sound_empty : Sound empty_world.
Proof.
  split; [apply WF_empty|..].
  - intros q l (sg & Hq & _). done.
  - intros j sg Hj. done.
  - intros j sg Hj. done.
  - intros i t Hi. done.
  - intros q l i (sg & Hq & _). done.
Qed.

Lemma no_elements {A} (l : list A) : (∀ x, x ∉ l) → l = [].
Proof. destruct l as [|x l]; [done|]. intros H. destruct (H x). left. Qed.

(** A firing keeps the store sound. *)
Lemma Sound_fires (e : option Cause) (w w' : World) :
  Sound w → is_Some e → fires e w w' → Sound w'.
Proof.
  intros [Hwf Honce Hcons Hdr Hg Hown] He [Hev Hnow Hch Hran Htm Hpr].
  split.
  - by eapply WF_evolves.
  - intros q l Hl. eapply Honce. by eapply evolves_listener_at.
  - intros j sg' Hj.
    destruct (evolves_signal _ _ _ _ Hev Hj) as (sg & Hsg & _).
    destruct (Hch j sg Hsg) as (sg2 & Hsg2 & Hc). simplify_eq.
    destruct Hc as [->|[[_ ->]|(_ & -> & -> & _)]]; [by apply (Hcons j)|done..].
  - intros j sg' Hj Hab.
    destruct (evolves_signal _ _ _ _ Hev Hj) as (sg & Hsg & _).
    destruct (Hch j sg Hsg) as (sg2 & Hsg2 & Hc). simplify_eq.
    destruct Hc as [->|[[Ha ->]|(_ & _ & _ & Hl)]].
    + by apply (Hdr j).
    + cbn. by apply (Hdr j).
    + apply no_elements. intros l Hin. destruct (Hl l Hin) as [Hin0 Ho].
      rewrite (Honce j l) in Ho; [done|]. by exists sg.
  - intros i t' Hi Harm.
    destruct (Forall2_lookup_r _ _ _ _ _ (ev_timers _ _ Hev) Hi)
      as (t & Ht & _ & Hsig & Ha).
    specialize (Ha Harm).
    destruct (Hg i t Ht Ha) as (sg & l & Hsg & Hab & Hl & Hcode).
    destruct (Hch _ sg Hsg) as (sg' & Hsg' & Hc).
    rewrite Hsig. exists sg', l.
    destruct (aborted sg') eqn:Hab'.
    + assert (ran e w' l) as Hr.
      { apply (Hran (t_signal t)). exists sg. split_and!; try done.
        unfold is_aborted. by rewrite Hsg'. }
      unfold ran in Hr. rewrite Hcode in Hr.
      specialize (Hr t' Hi). congruence.
    + apply change_pending in Hc; [|done]. by subst.
  - intros q l i Hl Hcode.
    destruct (Hown q l i) as (t & Ht & Hsig);
      [by eapply evolves_listener_at|done|].
    destruct (Forall2_lookup_l _ _ _ _ _ (ev_timers _ _ Hev) Ht)
      as (t' & Ht' & _ & Hsig' & _).
    exists t'. split; [done|congruence].
Qed.

(** What the contexts cannot see does not matter. *)
Lemma Sound_ext (w w' : World) :
  signals w' = signals w → timers w' = timers w →
  length (promises w) ≤ length (promises w') → next_fn w ≤ next_fn w' →
  Sound w → Sound w'.
Proof.
  intros Hs Ht Hp Hn [Hwf Honce Hcons Hdr Hg Hown].
  assert (∀ q l, listener_at w' q l ↔ listener_at w q l) as Hl.
  { intros q l. unfold listener_at. by rewrite Hs. }
  split.
  - apply (WF_mono w); try done.
    + intros q l. by rewrite Hl.
    + rewrite Hs. by eapply wf_nodup.
    + by rewrite Hs.
    + rewrite Hs, Ht. by eapply wf_timers.
  - intros q l Hql%Hl. by eapply Honce.
  - unfold consistent. by rewrite Hs.
  - unfold drained. by rewrite Hs.
  - unfold guarded. by rewrite Hs, Ht.
  - intros q l i Hql%Hl. rewrite Ht. by apply Hown.
Qed.

Lemma Sound_bump_fn (w : World) : Sound w → Sound (bump_fn w).
Proof. apply Sound_ext; cbn; (done || lia). Qed.

Lemma Sound_set_now (x : Z) (w : World) : Sound w → Sound (set_now x w).
Proof. apply Sound_ext; cbn; (done || lia). Qed.

Lemma Sound_alloc_promise (st : PromiseState) (w : World) :
  Sound w → Sound (set_promises (promises w ++ [st]) w).
Proof. apply Sound_ext; cbn; try done. rewrite length_app. lia. Qed.

Lemma Sound_settle (p : nat) (st : PromiseState) (w w' : World) :
  settle p st w = Some w' → Sound w → Sound w'.
Proof.
  intros H. apply Sound_ext.
  - by eapply signals_settle.
  - by eapply timers_settle.
  - by rewrite (evolves_length_promises w w') by by eapply evolves_settle.
  - by rewrite (ev_next_fn w w') by by eapply evolves_settle.
Qed.

(** A new signal. *)
Lemma Sound_alloc (w : World) :
  Sound w → Sound (set_signals (signals w ++ [new_CancelSignal]) w).
Proof.
  intros [Hwf Honce Hcons Hdr Hg Hown].
  assert (∀ j sg, (signals w ++ [new_CancelSignal]) !! j = Some sg →
            signals w !! j = Some sg ∨ sg = new_CancelSignal) as Hlook.
  { intros j sg [?|[_ Hj]]%lookup_app_Some; [by left|right].
    by apply list_lookup_singleton_Some in Hj as [_ <-]. }
  split.
  - by apply WF_alloc.
  - intros q l Hl%listener_at_alloc_old. by eapply Honce.
  - intros j sg [Hj| ->]%Hlook; [by apply (Hcons j)|].
    split; [done|]. intros [? ?]. done.
  - intros j sg [Hj| ->]%Hlook; [by apply (Hdr j)|done].
  - intros i t Hi Harm. destruct (Hg i t Hi Harm) as (sg & l & ? & ? & ? & ?).
    exists sg, l. split_and!; try done. cbn. by apply lookup_app_l_Some.
  - intros q l i Hl%listener_at_alloc_old. by apply Hown.
Qed.

(** A closure is registered on a signal that has not fired. *)
Lemma Sound_register (s : nat) (sg : CancelSignal) (fn : Closure)
    (w : World) :
  Sound w → signals w !! s = Some sg → aborted sg = false →
  code_ok w s (fn_code fn) →
  (∀ i, fn_code fn = CClearTimeout i →
        ∃ t, timers w !! i = Some t ∧ t_signal t = s) →
  Sound (put_signal s
           (mkSignal (_error sg) false
              (listeners sg ++ [mkListener (next_fn w) fn true]))
           (bump_fn w)).
Proof.
  intros [Hwf Honce Hcons Hdr Hg Hown] Hs Ha Hok Hclear.
  pose proof (lookup_lt_Some _ _ _ Hs) as Hlt.
  set (l := mkListener (next_fn w) fn true).
  set (w' := put_signal s _ _).
  assert (∀ q l', listener_at w' q l' →
            listener_at w q l' ∨ (q = s ∧ l' = l)) as Hl.
  { intros q l' [[-> Hin]|[_ Hold]]%listener_at_put_signal; [|by left|done].
    cbn in Hin. apply elem_of_app in Hin as [Hin|Hin%list_elem_of_singleton].
    - left. by exists sg.
    - by right. }
  assert (∀ j sg', signals w' !! j = Some sg' →
            signals w !! j = Some sg'
            ∨ (j = s ∧ _error sg' = _error sg ∧ aborted sg' = false))
    as Hlook.
  { intros j sg' Hj. cbn in Hj. destruct (decide (j = s)) as [->|Hne].
    - rewrite list_lookup_insert_eq in Hj by done. right. by simplify_eq.
    - rewrite list_lookup_insert_ne in Hj by done. by left. }
  split.
  - unfold w'. rewrite <-Ha. by apply WF_add.
  - intros q l' [Hold|[-> ->]]%Hl; [by eapply Honce|done].
  - intros j sg' [Hj|(-> & He & Hab)]%Hlook; [by apply (Hcons j)|].
    rewrite He, Hab, <-Ha. by apply (Hcons s).
  - intros j sg' [Hj|(-> & He & Hab)]%Hlook; [by apply (Hdr j)|congruence].
  - intros i t Hi Harm. cbn in Hi.
    destruct (Hg i t Hi Harm) as (sg0 & l0 & Hsg0 & Hab0 & Hl0 & Hc0).
    destruct (decide (t_signal t = s)) as [Heq|Hne].
    + rewrite Heq in *. simplify_eq. eexists _, l0. split_and!.
      * cbn. by apply list_lookup_insert_eq.
      * done.
      * cbn. apply elem_of_app. by left.
      * done.
    + exists sg0, l0. split_and!; try done.
      cbn. by rewrite list_lookup_insert_ne.
  - intros q l' i [Hold|[-> ->]]%Hl Hcode; [by apply (Hown q l')|].
    by apply Hclear.
Qed.

(** ** What the operations do to a store *)

(** The effect of a listener that has run, whatever the cause. *)
Definition has_run (w : World) (l : Listener) : Prop :=
  match fn_code (l_fn l) with
  | CPropagate c _ => is_aborted c w = true
  | CUnlisten _ _ => True
  | CClearTimeout id => ∃ t, timers w !! id = Some t ∧ t_armed t = false
  | CReject p => ∃ st, promises w !! p = Some st ∧ st ≠ Pending
  end.

(** The promise is fulfilled or rejected. *)
Definition is_settled (st : PromiseState) : bool :=
  match st with
  | Fulfilled _ | Rejected _ => true
  | Pending | Following _ => false
  end.

(** From [w] to [w'] through operations of the module: a signal that has
    fired stays so, and one that has not fired only gains listeners; the
    listeners of a signal that fires have run; a timer stays as it is or is
    disarmed when its signal fires; a promise that is not pending stays so,
    and a settled promise stays as it is; the clock does not go back. *)
Record moves (w w' : World) : Prop := mkMoves {
  mv_signals : ∀ j sg, signals w !! j = Some sg →
    ∃ sg', signals w' !! j = Some sg'
           ∧ (aborted sg = true → aborted sg' = true)
           ∧ (aborted sg' = false → listeners sg `prefix_of` listeners sg');
  mv_ran : ∀ q l, fired_listener w w' q l → has_run w' l;
  mv_timers : ∀ i t, timers w !! i = Some t →
    timers w' !! i = Some t
    ∨ (t_armed t = true
       ∧ timers w' !! i = Some (mkTimer (t_due t) (t_signal t) false)
       ∧ is_aborted (t_signal t) w' = true);
  mv_promises : ∀ p st, promises w !! p = Some st → st ≠ Pending →
    ∃ st', promises w' !! p = Some st' ∧ st' ≠ Pending
           ∧ (is_settled st = true → st' = st);
  mv_now : (now w ≤ now w')%Z
}.

Lemma promise_kept (w' : World) (p : nat) (st : PromiseState) :
  promises w' !! p = Some st → st ≠ Pending →
  ∃ st', promises w' !! p = Some st' ∧ st' ≠ Pending
         ∧ (is_settled st = true → st' = st).
Proof. intros Hp Hne. by exists st. Qed.

Lemma moves_is_aborted (w w' : World) (q : nat) :
  moves w w' → is_aborted q w = true → is_aborted q w' = true.
Proof.
  intros Hm. unfold is_aborted.
  destruct (signals w !! q) as [sg|] eqn:Hq; [|done].
  destruct (mv_signals _ _ Hm q sg Hq) as (sg' & -> & Ha & _). done.
Qed.

Lemma has_run_later (w w' : World) (l : Listener) :
  moves w w' → has_run w l → has_run w' l.
Proof.
  intros Hm. unfold has_run.
  destruct (fn_code (l_fn l)) as [c p|p h|id|pr]; [|done|..].
  - by apply moves_is_aborted.
  - intros (t & Ht & Harm).
    destruct (mv_timers _ _ Hm id t Ht) as [?|(? & _)]; [|congruence].
    by exists t.
  - intros (st & Hst & Hne).
    destruct (mv_promises _ _ Hm pr st Hst Hne) as (st' & ? & ? & _).
    by exists st'.
Qed.

#[local] Instance moves_po : PreOrder moves.
Proof.
  split.
  - intros w. split.
    + intros j sg Hj. exists sg. by split_and!.
    + intros q l (sg & Hq & Ha & _ & Hab). unfold is_aborted in Hab.
      rewrite Hq in Hab. congruence.
    + intros i t Hi. by left.
    + intros p st Hp Hne. by exists st.
    + done.
  - intros w1 w2 w3 H12 H23. split.
    + intros j sg Hj.
      destruct (mv_signals _ _ H12 j sg Hj) as (sg2 & Hj2 & Ha2 & Hl2).
      destruct (mv_signals _ _ H23 j sg2 Hj2) as (sg3 & Hj3 & Ha3 & Hl3).
      exists sg3. split_and!; [done|auto|].
      intros Hp. etrans; [|by apply Hl3]. apply Hl2.
      destruct (aborted sg2); [|done]. by rewrite Ha3 in Hp.
    + intros q l (sg & Hq & Ha & Hl & Hab).
      destruct (mv_signals _ _ H12 q sg Hq) as (sg2 & Hq2 & _ & Hl2).
      destruct (aborted sg2) eqn:Ha2.
      * eapply has_run_later; [done|]. apply (mv_ran _ _ H12 q).
        exists sg. split_and!; try done. unfold is_aborted. by rewrite Hq2.
      * apply (mv_ran _ _ H23 q). exists sg2. split_and!; try done.
        eapply elem_of_prefix; [done|]. by apply Hl2.
    + intros i t Hi.
      destruct (mv_timers _ _ H12 i t Hi) as [Hsame|(Harm & Hdis & Hab)].
      * destruct (mv_timers _ _ H23 i t Hsame) as [?|(? & ? & ?)];
          [by left|right; done].
      * destruct (mv_timers _ _ H23 i _ Hdis) as [?|(? & _)]; [|done].
        right. split_and!; try done. by eapply moves_is_aborted.
    + intros p st Hp Hne.
      destruct (mv_promises _ _ H12 p st Hp Hne) as (st2 & Hp2 & Hne2 & Hk2).
      destruct (mv_promises _ _ H23 p st2 Hp2 Hne2) as (st3 & Hp3 & Hne3 & Hk3).
      exists st3. split_and!; [done..|].
      intros Hst. rewrite <-(Hk2 Hst). apply Hk3. by rewrite (Hk2 Hst).
    + pose proof (mv_now _ _ H12). pose proof (mv_now _ _ H23). lia.
Qed.

(** What has run with a cause has run. *)
Lemma ran_has_run (e : option Cause) (w0 w : World) (q : nat) (l : Listener) :
  WF w0 → owned w0 → evolves w0 w → listener_at w0 q l →
  ran e w l → has_run w l.
Proof.
  intros Hwf Hown Hev Hl. unfold ran, has_run.
  pose proof (wf_code _ Hwf q l Hl) as Hok.
  destruct (fn_code (l_fn l)) as [c p|p h|id|pr] eqn:Hcode; [|done|..].
  - unfold status, is_aborted. destruct (signals w !! c); [|done].
    by intros [= _ ->].
  - intros Hr. destruct (Hown q l id Hl Hcode) as (t & Ht & _).
    destruct (Forall2_lookup_l _ _ _ _ _ (ev_timers _ _ Hev) Ht)
      as (t' & Ht' & _).
    exists t'. split; [done|]. by apply Hr.
  - intros Hr. cbn in Hok.
    destruct (lookup_lt_is_Some_2 _ _ Hok) as [st Hst].
    destruct (Forall2_lookup_l _ _ _ _ _ (ev_promises _ _ Hev) Hst)
      as (st' & Hst' & _).
    exists st'. split; [done|]. by apply Hr.
Qed.

Lemma changes_moves_signals (e : option Cause) (w w' : World) :
  changes e w w' →
  ∀ j sg, signals w !! j = Some sg →
    ∃ sg', signals w' !! j = Some sg'
           ∧ (aborted sg = true → aborted sg' = true)
           ∧ (aborted sg' = false → listeners sg `prefix_of` listeners sg').
Proof.
  intros Hch j sg Hj. destruct (Hch j sg Hj) as (sg' & Hj' & Hc).
  exists sg'. split_and!; [done|by eapply change_signal_le|].
  intros Hp. apply change_pending in Hc; [|done]. by subst.
Qed.

(** A firing is a move. *)
Lemma moves_fires (e : option Cause) (w w' : World) :
  WF w → owned w → fires e w w' → moves w w'.
Proof.
  intros Hwf Hown [Hev Hnow Hch Hran Htm Hpr]. split.
  - by eapply changes_moves_signals.
  - intros q l Hf. eapply (ran_has_run e w w' q); try done.
    + destruct Hf as (sg & ? & _ & ? & _). by exists sg.
    + by apply (Hran q).
  - intros i t Hi. destruct (Htm i t Hi) as [?|(Harm & Hdis & Hc)]; [by left|].
    right. split_and!; try done.
    destruct Hc as (q & l & Hf & Hcode).
    destruct (Hown q l i) as (t0 & Ht0 & <-); [|done|].
    { destruct Hf as (sg & ? & _ & ? & _). by exists sg. }
    simplify_eq. by destruct Hf as (_ & _ & _ & _ & ?).
  - intros p st Hp Hne. apply promise_kept; [|done].
    destruct (Hpr p st Hp) as [?|(? & _)]; done.
  - lia.
Qed.

(** A move that leaves the signals and the timers alone. *)
Lemma moves_ext (w w' : World) :
  signals w' = signals w → timers w' = timers w →
  (∀ p st, promises w !! p = Some st → st ≠ Pending →
           promises w' !! p = Some st) →
  (now w ≤ now w')%Z → moves w w'.
Proof.
  intros Hs Ht Hp Hn. split; [..|done].
  - intros j sg Hj. exists sg. rewrite Hs. by split_and!.
  - intros q l Hf. by destruct (fired_listener_same w w' q l).
  - intros i t Hi. left. by rewrite Ht.
  - intros p st Hst Hne. apply promise_kept; [by apply Hp|done].
Qed.

Lemma moves_bump_fn (w : World) : moves w (bump_fn w).
Proof. by apply moves_ext. Qed.

Lemma moves_alloc_promise (st : PromiseState) (w : World) :
  moves w (set_promises (promises w ++ [st]) w).
Proof.
  apply moves_ext; try done. intros p st' Hp _. cbn.
  by apply lookup_app_l_Some.
Qed.

Lemma moves_settle (p : nat) (st : PromiseState) (w w' : World) :
  settle p st w = Some w' → moves w w'.
Proof.
  intros H. apply moves_ext.
  - by eapply signals_settle.
  - by eapply timers_settle.
  - intros q st' Hq Hne. by eapply evolves_settled; [eapply evolves_settle|..].
  - unfold settle in H. destruct (promises w !! p) as [[]|]; by simplify_eq/=.
Qed.

Lemma moves_alloc (w : World) :
  moves w (set_signals (signals w ++ [new_CancelSignal]) w).
Proof.
  split; [..|intros p st Hp Hne; by exists st|done].
  - intros j sg Hj. exists sg. split_and!; try done.
    cbn. by apply lookup_app_l_Some.
  - intros q l (sg & Hq & Ha & _ & Hab). unfold is_aborted in Hab. cbn in Hab.
    rewrite (lookup_app_l_Some _ _ _ _ Hq) in Hab. congruence.
  - intros i t Hi. by left.
Qed.

Lemma moves_register (s : nat) (sg : CancelSignal) (l : Listener)
    (w : World) :
  signals w !! s = Some sg → aborted sg = false →
  moves w (put_signal s
             (mkSignal (_error sg) false (listeners sg ++ [l])) (bump_fn w)).
Proof.
  intros Hs Ha. pose proof (lookup_lt_Some _ _ _ Hs) as Hlt.
  split; [..|intros p st Hp Hne; by exists st|done].
  - intros j sg0 Hj. destruct (decide (j = s)) as [->|Hne].
    + simplify_eq. eexists. split; [cbn; by apply list_lookup_insert_eq|].
      split; [congruence|]. intros _. cbn. by apply prefix_app_r.
    + exists sg0. split_and!; try done. cbn. by rewrite list_lookup_insert_ne.
  - intros q l' (sgq & Hq & Haq & _ & Hab). unfold is_aborted in Hab.
    cbn in Hab. destruct (decide (q = s)) as [->|Hne].
    + by rewrite list_lookup_insert_eq in Hab.
    + rewrite list_lookup_insert_ne, Hq in Hab by done. congruence.
  - intros i t Hi. by left.
Qed.

(** A timer is disarmed. *)
Lemma Sound_disarm (id : nat) (t : Timer) (w w' : World) :
  timers w !! id = Some t →
  signals w' = signals w →
  timers w' = <[id := mkTimer (t_due t) (t_signal t) false]> (timers w) →
  length (promises w) ≤ length (promises w') → next_fn w ≤ next_fn w' →
  Sound w → Sound w'.
Proof.
  intros Hid Hs Ht Hp Hn [Hwf Honce Hcons Hdr Hg Hown].
  pose proof (lookup_lt_Some _ _ _ Hid) as Hlt.
  assert (∀ q l, listener_at w' q l ↔ listener_at w q l) as Hl.
  { intros q l. unfold listener_at. by rewrite Hs. }
  assert (∀ i t', timers w' !! i = Some t' →
            ∃ t0, timers w !! i = Some t0 ∧ t_signal t' = t_signal t0
                  ∧ (t_armed t' = true → t' = t0)) as Hlook.
  { intros i t'. rewrite Ht. destruct (decide (i = id)) as [->|Hne].
    - rewrite list_lookup_insert_eq by done. intros [= <-].
      exists t. by split_and!.
    - rewrite list_lookup_insert_ne by done. intros Hi. exists t'.
      by split_and!. }
  split.
  - apply (WF_mono w); try done.
    + intros q l. by rewrite Hl.
    + rewrite Hs. by eapply wf_nodup.
    + by rewrite Hs.
    + intros i t' (t0 & Ht0 & Hsig & _)%Hlook. rewrite Hs, Hsig.
      by eapply wf_timers.
  - intros q l Hql%Hl. by eapply Honce.
  - unfold consistent. by rewrite Hs.
  - unfold drained. by rewrite Hs.
  - intros i t' Hi Harm. destruct (Hlook i t' Hi) as (t0 & Ht0 & _ & Heq).
    specialize (Heq Harm). subst t0. rewrite Hs. by apply Hg.
  - intros q l i Hql%Hl Hcode.
    destruct (Hown q l i Hql Hcode) as (t0 & Ht0 & Hsig).
    destruct (decide (i = id)) as [->|Hne].
    + simplify_eq. eexists. rewrite Ht.
      by rewrite list_lookup_insert_eq by done.
    + exists t0. rewrite Ht. by rewrite list_lookup_insert_ne by done.
Qed.

Lemma Sound_clearTimeout (id : nat) (w : World) :
  Sound w → Sound (clearTimeout id w).
Proof.
  intros Hs. unfold clearTimeout.
  destruct (timers w !! id) as [t|] eqn:Ht; [|done].
  by apply (Sound_disarm id t w).
Qed.

(** Clearing the timer of a signal that has fired is a move. *)
Lemma moves_clearTimeout (id : nat) (w : World) :
  (∀ t, timers w !! id = Some t → is_aborted (t_signal t) w = true) →
  moves w (clearTimeout id w).
Proof.
  intros Hab. pose proof (signals_clearTimeout id w) as Hs. split.
  - intros j sg Hj. exists sg. rewrite Hs. by split_and!.
  - intros q l Hf. by destruct (fired_listener_same w (clearTimeout id w) q l).
  - intros i t Hi. unfold clearTimeout.
    destruct (timers w !! id) as [t0|] eqn:Ht0; [|by left]. cbn.
    destruct (decide (i = id)) as [->|Hne].
    + rewrite Ht0 in Hi. injection Hi as ->.
      rewrite list_lookup_insert_eq by by eapply lookup_lt_Some.
      destruct (t_armed t) eqn:Harm.
      * right. split_and!; [done..|]. by apply (Hab t).
      * left. destruct t; cbn in *. by subst.
    + left. by rewrite list_lookup_insert_ne.
  - intros p st Hp Hne. apply promise_kept; [|done].
    by rewrite promises_clearTimeout.
  - unfold clearTimeout. by destruct (timers w !! id).
Qed.

(** Registering an observer on a sound store. *)
Lemma onCanceled_sound (s : nat) (fn : Closure) (w w' : World) :
  Sound w → s < length (signals w) → code_ok w s (fn_code fn) →
  (∀ i, fn_code fn = CClearTimeout i →
        ∃ t, timers w !! i = Some t ∧ t_signal t = s) →
  onCanceled s fn w = Some w' → Sound w' ∧ moves w w'.
Proof.
  intros Hsound Hs Hok Hclear Hon.
  destruct (lookup_lt_is_Some_2 _ _ Hs) as [sg Hsg].
  destruct (aborted sg) eqn:Ha.
  - rewrite (onCanceled_aborted s fn sg) in Hon by done.
    unfold call in Hon.
    destruct (fn_code fn) as [c p|p h|id|pr] eqn:Hcode; cbn in Hok.
    + destruct Hok as [-> Hc]. rewrite Hsg in Hon. cbn in Hon.
      destruct (signal_cancel_fires c (_error sg) w) as (w'' & Hw'' & Hf & _);
        [apply Hsound|lia|].
      rewrite Hw'' in Hon. injection Hon as <-. split.
      * eapply Sound_fires; [done| |done].
        by apply (s_consistent _ Hsound s sg).
      * apply (moves_fires (_error sg)); [apply Hsound..|done].
    + destruct Hok as (Hp & _ & Hfresh).
      destruct (lookup_lt_is_Some_2 _ _ Hp) as [psg Hpsg].
      rewrite (removeEventListener_fresh p h psg) in Hon; [|done|].
      2:{ intros l' Hl'. eapply Hfresh. by exists psg. }
      injection Hon as <-. done.
    + injection Hon as <-. split; [by apply Sound_clearTimeout|].
      apply moves_clearTimeout. intros t Ht.
      destruct (Hclear id eq_refl) as (t' & Ht' & Hsig). simplify_eq.
      unfold is_aborted. by rewrite Hsg.
    + split; [by eapply Sound_settle|by eapply moves_settle].
  - rewrite (onCanceled_pending s fn sg) in Hon by done.
    injection Hon as <-. split.
    + by apply Sound_register.
    + by apply moves_register.
Qed.

(** The [WithCancel] constructor on a sound store. *)
Lemma WithCancel_constructor_sound (ctx : Context) (s : nat) (w w' : World) :
  Sound w → valid_ctx w ctx = true →
  WithCancel_constructor ctx w = Some (s, w') → Sound w' ∧ moves w w'.
Proof.
  intros Hsound Hvalid0 Hc.
  pose proof (proj1 (valid_ctx_spec _ _) Hvalid0) as Hvalid.
  pose proof (s_wf _ Hsound) as Hwf.
  set (w1 := set_signals (signals w ++ [new_CancelSignal]) w).
  assert (Sound w1) as Hs1 by by apply Sound_alloc.
  assert (moves w w1) as Hm1 by apply moves_alloc.
  unfold WithCancel_constructor in Hc. fold w1 in Hc.
  destruct (done ctx) as [ps|] eqn:Hd; [|by simplify_eq].
  pose proof (Hvalid ps eq_refl) as Hps.
  set (s0 := length (signals w)) in *.
  set (h := next_fn w1) in *.
  set (handler := mkClosure h (CPropagate s0 ps)) in *.
  assert (code_ok (bump_fn w1) ps (fn_code handler)) as Hok1.
  { cbn. rewrite length_app. cbn. subst s0. lia. }
  assert (ps < length (signals (bump_fn w1))) as Hps1.
  { cbn. rewrite length_app. lia. }
  destruct (onCanceled_WF ps handler (bump_fn w1))
    as (w2 & Hw2 & Hwf2 & Hlen2 & _ & _ & Hfn2 & Hl2);
    [by apply WF_bump_fn, Hs1|done|done|].
  rewrite Hw2 in Hc. cbn [mbind option_bind] in Hc.
  destruct (onCanceled_sound ps handler (bump_fn w1) w2) as [Hs2 Hm2];
    [by apply Sound_bump_fn|done|done|done|done|].
  change (fn_id handler) with h in Hc.
  destruct (onCanceled s0 (mkClosure (next_fn w2) (CUnlisten ps h))
              (bump_fn w2)) as [w3|] eqn:Hw3; [|done].
  cbn in Hc. injection Hc as <- <-.
  destruct (onCanceled_sound s0 (mkClosure (next_fn w2) (CUnlisten ps h))
              (bump_fn w2) w3) as [Hs3 Hm3];
    [by apply Sound_bump_fn| | |done|done|].
  { cbn. fold (signals w2). rewrite Hlen2. cbn. rewrite length_app. cbn.
    subst s0. lia. }
  { cbn. fold (signals w2). rewrite Hlen2. cbn. rewrite length_app.
    cbn in Hfn2. split_and!; [lia|subst h; cbn; lia|].
    intros q' l' [Hold|[_ ->]]%Hl2; [|cbn; subst h; cbn; lia].
    apply listener_at_alloc_old in Hold.
    apply (wf_ids _ Hwf) in Hold. subst h. cbn. lia. }
  split; [done|].
  etrans; [exact Hm1|]. etrans; [apply moves_bump_fn|].
  etrans; [exact Hm2|]. etrans; [apply moves_bump_fn|]. exact Hm3.
Qed.

(** The timer of a new [WithTimeout] node whose signal has not fired: the
    timer is set and the closure that clears it is registered. *)
Lemma Sound_arm (s : nat) (sg : CancelSignal) (tm : Timer) (w w' : World) :
  Sound w → signals w !! s = Some sg → aborted sg = false →
  t_signal tm = s →
  w' = put_signal s
         (mkSignal (_error sg) false
            (listeners sg
             ++ [mkListener (S (next_fn w))
                   (mkClosure (next_fn w) (CClearTimeout (length (timers w))))
                   true]))
         (bump_fn (bump_fn (set_timers (timers w ++ [tm]) w))) →
  WF w' → Sound w' ∧ moves w w'.
Proof.
  intros [Hwf Honce Hcons Hdr Hg Hown] Hs Ha Htm -> Hwf'.
  pose proof (lookup_lt_Some _ _ _ Hs) as Hlt.
  set (l := mkListener _ _ _). set (w' := put_signal s _ _) in *.
  assert (∀ q l', listener_at w' q l' →
            listener_at w q l' ∨ (q = s ∧ l' = l)) as Hl.
  { intros q l' [[-> Hin]|[_ Hold]]%listener_at_put_signal; [|by left|done].
    cbn in Hin. apply elem_of_app in Hin as [Hin|Hin%list_elem_of_singleton].
    - left. by exists sg.
    - by right. }
  assert (∀ j sg', signals w' !! j = Some sg' →
            signals w !! j = Some sg'
            ∨ (j = s ∧ _error sg' = _error sg ∧ aborted sg' = false))
    as Hlook.
  { intros j sg' Hj. cbn in Hj. destruct (decide (j = s)) as [->|Hne].
    - rewrite list_lookup_insert_eq in Hj by done. right. by simplify_eq.
    - rewrite list_lookup_insert_ne in Hj by done. by left. }
  assert (signals w' !! s
          = Some (mkSignal (_error sg) false (listeners sg ++ [l]))) as Hs'.
  { cbn. by apply list_lookup_insert_eq. }
  split; [split|]; try done.
  - intros q l' [Hold|[-> ->]]%Hl; [by eapply Honce|done].
  - intros j sg' [Hj|(-> & He & Hab)]%Hlook; [by apply (Hcons j)|].
    rewrite He, Hab, <-Ha. by apply (Hcons s).
  - intros j sg' [Hj|(-> & He & Hab)]%Hlook; [by apply (Hdr j)|congruence].
  - intros i t Hi Harm. cbn in Hi.
    apply lookup_app_Some in Hi as [Hi|[Hge Hi]].
    + destruct (Hg i t Hi Harm) as (sg0 & l0 & Hsg0 & Hab0 & Hl0 & Hc0).
      destruct (decide (t_signal t = s)) as [Heq|Hne].
      * rewrite Heq in *. simplify_eq. eexists _, l0. split_and!; try done.
        cbn. apply elem_of_app. by left.
      * exists sg0, l0. split_and!; try done.
        cbn. by rewrite list_lookup_insert_ne.
    + apply list_lookup_singleton_Some in Hi as [Hi <-].
      assert (i = length (timers w)) as -> by lia.
      rewrite Htm. eexists _, l. split_and!; try done.
      cbn. apply elem_of_app. right. left.
  - intros q l' i [Hold|[-> ->]]%Hl Hcode.
    + destruct (Hown q l' i Hold Hcode) as (t & Ht & Hsig).
      exists t. split; [|done]. cbn. by apply lookup_app_l_Some.
    + cbn in Hcode. injection Hcode as <-. exists tm. split; [|done].
      cbn. apply lookup_snoc_new.
  - split.
    + intros j sg0 Hj. destruct (decide (j = s)) as [->|Hne].
      * simplify_eq. eexists. split; [done|].
        split; [congruence|]. intros _. cbn. by apply prefix_app_r.
      * exists sg0. split_and!; try done.
        cbn. by rewrite list_lookup_insert_ne.
    + intros q l' (sgq & Hq & Haq & _ & Hab). unfold is_aborted in Hab.
      destruct (decide (q = s)) as [->|Hne].
      * by rewrite Hs' in Hab.
      * cbn in Hab. rewrite list_lookup_insert_ne, Hq in Hab by done.
        congruence.
    + intros i t Hi. left. cbn. by apply lookup_app_l_Some.
    + intros p st Hp Hne. by exists st.
    + done.
Qed.

(** The timer of a [WithTimeout] node that is born canceled: set, and
    cleared at once. *)
Lemma Sound_new_timer (t : Timer) (w w' : World) :
  signals w' = signals w → timers w' = timers w ++ [t] →
  promises w' = promises w → next_fn w ≤ next_fn w' → now w' = now w →
  t_armed t = false → t_signal t < length (signals w) →
  Sound w → Sound w' ∧ moves w w'.
Proof.
  intros Hs Ht Hp Hn Hnow Harm Hsig [Hwf Honce Hcons Hdr Hg Hown].
  assert (∀ q l, listener_at w' q l ↔ listener_at w q l) as Hl.
  { intros q l. unfold listener_at. by rewrite Hs. }
  assert (∀ i t', timers w' !! i = Some t' →
            timers w !! i = Some t' ∨ t' = t) as Hlook.
  { intros i t'. rewrite Ht. intros [?|[_ Hi]]%lookup_app_Some; [by left|].
    apply list_lookup_singleton_Some in Hi as [_ <-]. by right. }
  split; [split|].
  - apply (WF_mono w); try done.
    + intros q l. by rewrite Hl.
    + rewrite Hs. by eapply wf_nodup.
    + by rewrite Hs.
    + by rewrite Hp.
    + intros i t' [Hi| ->]%Hlook; rewrite Hs; [by eapply wf_timers|done].
  - intros q l Hql%Hl. by eapply Honce.
  - unfold consistent. by rewrite Hs.
  - unfold drained. by rewrite Hs.
  - intros i t' [Hi| ->]%Hlook Ha; [|congruence]. rewrite Hs. by apply Hg.
  - intros q l i Hql%Hl Hcode.
    destruct (Hown q l i Hql Hcode) as (t0 & Ht0 & Hsig0).
    exists t0. split; [|done]. rewrite Ht. by apply lookup_app_l_Some.
  - split.
    + intros j sg Hj. exists sg. rewrite Hs. by split_and!.
    + intros q l Hf. by destruct (fired_listener_same w w' q l).
    + intros i t' Hi. left. rewrite Ht. by apply lookup_app_l_Some.
    + intros p st Hpst Hne. apply promise_kept; [by rewrite Hp|done].
    + lia.
Qed.

(** [new WithTimeout] on a sound store. *)
Lemma new_WithTimeout_sound (ctx : Context) (ms : Z) (node : Context)
    (w w' : World) :
  Sound w → valid_ctx w ctx = true →
  new_WithTimeout ctx ms w = Some (node, w') → Sound w' ∧ moves w w'.
Proof.
  intros Hsound Hvalid Hnew. pose proof (s_wf _ Hsound) as Hwf.
  destruct (WithCancel_constructor_WF ctx w Hwf Hvalid)
    as (w1 & Hw1 & Hwf1 & _ & Hlen1 & _).
  destruct (WithCancel_constructor_sound ctx _ w w1 Hsound Hvalid Hw1)
    as [Hs1 Hm1].
  destruct (new_WithTimeout_WF ctx ms w Hwf Hvalid) as (w3 & Hw3 & Hwf3 & _).
  rewrite Hw3 in Hnew. injection Hnew as <- <-.
  set (s := length (signals w)) in *.
  destruct (lookup_lt_is_Some_2 (signals w1) s) as [sg Hsg]; [lia|].
  rewrite (new_WithTimeout_unfold ctx ms s sg w w1 Hw1 Hsg) in Hw3.
  injection Hw3 as Hw3. cbn zeta in Hw3.
  destruct (aborted sg) eqn:Ha.
  - destruct (Sound_new_timer (mkTimer (now w1 + timeout_delay ms) s false) w1 w3)
      as [Hs3 Hm3]; try done.
    + rewrite <-Hw3. by rewrite signals_clearTimeout.
    + rewrite <-Hw3. unfold clearTimeout. cbn. rewrite lookup_snoc_new. cbn.
      by rewrite insert_app_r_alt, Nat.sub_diag by done.
    + rewrite <-Hw3. by rewrite promises_clearTimeout.
    + rewrite <-Hw3. unfold clearTimeout. cbn. rewrite lookup_snoc_new. cbn.
      lia.
    + rewrite <-Hw3. unfold clearTimeout. cbn. by rewrite lookup_snoc_new.
    + cbn. lia.
    + split; [done|]. by etrans.
  - destruct (Sound_arm s sg (mkTimer (now w1 + timeout_delay ms) s true) w1 w3)
      as [Hs3 Hm3]; try done.
    split; [done|]. by etrans.
Qed.

Lemma new_WithCancel_sound (ctx : Context) (node : Context) (w w' : World) :
  Sound w → valid_ctx w ctx = true →
  new_WithCancel ctx w = Some (node, w') → Sound w' ∧ moves w w'.
Proof.
  intros Hsound Hvalid Hnew. unfold new_WithCancel in Hnew.
  destruct (WithCancel_constructor ctx w) as [[s w1]|] eqn:Hc; simplify_eq/=.
  by eapply WithCancel_constructor_sound.
Qed.

Lemma run_executor_sound (p : nat) (calls : list Settle) (w w' : World) :
  run_executor p calls w = Some w' → Sound w → Sound w' ∧ moves w w'.
Proof.
  revert w. induction calls as [|a calls IH]; intros w H Hs; simplify_eq/=.
  { done. }
  destruct (settle_with p a w) as [w1|] eqn:Hw1; simplify_eq/=.
  assert (Sound w1 ∧ moves w w1) as [Hs1 Hm1].
  { destruct a; cbn in Hw1;
      (split; [by eapply Sound_settle|by eapply moves_settle]). }
  destruct (IH w1 H Hs1) as [Hs' Hm']. split; [done|]. by etrans.
Qed.

(** [new ContextPromise] on a sound store. *)
Lemma new_ContextPromise_sound (ctx : Context) (executor : list Settle)
    (p : nat) (w w' : World) :
  Sound w → valid_ctx w ctx = true →
  new_ContextPromise ctx executor w = Some (p, w') → Sound w' ∧ moves w w'.
Proof.
  intros Hsound Hvalid0 Hnew.
  pose proof (proj1 (valid_ctx_spec _ _) Hvalid0) as Hvalid.
  unfold new_ContextPromise in Hnew.
  set (p0 := length (promises w)) in *.
  set (w0 := set_promises (promises w ++ [Pending]) w) in *.
  assert (Sound w0) as Hs0 by by apply Sound_alloc_promise.
  assert (moves w w0) as Hm0 by apply moves_alloc_promise.
  destruct (run_executor p0 executor w0) as [w1|] eqn:Hw1; [|done].
  cbn [mbind option_bind] in Hnew.
  destruct (run_executor_sound _ _ _ _ Hw1 Hs0) as [Hs1 Hm1].
  destruct (run_executor_ok p0 executor w0) as (w1' & Hw1' & Hev1).
  { cbn. rewrite length_app. cbn. subst p0. lia. }
  rewrite Hw1 in Hw1'. injection Hw1' as <-.
  destruct (done ctx) as [s|] eqn:Hd.
  - destruct (onCanceled s (mkClosure (next_fn w1) (CReject p0)) (bump_fn w1))
      as [w2|] eqn:Hw2; [|done].
    cbn in Hnew. injection Hnew as <- <-.
    destruct (onCanceled_sound s (mkClosure (next_fn w1) (CReject p0))
                (bump_fn w1) w2) as [Hs2 Hm2];
      [by apply Sound_bump_fn| | |done|done|].
    + cbn. rewrite (evolves_length_signals w0 w1) by done. cbn.
      by apply Hvalid.
    + cbn. rewrite (evolves_length_promises w0 w1) by done. cbn.
      rewrite length_app. cbn. subst p0. lia.
    + split; [done|]. etrans; [exact Hm0|]. etrans; [exact Hm1|].
      etrans; [apply moves_bump_fn|]. exact Hm2.
  - injection Hnew as <- <-. split; [done|]. by etrans.
Qed.

(** The firing of a timer on a sound store. *)
Lemma fire_timer_sound (id : nat) (w w' : World) :
  Sound w → fire_timer id w = Some w' → Sound w' ∧ moves w w'.
Proof.
  intros Hsound. unfold fire_timer. intros H.
  destruct (timers w !! id) as [t|] eqn:Ht; simplify_eq/=.
  destruct (t_armed t) eqn:Harm; simplify_eq/=; [|done].
  match type of H with signal_cancel _ _ ?x = _ => set (wa := x) in * end.
  assert (Sound wa) as Hsa.
  { apply (Sound_disarm id t w); try done. }
  destruct (signal_cancel_fires (t_signal t) (Some DeadlineExceeded) wa)
    as (w'' & Hw'' & Hf & Hst); [apply Hsa|by eapply signal_cancel_Some|].
  rewrite Hw'' in H. injection H as ->.
  split; [by eapply Sound_fires|].
  pose proof (moves_fires _ wa w' (s_wf _ Hsa) (s_owned _ Hsa) Hf) as Hm.
  assert (is_aborted (t_signal t) w' = true) as Hab.
  { unfold status in Hst. unfold is_aborted.
    destruct (signals w' !! t_signal t); [|done]. by simplify_eq/=. }
  split.
  - apply (mv_signals _ _ Hm).
  - apply (mv_ran _ _ Hm).
  - intros i t0 Hi. destruct (decide (i = id)) as [->|Hne].
    + simplify_eq. right. split_and!; try done.
      destruct (mv_timers _ _ Hm id (mkTimer (t_due t) (t_signal t) false))
        as [?|(? & _)]; [|done..].
      cbn. apply list_lookup_insert_eq. by eapply lookup_lt_Some.
    + apply (mv_timers _ _ Hm). cbn. by rewrite list_lookup_insert_ne.
  - apply (mv_promises _ _ Hm).
  - pose proof (mv_now _ _ Hm) as Hn. cbn in Hn. lia.
Qed.

Lemma run_timers_sound (ids : list nat) (w w' : World) :
  Sound w → run_timers ids w = Some w' → Sound w' ∧ moves w w'.
Proof.
  revert w. induction ids as [|id ids IH]; intros w Hs H; simplify_eq/=.
  { done. }
  destruct (fire_timer id w) as [w1|] eqn:Hw1; simplify_eq/=.
  destruct (fire_timer_sound id w w1 Hs Hw1) as [Hs1 Hm1].
  destruct (IH w1 Hs1 H) as [Hs' Hm']. split; [done|]. by etrans.
Qed.

Lemma due_timers_due (target : Z) (w : World) (id : nat) :
  id ∈ due_timers target w → is_due target w id = true.
Proof.
  intros Hin%elem_of_foldr_insert_due.
  by apply elem_of_reverse, list_elem_of_filter in Hin as [? _].
Qed.

(** The clock after the timers have run. *)
Lemma run_timers_now (target : Z) (ids : list nat) (w w' : World) :
  Sound w →
  (∀ id t, id ∈ ids → timers w !! id = Some t → t_armed t = true →
           (t_due t ≤ target)%Z) →
  (now w ≤ target)%Z →
  run_timers ids w = Some w' → (now w' ≤ target)%Z.
Proof.
  revert w. induction ids as [|id ids IH]; intros w Hs Hdue Hnow H;
    simplify_eq/=; [done|].
  destruct (fire_timer id w) as [w1|] eqn:Hw1; simplify_eq/=.
  destruct (fire_timer_sound id w w1 Hs Hw1) as [Hs1 Hm1].
  apply (IH w1); try done.
  - intros i t Hi Ht Harm.
    destruct (Forall2_lookup_r _ _ _ _ _
                (ev_timers _ _ (fire_timer_evolves _ _ _ Hw1)) Ht)
      as (t0 & Ht0 & Hd & _ & Ha).
    rewrite Hd. apply (Hdue i t0); [by right|done|by apply Ha].
  - unfold fire_timer in Hw1.
    destruct (timers w !! id) as [t|] eqn:Ht; simplify_eq/=.
    destruct (t_armed t) eqn:Harm; simplify_eq/=; [|done].
    match type of Hw1 with signal_cancel _ _ ?x = _ => set (wa := x) in * end.
    destruct (signal_cancel_fires (t_signal t) (Some DeadlineExceeded) wa)
      as (w'' & Hw'' & Hf & _).
    { eapply WF_evolves; [apply Hs|]. split; cbn; try done.
      eapply Forall2_insert_same; [apply _|done|]. by split_and!. }
    { by eapply signal_cancel_Some. }
    rewrite Hw'' in Hw1. injection Hw1 as ->.
    rewrite (f_now _ _ _ Hf). cbn.
    pose proof (Hdue id t ltac:(left) Ht Harm). lia.
Qed.

Lemma delay_sound (ms : Z) (w w' : World) :
  Sound w → delay ms w = Some w' → Sound w' ∧ moves w w'.
Proof.
  intros Hs. unfold delay. intros H.
  destruct (run_timers _ w) as [w1|] eqn:Hw1; simplify_eq/=.
  destruct (run_timers_sound _ w w1 Hs Hw1) as [Hs1 Hm1].
  split; [by apply Sound_set_now|].
  etrans; [exact Hm1|]. apply moves_ext; try done. cbn.
  apply (run_timers_now _ (due_timers (now w + 0 `max` ms) w) w);
    [done| |lia|done].
  intros id t Hid%due_timers_due Ht _. unfold is_due in Hid.
  rewrite Ht in Hid. apply andb_true_iff in Hid as [_ Hd]. lia.
Qed.

(** What a call from a thenable does to the promises: the promise that
    follows it takes the outcome of the call, nothing else changes. *)
Lemma thenable_calls_promises (p : nat) (a : Settle) (w w' : World) (q : nat)
    (st : PromiseState) :
  thenable_calls p a w = Some w' → promises w !! q = Some st →
  promises w' !! q = Some st
  ∨ (q = p ∧ (∃ t, st = Following t) ∧ promises w' !! q = Some (outcome a)).
Proof.
  unfold thenable_calls. intros H Hq.
  destruct (promises w !! p) as [cur|] eqn:Hp; simplify_eq/=.
  destruct cur as [|t| |]; try by left.
  destruct (decide (q = p)) as [->|Hne].
  - right. simplify_eq. split; [done|]. split; [by exists t|].
    cbn. apply list_lookup_insert_eq. by eapply lookup_lt_Some.
  - left. cbn. by rewrite list_lookup_insert_ne.
Qed.

Lemma thenable_calls_sound (p : nat) (a : Settle) (w w' : World) :
  Sound w → thenable_calls p a w = Some w' → Sound w' ∧ moves w w'.
Proof.
  intros Hs H.
  destruct (thenable_calls_frame _ _ _ _ H) as (Hsg & Htm & Hfn & Hnow & Hlen).
  split.
  - apply (Sound_ext w); [done..|by rewrite Hlen|by rewrite Hfn|done].
  - split.
    + intros j sg Hj. exists sg. rewrite Hsg. by split_and!.
    + intros q l Hf. by destruct (fired_listener_same w w' q l).
    + intros i t Hi. left. by rewrite Htm.
    + intros q st Hq Hne.
      destruct (thenable_calls_promises p a w w' q st H Hq)
        as [?|(-> & [t ->] & Hq')]; [by apply promise_kept|].
      exists (outcome a). split_and!; [done|apply outcome_not_pending|done].
    + by rewrite Hnow.
Qed.

(** The operations of the module keep the store sound. *)
Lemma step_sound (op : Op) (w : World) :
  Sound w → op_ok w op = true →
  ∃ w', step op w = Some w' ∧ Sound w' ∧ moves w w'.
Proof.
  intros Hs Hok.
  destruct (step_WF op w (s_wf _ Hs) Hok) as (w' & Hw' & _).
  exists w'. split; [done|].
  destruct op as [ctx|ctx ms|ctx ex|ctx|p v|p r|p a|ms]; cbn in *.
  - destruct (new_WithCancel ctx w) as [[node w1]|] eqn:Hn; simplify_eq/=.
    by eapply new_WithCancel_sound.
  - destruct (new_WithTimeout ctx ms w) as [[node w1]|] eqn:Hn; simplify_eq/=.
    by eapply new_WithTimeout_sound.
  - destruct (new_ContextPromise ctx ex w) as [[p w1]|] eqn:Hn; simplify_eq/=.
    by eapply new_ContextPromise_sound.
  - assert (∃ s, signal_cancel s (Some Canceled) w = Some w') as [s Hc].
    { destruct ctx as [| | ? s| ? s]; try done; by exists s. }
    destruct (signal_cancel_fires s (Some Canceled) w) as (w'' & Hw'' & Hf & _);
      [apply Hs|by eapply signal_cancel_Some|].
    rewrite Hw'' in Hc. injection Hc as ->. split.
    + by eapply Sound_fires.
    + eapply moves_fires; [apply Hs..|done].
  - split; [by eapply Sound_settle|by eapply moves_settle].
  - split; [by eapply Sound_settle|by eapply moves_settle].
  - by eapply thenable_calls_sound.
  - by eapply delay_sound.
Qed.

(** A sequence of operations, each applied to objects that exist. *)
Fixpoint run (ops : list Op) (w : World) : option World :=
  match ops with
  | [] => Some w
  | op :: ops' =>
      if op_ok w op then w' ← step op w; run ops' w' else None
  end.

Lemma run_sound (ops : list Op) (w w' : World) :
  Sound w → run ops w = Some w' → Sound w' ∧ moves w w'.
Proof.
  revert w. induction ops as [|op ops IH]; intros w Hs H; simplify_eq/=.
  { done. }
  destruct (op_ok w op) eqn:Hok; [|done].
  destruct (step_sound op w Hs Hok) as (w1 & Hw1 & Hs1 & Hm1).
  rewrite Hw1 in H. cbn in H.
  destruct (IH w1 Hs1 H) as [Hs' Hm']. split; [done|]. by etrans.
Qed.

(** ** Invariants of the stores the operations reach *)

(** X4.  In every store that a sequence of operations reaches from the
    empty store, a context's [error()] is non-null exactly when its done
    signal is aborted. *)
Theorem error_iff_aborted (ops : list Op) (w : World) (ctx : Context)
    (s : nat) :
  run ops empty_world = Some w → done ctx = Some s →
  is_aborted s w = true ↔ error ctx w ≠ None.
Proof.
  intros Hrun Hd.
  destruct (run_sound ops _ _ Sound_empty Hrun) as [Hs _].
  rewrite (error_done ctx s) by done. unfold is_aborted.
  destruct (signals w !! s) as [sg|] eqn:Hsg; cbn; [|done].
  rewrite (s_consistent _ Hs s sg Hsg). split.
  - intros [e ->]. done.
  - destruct (_error sg); [by eexists|done].
Qed.

(** X5.  In every store the operations reach, every listener is registered
    with [once], and a signal that has fired holds no listener any more: the
    observers of a signal are released when it fires. *)
Theorem fired_signal_holds_no_listener (ops : list Op) (w : World) :
  run ops empty_world = Some w →
  ∀ s l, listener_at w s l → l_once l = true ∧ is_aborted s w = false.
Proof.
  intros Hrun s l Hl.
  destruct (run_sound ops _ _ Sound_empty Hrun) as [Hs _].
  split; [by eapply (s_once _ Hs)|].
  destruct Hl as (sg & Hsg & Hin). unfold is_aborted. rewrite Hsg.
  destruct (aborted sg) eqn:Ha; [|done].
  rewrite (s_drained _ Hs s sg Hsg Ha) in Hin. by apply elem_of_nil in Hin.
Qed.

(** X6.  In every store the operations reach, an armed timer is the timer
    of a signal that has not fired: whatever fires the signal of a
    [WithTimeout] node (its own [cancel()], an ancestor, the deadline), its
    timer is not left armed. *)
Theorem armed_timer_signal_not_fired (ops : list Op) (w : World) (i : nat)
    (t : Timer) :
  run ops empty_world = Some w →
  timers w !! i = Some t → t_armed t = true →
  is_aborted (t_signal t) w = false.
Proof.
  intros Hrun Ht Harm.
  destruct (run_sound ops _ _ Sound_empty Hrun) as [Hs _].
  destruct (s_guarded _ Hs i t Ht Harm) as (sg & _ & Hsg & Ha & _).
  unfold is_aborted. by rewrite Hsg.
Qed.

(** X7.  In every store the operations reach, every operation applied to
    objects that exist runs to its end: the propagation of a firing
    terminates, and no operation fails. *)
Theorem operations_run_to_their_end (ops : list Op) (w : World) (op : Op) :
  run ops empty_world = Some w → op_ok w op = true →
  ∃ w', step op w = Some w' ∧ run (ops ++ [op]) empty_world = Some w'.
Proof.
  intros Hrun Hok.
  destruct (run_sound ops _ _ Sound_empty Hrun) as [Hs _].
  destruct (step_sound op w Hs Hok) as (w' & Hw' & _).
  exists w'. split; [done|].
  clear Hs. revert Hrun. generalize empty_world.
  induction ops as [|o ops IH]; intros w0 Hrun; simplify_eq/=.
  - by rewrite Hok, Hw'.
  - destruct (op_ok w0 o); [|done].
    destruct (step o w0) as [w1|]; [|done]. cbn in *. by apply IH.
Qed.

(** ** What a constructor leaves as it is *)

(** The store after a constructor, seen from the objects that existed
    before: every signal shows the cause and the flag it showed, and the
    timers, the promises and the clock are as they were. *)
Record preserves (w w' : World) : Prop := mkPreserves {
  pv_signals : ∀ j sg, signals w !! j = Some sg →
    ∃ sg', signals w' !! j = Some sg' ∧ _error sg' = _error sg
           ∧ aborted sg' = aborted sg;
  pv_timers : ∀ i t, timers w !! i = Some t → timers w' !! i = Some t;
  pv_promises : ∀ p st, promises w !! p = Some st → promises w' !! p = Some st;
  pv_now : now w' = now w
}.

#[local] Instance preserves_po : PreOrder preserves.
Proof.
  split.
  - intros w. split; eauto.
  - intros a b c [H1 H2 H3 H4] [H5 H6 H7 H8]. split.
    + intros j sg Hj. destruct (H1 j sg Hj) as (sg1 & Hj1 & He1 & Ha1).
      destruct (H5 j sg1 Hj1) as (sg2 & Hj2 & He2 & Ha2).
      exists sg2. split_and!; [done|congruence..].
    + auto.
    + auto.
    + congruence.
Qed.

Lemma preserves_shown (w w' : World) (ctx : Context) (s : nat) :
  preserves w w' → done ctx = Some s → s < length (signals w) →
  error ctx w' = error ctx w ∧ is_aborted s w' = is_aborted s w.
Proof.
  intros Hp Hd Hs. rewrite !(error_done ctx s) by done. unfold is_aborted.
  destruct (lookup_lt_is_Some_2 _ _ Hs) as [sg Hsg].
  destruct (pv_signals _ _ Hp s sg Hsg) as (sg' & -> & He & Ha).
  rewrite Hsg. cbn. by rewrite He, Ha.
Qed.

(** The [WithCancel] constructor, from the outside: the new signal is not
    aborted and the parent's signal holds the handler, or the parent has
    fired and the new signal is aborted with the parent's cause. *)
Lemma WithCancel_constructor_after (ctx : Context) (s : nat) (w w1 : World) :
  valid_ctx w ctx = true →
  WithCancel_constructor ctx w = Some (s, w1) →
  s = length (signals w) ∧ preserves w w1
  ∧ timers w1 = timers w ∧ length (signals w1) = S s
  ∧ ((status w1 s = Some (None, false)
      ∧ ∀ ps, done ctx = Some ps →
          ∃ psg l, signals w1 !! ps = Some psg ∧ aborted psg = false
                   ∧ l ∈ listeners psg
                   ∧ fn_code (l_fn l) = CPropagate s ps)
     ∨ (∃ ps psg, done ctx = Some ps ∧ signals w !! ps = Some psg
                  ∧ aborted psg = true
                  ∧ status w1 s = Some (_error psg, true))).
Proof.
  intros Hvalid0 Hc.
  pose proof (proj1 (valid_ctx_spec _ _) Hvalid0) as Hvalid.
  destruct (done ctx) as [ps|] eqn:Hd.
  - pose proof (Hvalid ps eq_refl) as Hps.
    destruct (lookup_lt_is_Some_2 _ _ Hps) as [psg Hpsg].
    destruct (aborted psg) eqn:Ha.
    + rewrite (WithCancel_constructor_aborted ctx ps psg w Hd Hpsg Ha) in Hc.
      injection Hc as <- <-. split; [done|]. split_and!.
      * split; cbn; try done. intros j sg Hj.
        pose proof (lookup_lt_Some _ _ _ Hj) as Hlt.
        destruct (decide (j = ps)) as [->|Hne].
        -- simplify_eq. eexists. split.
           { apply list_lookup_insert_eq.
             rewrite length_insert, length_app. lia. }
           cbn. by rewrite Ha.
        -- exists sg. split; [|done].
           rewrite !list_lookup_insert_ne by lia. by apply lookup_app_l_Some.
      * done.
      * cbn. rewrite !length_insert, length_app. cbn. lia.
      * right. exists ps, psg. split_and!; try done. unfold status. cbn.
        rewrite list_lookup_insert_ne by lia.
        rewrite list_lookup_insert_eq by (rewrite length_app; cbn; lia).
        done.
    + rewrite (WithCancel_constructor_pending ctx ps psg w Hd Hpsg Ha) in Hc.
      injection Hc as <- <-. split; [done|]. split_and!.
      * split; cbn; try done. intros j sg Hj.
        pose proof (lookup_lt_Some _ _ _ Hj) as Hlt.
        rewrite list_lookup_insert_ne by lia.
        destruct (decide (j = ps)) as [->|Hne].
        -- simplify_eq. eexists. split.
           { apply list_lookup_insert_eq. rewrite length_app. lia. }
           cbn. by rewrite Ha.
        -- exists sg. split; [|done].
           rewrite list_lookup_insert_ne by lia. by apply lookup_app_l_Some.
      * done.
      * cbn. rewrite !length_insert, length_app. cbn. lia.
      * left. split.
        -- unfold status. cbn. rewrite list_lookup_insert_eq; [done|].
           rewrite length_insert, length_app. cbn. lia.
        -- intros ps' [= <-]. eexists _, _. split_and!.
           ++ cbn. rewrite list_lookup_insert_ne by lia.
              apply list_lookup_insert_eq. rewrite length_app. lia.
           ++ done.
           ++ cbn. apply elem_of_app. right. left.
           ++ done.
  - rewrite (WithCancel_constructor_root ctx w Hd) in Hc.
    injection Hc as <- <-. split; [done|]. split_and!.
    + split; cbn; try done. intros j sg Hj. exists sg. split; [|done].
      by apply lookup_app_l_Some.
    + done.
    + cbn. rewrite length_app. cbn. lia.
    + left. split; [|done]. unfold status. cbn. by rewrite lookup_snoc_new.
Qed.

(** [new WithTimeout], from the outside: as the [WithCancel] constructor,
    and the timer is the next one; it is armed exactly when the node is
    not born canceled. *)
Lemma new_WithTimeout_after (ctx node : Context) (ms : Z) (w w3 : World) :
  valid_ctx w ctx = true →
  new_WithTimeout ctx ms w = Some (node, w3) →
  let s := length (signals w) in
  node = WithTimeout ctx s ∧ preserves w w3 ∧ length (signals w3) = S s
  ∧ ((status w3 s = Some (None, false)
      ∧ timers w3 =
          timers w ++ [mkTimer (now w + timeout_delay ms) s true]
      ∧ ∀ ps, done ctx = Some ps →
          ∃ psg l, signals w3 !! ps = Some psg ∧ aborted psg = false
                   ∧ l ∈ listeners psg
                   ∧ fn_code (l_fn l) = CPropagate s ps)
     ∨ (∃ ps psg, done ctx = Some ps ∧ signals w !! ps = Some psg
                  ∧ aborted psg = true
                  ∧ status w3 s = Some (_error psg, true)
                  ∧ timers w3 =
                      timers w ++ [mkTimer (now w + timeout_delay ms) s false])).
Proof.
  intros Hvalid Hnew s.
  destruct (WithCancel_constructor ctx w) as [[s' w1]|] eqn:Hc;
    [|unfold new_WithTimeout in Hnew; by rewrite Hc in Hnew].
  destruct (WithCancel_constructor_after ctx s' w w1 Hvalid Hc)
    as (-> & Hpv & Htm & Hlen & Hcase).
  fold s in Hc, Hlen, Hcase.
  destruct (lookup_lt_is_Some_2 (signals w1) s) as [sg Hsg]; [lia|].
  rewrite (new_WithTimeout_unfold ctx ms s sg w w1 Hc Hsg) in Hnew.
  cbn zeta in Hnew.
  assert (now w1 = now w) as Hnow by apply Hpv.
  assert (status w1 s = Some (_error sg, aborted sg)) as Hst1
    by (unfold status; by rewrite Hsg).
  destruct (aborted sg) eqn:Ha; injection Hnew as <- <-.
  - split; [done|]. rewrite Htm, Hnow.
    assert (timers (clearTimeout (length (timers w))
                      (bump_fn (set_timers
                         (timers w ++ [mkTimer (now w + timeout_delay ms) s true])
                         w1)))
            = timers w ++ [mkTimer (now w + timeout_delay ms) s false]) as Htm3.
    { unfold clearTimeout. cbn. rewrite lookup_snoc_new. cbn.
      by rewrite insert_app_r_alt, Nat.sub_diag by done. }
    split_and!.
    + etrans; [exact Hpv|]. split.
      * intros j sg0 Hj. exists sg0. by rewrite signals_clearTimeout.
      * intros i t Hi. rewrite Htm3, <-Htm. by apply lookup_app_l_Some.
      * intros p st Hp. by rewrite promises_clearTimeout.
      * unfold clearTimeout. cbn. by rewrite lookup_snoc_new.
    + by rewrite signals_clearTimeout.
    + right. destruct Hcase as [[Hst _]|(ps & psg & Hd & Hpsg & Hab & Hst)];
        [congruence|].
      exists ps, psg. split_and!; try done.
      unfold status. by rewrite signals_clearTimeout.
  - split; [done|]. rewrite Htm, Hnow.
    assert (∀ j, j ≠ s → signals (put_signal s
              (mkSignal (_error sg) false
                 (listeners sg
                  ++ [mkListener (S (next_fn w1))
                        (mkClosure (next_fn w1)
                           (CClearTimeout (length (timers w)))) true]))
              (bump_fn (bump_fn (set_timers
                 (timers w ++ [mkTimer (now w + timeout_delay ms) s true]) w1))))
            !! j = signals w1 !! j) as Hne.
    { intros j Hj. cbn. by rewrite list_lookup_insert_ne. }
    split_and!.
    + etrans; [exact Hpv|]. split; cbn; try done.
      * intros j sg0 Hj. destruct (decide (j = s)) as [->|Hjs].
        -- simplify_eq. eexists. split.
           { apply list_lookup_insert_eq. lia. }
           cbn. by rewrite Ha.
        -- exists sg0. split; [|done]. by rewrite list_lookup_insert_ne.
      * intros i t Hi. rewrite <-Htm. by apply lookup_app_l_Some.
    + cbn. by rewrite length_insert.
    + left. destruct Hcase as [[Hst Hedge]|(ps & psg & _ & _ & _ & Hst)];
        [|congruence].
      split_and!.
      * unfold status. cbn. rewrite list_lookup_insert_eq by lia.
        rewrite Hst1 in Hst. by injection Hst as ->.
      * done.
      * intros ps Hd. destruct (Hedge ps Hd) as (psg & l & Hpsg & ? & ? & ?).
        exists psg, l. split_and!; try done.
        rewrite Hne; [done|]. intros ->.
        apply (proj1 (valid_ctx_spec _ _) Hvalid) in Hd. subst s. lia.
Qed.

(** The state of a promise when [new ContextPromise(ctx, executor)]
    returns: what the first call of the executor makes it; without such a
    call, rejected with the recorded cause when the signal of [ctx] has
    fired, and pending otherwise. *)
Definition born_as (ctx : Context) (executor : list Settle) (w : World)
  : PromiseState :=
  match executor with
  | a :: _ => outcome a
  | [] =>
      match done ctx with
      | Some s =>
          if is_aborted s w then Rejected (RCause (error ctx w)) else Pending
      | None => Pending
      end
  end.

(** [new ContextPromise], from the outside: nothing that existed changes;
    when the constructor returns with the promise pending, the context's
    signal, if it has one, has not fired and holds the observer that rejects
    the promise. *)
Lemma new_ContextPromise_after (ctx : Context) (executor : list Settle)
    (p : nat) (w w1 : World) :
  valid_ctx w ctx = true →
  new_ContextPromise ctx executor w = Some (p, w1) →
  p = length (promises w) ∧ preserves w w1
  ∧ timers w1 = timers w ∧ length (signals w1) = length (signals w)
  ∧ promises w1 !! p = Some (born_as ctx executor w)
  ∧ (born_as ctx executor w = Pending →
     ∀ s, done ctx = Some s →
       ∃ sg l, signals w1 !! s = Some sg ∧ aborted sg = false
               ∧ l ∈ listeners sg ∧ fn_code (l_fn l) = CReject p).
Proof.
  intros Hvalid0 Hnew.
  pose proof (proj1 (valid_ctx_spec _ _) Hvalid0) as Hvalid.
  unfold new_ContextPromise in Hnew. rewrite run_executor_new in Hnew.
  cbn [mbind option_bind] in Hnew.
  set (p0 := length (promises w)) in *.
  set (st0 := match executor with [] => Pending | a :: _ => outcome a end).
  set (w0 := set_promises (promises w ++ [st0]) w).
  assert (match executor with
          | [] => set_promises (promises w ++ [Pending]) w
          | a :: _ => set_promises (promises w ++ [outcome a]) w
          end = w0) as Heq by (unfold w0, st0; by destruct executor).
  rewrite Heq in Hnew. clear Heq.
  assert (preserves w w0) as Hpv0.
  { split; cbn; eauto. intros q st Hq. by apply lookup_app_l_Some. }
  assert (promises w0 !! p0 = Some st0) as Hp0 by apply lookup_snoc_new.
  destruct (done ctx) as [s|] eqn:Hd; last first.
  { injection Hnew as <- <-.
    assert (born_as ctx executor w = st0) as ->
      by (unfold born_as, st0; rewrite Hd; by destruct executor).
    split_and!; try done. }
  pose proof (Hvalid s eq_refl) as Hs.
  destruct (lookup_lt_is_Some_2 _ _ Hs) as [sg Hsg].
  destruct (aborted sg) eqn:Ha.
  - rewrite (onCanceled_aborted s _ sg) in Hnew by done.
    unfold call, reject, promise_reject in Hnew.
    cbn [fn_code mbind option_bind] in Hnew.
    destruct (settle p0 (Rejected (RCause (_error sg))) (bump_fn w0))
      as [w2|] eqn:Hw2; [|done].
    cbn in Hnew. injection Hnew as <- <-.
    pose proof (signals_settle _ _ _ _ Hw2) as Hsig.
    pose proof (timers_settle _ _ _ _ Hw2) as Htm.
    split_and!; try done.
    + split.
      * intros j sg0 Hj. exists sg0. by rewrite Hsig.
      * intros i t Hi. by rewrite Htm.
      * intros q st Hq. pose proof (lookup_lt_Some _ _ _ Hq) as Hlt.
        rewrite (settle_other _ _ _ _ _ Hw2) by (subst p0; lia).
        cbn. by apply lookup_app_l_Some.
      * unfold settle in Hw2.
        destruct (promises (bump_fn w0) !! p0) as [[]|]; by simplify_eq/=.
    + by rewrite Hsig.
    + unfold born_as. rewrite Hd.
      assert (is_aborted s w = true) as ->
        by (unfold is_aborted; by rewrite Hsg).
      assert (error ctx w = _error sg) as ->
        by (rewrite (error_done ctx s) by done; by rewrite Hsg).
      destruct executor as [|a calls].
      * rewrite (settle_pending p0) in Hw2 by exact Hp0.
        injection Hw2 as <-. cbn. apply list_lookup_insert_eq.
        rewrite length_app. cbn. subst p0. lia.
      * rewrite (settle_settled p0 _ (outcome a)) in Hw2;
          [|exact Hp0|apply outcome_not_pending].
        by injection Hw2 as <-.
    + unfold born_as. rewrite Hd.
      assert (is_aborted s w = true) as ->
        by (unfold is_aborted; by rewrite Hsg).
      destruct executor as [|a calls]; [done|].
      intros Hpend. by destruct (outcome_not_pending a).
  - rewrite (onCanceled_pending s _ sg) in Hnew by done.
    cbn in Hnew. injection Hnew as <- <-. split_and!; try done.
    + etrans; [exact Hpv0|]. split; cbn; eauto.
      intros j sg0 Hj. destruct (decide (j = s)) as [->|Hne].
      * simplify_eq. eexists. split.
        { by apply list_lookup_insert_eq. }
        cbn. by rewrite Ha.
      * exists sg0. split; [|done]. by rewrite list_lookup_insert_ne.
    + cbn. by rewrite length_insert.
    + assert (born_as ctx executor w = st0) as ->; [|done].
      unfold born_as, st0. rewrite Hd.
      assert (is_aborted s w = false) as ->
        by (unfold is_aborted; by rewrite Hsg).
      by destruct executor.
    + intros _ s' [= <-].
      eexists _, _. split_and!.
      * cbn. by apply list_lookup_insert_eq.
      * done.
      * cbn. apply elem_of_app. right. left.
      * done.
Qed.

Lemma new_WithCancel_after (ctx node : Context) (w w1 : World) :
  valid_ctx w ctx = true →
  new_WithCancel ctx w = Some (node, w1) →
  let s := length (signals w) in
  node = WithCancel ctx s ∧ preserves w w1 ∧ length (signals w1) = S s
  ∧ timers w1 = timers w
  ∧ ((status w1 s = Some (None, false)
      ∧ ∀ ps, done ctx = Some ps →
          ∃ psg l, signals w1 !! ps = Some psg ∧ aborted psg = false
                   ∧ l ∈ listeners psg
                   ∧ fn_code (l_fn l) = CPropagate s ps)
     ∨ (∃ ps psg, done ctx = Some ps ∧ signals w !! ps = Some psg
                  ∧ aborted psg = true
                  ∧ status w1 s = Some (_error psg, true))).
Proof.
  intros Hvalid Hnew s. unfold new_WithCancel in Hnew.
  destruct (WithCancel_constructor ctx w) as [[s' w']|] eqn:Hc; [|done].
  cbn in Hnew. injection Hnew as <- <-.
  destruct (WithCancel_constructor_after ctx s' w w' Hvalid Hc)
    as (-> & ? & ? & ? & ?). by split_and!.
Qed.

(** X8.  Building a context changes nothing that existed: after
    [new WithCancel], [new WithTimeout] or [new ContextPromise], every
    context whose signal existed shows the [error()] and the aborted flag it
    showed before, every timer and every promise that existed is as it was,
    and the clock has not moved.  In particular a child never cancels its
    parent by being built. *)
Theorem constructors_change_nothing_else (ctx : Context) (w w' : World) :
  valid_ctx w ctx = true →
  (∃ node, new_WithCancel ctx w = Some (node, w'))
  ∨ (∃ node ms, new_WithTimeout ctx ms w = Some (node, w'))
  ∨ (∃ p executor, new_ContextPromise ctx executor w = Some (p, w')) →
  (∀ c s, done c = Some s → s < length (signals w) →
     error c w' = error c w ∧ is_aborted s w' = is_aborted s w)
  ∧ (∀ i t, timers w !! i = Some t → timers w' !! i = Some t)
  ∧ (∀ p st, promises w !! p = Some st → promises w' !! p = Some st)
  ∧ now w' = now w.
Proof.
  intros Hvalid Hnew.
  assert (preserves w w') as Hpv.
  { destruct Hnew as [[node Hn]|[(node & ms & Hn)|(p & ex & Hn)]].
    - by destruct (new_WithCancel_after ctx node w w' Hvalid Hn) as (_ & ? & _).
    - by destruct (new_WithTimeout_after ctx node ms w w' Hvalid Hn)
        as (_ & ? & _).
    - by destruct (new_ContextPromise_after ctx ex p w w' Hvalid Hn)
        as (_ & ? & _). }
  split_and!; try apply Hpv.
  intros c s Hd Hs. by apply (preserves_shown w w' c s).
Qed.

Lemma constructors_change_nothing_else_witness :
  let p := WithCancel Background 0 in
  valid_ctx family_world p = true
  ∧ ∃ w', (∃ node, new_WithCancel p family_world = Some (node, w'))
          ∧ (∀ c s, done c = Some s → s < length (signals family_world) →
               error c w' = error c family_world
               ∧ is_aborted s w' = is_aborted s family_world).
Proof.
  intros p. split; [reflexivity|].
  eexists. split; [eexists; vm_compute; reflexivity|].
  eapply (constructors_change_nothing_else p family_world);
    [reflexivity|]. left. eexists. vm_compute. reflexivity.
Defined.

(** X9.  A node built over a parent that has no signal, or whose signal
    has not fired, is not canceled when the constructor returns: [error()]
    is null and the signal is not aborted; and the timer that
    [new WithTimeout] has set for the node's signal is armed (a node born
    canceled has its timer cleared at once). *)
Theorem born_not_canceled (parent : Context) (ms : Z) (w : World) :
  valid_ctx w parent = true →
  (∀ ps, done parent = Some ps → is_aborted ps w = false) →
  let s := length (signals w) in
  (∃ w1, new_WithCancel parent w = Some (WithCancel parent s, w1)
         ∧ error (WithCancel parent s) w1 = None
         ∧ is_aborted s w1 = false)
  ∧ (∃ w1, new_WithTimeout parent ms w = Some (WithTimeout parent s, w1)
           ∧ error (WithTimeout parent s) w1 = None
           ∧ is_aborted s w1 = false
           ∧ ∃ t, timers w1 !! length (timers w) = Some t
                  ∧ t_signal t = s ∧ t_armed t = true).
Proof.
  intros Hvalid Hpend s.
  assert (∃ w1, WithCancel_constructor parent w = Some (s, w1))
    as [w1 Hc].
  { destruct (done parent) as [ps|] eqn:Hd.
    - pose proof (proj1 (valid_ctx_spec _ _) Hvalid ps Hd) as Hps.
      destruct (lookup_lt_is_Some_2 _ _ Hps) as [psg Hpsg].
      eexists. apply (WithCancel_constructor_pending parent ps psg);
        [done..|].
      specialize (Hpend ps eq_refl). unfold is_aborted in Hpend.
      by rewrite Hpsg in Hpend.
    - eexists. by apply WithCancel_constructor_root. }
  assert (∀ node w', status w' s = Some (None, false) →
            node = WithCancel parent s ∨ node = WithTimeout parent s →
            error node w' = None ∧ is_aborted s w' = false) as Hshow.
  { intros node w' Hst Hnode. unfold status in Hst. unfold is_aborted.
    destruct (signals w' !! s) as [sg|] eqn:Hsg; [|done].
    cbn in Hst. injection Hst as He Ha.
    destruct Hnode as [-> | ->]; cbn; by rewrite Hsg. }
  assert (∀ ps psg, done parent = Some ps → signals w !! ps = Some psg →
            aborted psg = true → False) as Hnot.
  { intros ps psg Hd Hpsg Ha. specialize (Hpend ps Hd).
    unfold is_aborted in Hpend. rewrite Hpsg in Hpend. congruence. }
  split.
  - exists w1. pose proof (new_WithCancel_unfold _ _ _ _ Hc) as Hn.
    split; [done|].
    destruct (new_WithCancel_after parent _ w w1 Hvalid Hn)
      as (_ & _ & _ & _ & [[Hst _]|(ps & psg & Hd & Hpsg & Ha & _)]).
    + apply Hshow; [done|by left].
    + by destruct (Hnot ps psg).
  - destruct (WithCancel_constructor_after parent s w w1 Hvalid Hc)
      as (_ & _ & _ & Hlen & _).
    destruct (lookup_lt_is_Some_2 (signals w1) s) as [sg Hsg]; [lia|].
    pose proof (new_WithTimeout_unfold parent ms s sg w w1 Hc Hsg) as Hn.
    cbn zeta in Hn. eexists. split; [exact Hn|].
    destruct (new_WithTimeout_after parent _ ms w _ Hvalid Hn)
      as (_ & _ & _ & [(Hst & Htm & _)|(ps & psg & Hd & Hpsg & Ha & _)]).
    + destruct (Hshow (WithTimeout parent s) _ Hst) as [He Hab]; [by right|].
      split_and!; [done..|]. eexists. rewrite Htm.
      split; [apply lookup_snoc_new|done].
    + by destruct (Hnot ps psg).
Qed.

Lemma born_not_canceled_witness :
  let p := WithCancel Background 0 in
  valid_ctx family_world p = true
  ∧ (∀ ps, done p = Some ps → is_aborted ps family_world = false)
  ∧ ∃ w1, new_WithTimeout p 20 family_world = Some (WithTimeout p 3, w1)
          ∧ error (WithTimeout p 3) w1 = None
          ∧ is_aborted 3 w1 = false
          ∧ ∃ t, timers w1 !! 1 = Some t ∧ t_signal t = 3 ∧ t_armed t = true.
Proof.
  intros p. split; [reflexivity|].
  split; [by intros ps [= <-]|].
  apply (born_not_canceled p 20 family_world);
    [reflexivity|by intros ps [= <-]].
Defined.

(** ** Promises, through the operations *)

(** Firings with the cause [e] take [w] to [w']: a promise is as it was, or
    it was pending and is rejected with [e]. *)
Definition rejects (e : option Cause) (w w' : World) : Prop :=
  ∀ p st, promises w !! p = Some st →
    promises w' !! p = Some st
    ∨ (st = Pending ∧ promises w' !! p = Some (Rejected (RCause e))).

Lemma rejects_refl (e : option Cause) (w : World) : rejects e w w.
Proof. intros p st Hp. by left. Qed.

Lemma rejects_trans (e : option Cause) (w1 w2 w3 : World) :
  rejects e w1 w2 → rejects e w2 w3 → rejects e w1 w3.
Proof.
  intros H12 H23 p st Hp.
  destruct (H12 p st Hp) as [Hp2|[-> Hp2]].
  - by apply H23.
  - right. split; [done|]. by destruct (H23 p _ Hp2) as [?|[? _]].
Qed.

Lemma fires_rejects (e : option Cause) (w w' : World) :
  fires e w w' → rejects e w w'.
Proof.
  intros Hf p st Hp.
  destruct (f_promises _ _ _ Hf p st Hp) as [?|(? & ? & _)];
    [by left|by right].
Qed.

Lemma fire_timer_rejects (id : nat) (w w' : World) :
  WF w → fire_timer id w = Some w' → rejects (Some DeadlineExceeded) w w'.
Proof.
  intros Hwf. unfold fire_timer. intros H.
  destruct (timers w !! id) as [t|] eqn:Ht; simplify_eq/=.
  destruct (t_armed t); simplify_eq/=; [|apply rejects_refl].
  match type of H with signal_cancel _ _ ?x = _ => set (wa := x) in * end.
  assert (evolves w wa) as Heva.
  { split; cbn; try done.
    eapply Forall2_insert_same; [apply _|done|]. by split_and!. }
  destruct (signal_cancel_fires (t_signal t) (Some DeadlineExceeded) wa)
    as (w'' & Hw'' & Hf & _); [by eapply WF_evolves| |].
  { by eapply signal_cancel_Some. }
  rewrite Hw'' in H. injection H as <-.
  change (rejects (Some DeadlineExceeded) wa w'').
  by apply fires_rejects.
Qed.

Lemma run_timers_rejects (ids : list nat) (w w' : World) :
  WF w → run_timers ids w = Some w' → rejects (Some DeadlineExceeded) w w'.
Proof.
  revert w. induction ids as [|id ids IH]; intros w Hwf H; simplify_eq/=.
  { apply rejects_refl. }
  destruct (fire_timer id w) as [w1|] eqn:Hw1; simplify_eq/=.
  eapply rejects_trans; [by eapply fire_timer_rejects|].
  apply IH; [|done]. eapply WF_evolves; [done|]. by eapply fire_timer_evolves.
Qed.

Lemma delay_rejects (ms : Z) (w w' : World) :
  WF w → delay ms w = Some w' → rejects (Some DeadlineExceeded) w w'.
Proof.
  intros Hwf. unfold delay. intros H.
  destruct (run_timers _ w) as [w1|] eqn:Hw1; simplify_eq/=.
  change (rejects (Some DeadlineExceeded) w w1).
  by eapply run_timers_rejects.
Qed.

(** What one use of a resolving function does to the promises. *)
Lemma settle_promises (p : nat) (st0 : PromiseState) (w w' : World) (q : nat)
    (st : PromiseState) :
  settle p st0 w = Some w' → promises w !! q = Some st →
  promises w' !! q = Some st
  ∨ (q = p ∧ st = Pending ∧ promises w' !! q = Some st0).
Proof.
  intros H Hq. destruct (decide (q = p)) as [->|Hne].
  - assert (st = Pending ∨ st ≠ Pending) as [->|Hst]
      by (destruct st; [by left|by right..]).
    + right. rewrite (settle_pending _ _ _ Hq) in H. injection H as <-.
      split_and!; [done..|]. cbn. apply list_lookup_insert_eq.
      by eapply lookup_lt_Some.
    + left. rewrite (settle_settled _ _ _ _ Hq Hst) in H. by injection H as <-.
  - left. by rewrite (settle_other _ _ _ _ _ H).
Qed.

(** The cause an operation fires signals with. *)
Definition cause_of (op : Op) : option Cause :=
  match op with
  | CallCancel _ => Some Canceled
  | Await _ => Some DeadlineExceeded
  | _ => None
  end.

(** What one operation does to a promise that exists: nothing; or the
    promise was pending, and the operation fires signals and rejects it
    with their cause, or is the call of [resolve] or [reject] on it; or the
    promise followed a thenable, which calls. *)
Lemma step_promise (op : Op) (w w' : World) (q : nat) (st : PromiseState) :
  WF w → op_ok w op = true → step op w = Some w' →
  promises w !! q = Some st →
  promises w' !! q = Some st
  ∨ (st = Pending ∧ cause_of op ≠ None
     ∧ promises w' !! q = Some (Rejected (RCause (cause_of op))))
  ∨ (st = Pending
     ∧ ∃ x, op = CallResolve q x ∧ promises w' !! q = Some (resolved_with x))
  ∨ (st = Pending
     ∧ ∃ r, op = CallReject q r ∧ promises w' !! q = Some (Rejected r))
  ∨ (∃ t a, st = Following t ∧ op = ThenableCalls q a
            ∧ promises w' !! q = Some (outcome a)).
Proof.
  intros Hwf Hok Hstep Hq.
  assert (∀ e, e ≠ None → cause_of op = e → rejects e w w' →
            promises w' !! q = Some st
            ∨ (st = Pending ∧ cause_of op ≠ None
               ∧ promises w' !! q = Some (Rejected (RCause (cause_of op)))))
    as Hfire.
  { intros e He Hc Hr. rewrite Hc.
    destruct (Hr q st Hq) as [?|[? ?]]; [by left|by right]. }
  destruct op as [ctx|ctx ms|ctx ex|ctx|p x|p r|p a|ms]; cbn in Hstep, Hok.
  - destruct (new_WithCancel ctx w) as [[node w0]|] eqn:Hn; simplify_eq/=.
    destruct (new_WithCancel_after ctx node w w' Hok Hn) as (_ & Hpv & _).
    left. by apply (pv_promises _ _ Hpv).
  - destruct (new_WithTimeout ctx ms w) as [[node w0]|] eqn:Hn; simplify_eq/=.
    destruct (new_WithTimeout_after ctx node ms w w' Hok Hn) as (_ & Hpv & _).
    left. by apply (pv_promises _ _ Hpv).
  - destruct (new_ContextPromise ctx ex w) as [[p w0]|] eqn:Hn; simplify_eq/=.
    destruct (new_ContextPromise_after ctx ex p w w' Hok Hn) as (_ & Hpv & _).
    left. by apply (pv_promises _ _ Hpv).
  - assert (∃ s, signal_cancel s (Some Canceled) w = Some w') as [s Hc].
    { destruct ctx as [| | ? s| ? s]; try done; by exists s. }
    destruct (signal_cancel_fires s (Some Canceled) w) as (w'' & Hw'' & Hf & _);
      [done|by eapply signal_cancel_Some|].
    rewrite Hw'' in Hc. injection Hc as ->.
    destruct (Hfire (Some Canceled)) as [?|?];
      [done|done|by apply fires_rejects|by left|right; by left].
  - destruct (settle_promises _ _ _ _ q st Hstep Hq) as [?|(-> & -> & ?)];
      [by left|].
    right. right. left. split; [done|]. by exists x.
  - destruct (settle_promises _ _ _ _ q st Hstep Hq) as [?|(-> & -> & ?)];
      [by left|].
    right. right. right. left. split; [done|]. by exists r.
  - destruct (thenable_calls_promises _ _ _ _ q st Hstep Hq)
      as [?|(-> & [t ->] & ?)]; [by left|].
    right. right. right. right. by exists t, a.
  - destruct (Hfire (Some DeadlineExceeded)) as [?|?];
      [done|done|by eapply delay_rejects|by left|right; by left].
Qed.

(** A promise that follows a thenable. *)
Definition follows (st : PromiseState) : bool :=
  match st with Following _ => true | _ => false end.

(** The call hands no thenable to [resolve]. *)
Definition plain (a : Settle) : bool :=
  match a with DoResolve (Thenable _) => false | _ => true end.

(** The operation is not a call of [resolve] on promise [p] with a
    thenable. *)
Definition resolves_plainly (p : nat) (op : Op) : bool :=
  match op with
  | CallResolve q (Thenable _) => negb (q =? p)
  | _ => true
  end.

(** A promise that no thenable is handed to follows none. *)
Lemma run_follows_none (p : nat) (ops : list Op) (w w' : World)
    (st : PromiseState) :
  Sound w → run ops w = Some w' →
  forallb (resolves_plainly p) ops = true →
  promises w !! p = Some st → follows st = false →
  ∃ st', promises w' !! p = Some st' ∧ follows st' = false.
Proof.
  revert w st. induction ops as [|op ops IH]; intros w st Hs Hrun Hpl Hp Hst.
  { cbn in Hrun. injection Hrun as <-. by exists st. }
  cbn in Hrun, Hpl. apply andb_true_iff in Hpl as [Hop Hpl].
  destruct (op_ok w op) eqn:Hok; [|done].
  destruct (step op w) as [w1|] eqn:Hw1; [|done]. cbn in Hrun.
  destruct (step_sound op w Hs Hok) as (w1' & Hw1' & Hs1 & _).
  rewrite Hw1 in Hw1'. injection Hw1' as <-.
  destruct (step_promise op w w1 p st (s_wf _ Hs) Hok Hw1 Hp)
    as [Hp1|[(_ & _ & Hp1)|[(_ & x & -> & Hp1)|[(_ & r & -> & Hp1)
        |(t & a & -> & _)]]]].
  - by apply (IH w1 st).
  - by apply (IH w1 (Rejected (RCause (cause_of op)))).
  - apply (IH w1 (resolved_with x)); try done.
    destruct x as [v|t]; [done|]. cbn in Hop. by rewrite Nat.eqb_refl in Hop.
  - by apply (IH w1 (Rejected r)).
  - done.
Qed.

(** ** A canceled parent, whatever happens in between *)

(** X10.  A child is never left alive under a canceled parent.  Take any
    store the operations reach, build a [WithCancel] or [WithTimeout] node
    over [parent] there, and let any sequence of operations follow: whenever
    the parent's signal is aborted, so is the child's, and the child's
    [error()] is non-null. *)
Theorem child_canceled_with_parent (ops1 ops2 : list Op)
    (parent child : Context) (ms : Z) (ps : nat) (w w1 w2 : World) :
  run ops1 empty_world = Some w → valid_ctx w parent = true →
  new_WithCancel parent w = Some (child, w1)
  ∨ new_WithTimeout parent ms w = Some (child, w1) →
  run ops2 w1 = Some w2 →
  done parent = Some ps → is_aborted ps w2 = true →
  ∃ s, done child = Some s ∧ is_aborted s w2 = true
       ∧ error child w2 ≠ None.
Proof.
  intros Hrun1 Hvalid Hnew Hrun2 Hd Hab.
  destruct (run_sound ops1 _ _ Sound_empty Hrun1) as [Hs _].
  set (s := length (signals w)).
  assert (Sound w1 ∧ done child = Some s
          ∧ (is_aborted s w1 = true
             ∨ ∃ psg l, signals w1 !! ps = Some psg ∧ aborted psg = false
                        ∧ l ∈ listeners psg
                        ∧ fn_code (l_fn l) = CPropagate s ps))
    as (Hs1 & Hdc & Hcase).
  { destruct Hnew as [Hn|Hn].
    - destruct (new_WithCancel_sound parent child w w1 Hs Hvalid Hn)
        as [Hs1 _].
      destruct (new_WithCancel_after parent child w w1 Hvalid Hn)
        as (-> & _ & _ & _ & [[_ Hedge]|(_ & psg & _ & _ & _ & Hst)]).
      + split_and!; [done..|]. right. by apply Hedge.
      + split_and!; [done..|]. left. unfold status in Hst.
        unfold is_aborted. fold s in Hst.
        destruct (signals w1 !! s); [|done]. by simplify_eq/=.
    - destruct (new_WithTimeout_sound parent ms child w w1 Hs Hvalid Hn)
        as [Hs1 _].
      destruct (new_WithTimeout_after parent child ms w w1 Hvalid Hn)
        as (-> & _ & _ & [(_ & _ & Hedge)|(_ & psg & _ & _ & _ & Hst & _)]).
      + split_and!; [done..|]. right. by apply Hedge.
      + split_and!; [done..|]. left. unfold status in Hst.
        unfold is_aborted. fold s in Hst.
        destruct (signals w1 !! s); [|done]. by simplify_eq/=. }
  destruct (run_sound ops2 _ _ Hs1 Hrun2) as [Hs2 Hm].
  assert (is_aborted s w2 = true) as Habs.
  { destruct Hcase as [Hab1|(psg & l & Hpsg & Ha & Hl & Hcode)].
    - by eapply moves_is_aborted.
    - assert (has_run w2 l) as Hr.
      { apply (mv_ran _ _ Hm ps). by exists psg. }
      unfold has_run in Hr. by rewrite Hcode in Hr. }
  exists s. split_and!; [done..|].
  rewrite (error_done child s) by done. unfold is_aborted in Habs.
  destruct (signals w2 !! s) as [sg|] eqn:Hsg; [|done]. cbn.
  apply (s_consistent _ Hs2 s sg Hsg) in Habs as [e ->]. done.
Qed.

(** X11.  A promise is never left pending under a canceled context.  Build
    a [ContextPromise] over [ctx] in any store the operations reach, and let
    any sequence of operations follow: whenever the signal of [ctx] is
    aborted, the promise is not pending any more: it is fulfilled or
    rejected, or it follows a thenable that [resolve] was called with.
    When neither the executor nor a later call hands a thenable to
    [resolve] of this promise, the promise is settled. *)
Theorem promise_settled_with_context (ops1 ops2 : list Op) (ctx : Context)
    (executor : list Settle) (p s : nat) (w w1 w2 : World) :
  run ops1 empty_world = Some w → valid_ctx w ctx = true →
  new_ContextPromise ctx executor w = Some (p, w1) →
  run ops2 w1 = Some w2 →
  done ctx = Some s → is_aborted s w2 = true →
  ∃ st, promises w2 !! p = Some st ∧ st ≠ Pending
        ∧ (forallb plain executor = true →
           forallb (resolves_plainly p) ops2 = true →
           is_settled st = true).
Proof.
  intros Hrun1 Hvalid Hnew Hrun2 Hd Hab.
  destruct (run_sound ops1 _ _ Sound_empty Hrun1) as [Hs _].
  destruct (new_ContextPromise_sound ctx executor p w w1 Hs Hvalid Hnew)
    as [Hs1 _].
  destruct (new_ContextPromise_after ctx executor p w w1 Hvalid Hnew)
    as (_ & _ & _ & _ & Hp & Hobs).
  set (st := born_as ctx executor w) in *.
  destruct (run_sound ops2 _ _ Hs1 Hrun2) as [Hs2 Hm].
  assert (∃ st2, promises w2 !! p = Some st2 ∧ st2 ≠ Pending)
    as (st2 & Hp2 & Hne2).
  { assert (st = Pending ∨ st ≠ Pending) as [Hst|Hst]
      by (destruct st; [by left|by right..]).
    - destruct (Hobs Hst s Hd) as (sg & l & Hsg & Ha & Hl & Hcode).
      assert (has_run w2 l) as Hr.
      { apply (mv_ran _ _ Hm s). by exists sg. }
      unfold has_run in Hr. by rewrite Hcode in Hr.
    - destruct (mv_promises _ _ Hm p st Hp Hst) as (st2 & ? & ? & _).
      by exists st2. }
  exists st2. split_and!; [done..|].
  intros Hex Hops.
  assert (follows st = false) as Hnf.
  { unfold st, born_as. destruct executor as [|a calls].
    - rewrite Hd. by destruct (is_aborted s w).
    - cbn in Hex. apply andb_true_iff in Hex as [Ha _].
      by destruct a as [[]|]. }
  destruct (run_follows_none p ops2 w1 w2 st Hs1 Hrun2 Hops Hp Hnf)
    as (st2' & Hp2' & Hnf2).
  rewrite Hp2 in Hp2'. injection Hp2' as <-.
  by destruct st2.
Qed.

(** ** The deadline *)


(** A delay above the longest one: the deadline passes after one
    millisecond. *)
Example timeout_above_the_longest_delay :
  ∃ node w1 w2,
    new_WithTimeout Background 2147483648 empty_world = Some (node, w1)
    ∧ timers w1 !! 0 = Some (mkTimer 1 0 true)
    ∧ delay 1 w1 = Some w2
    ∧ error node w2 = Some DeadlineExceeded.
Proof.
  eexists _, _, _. split; [vm_compute; reflexivity|].
  split; [reflexivity|]. split; [vm_compute; reflexivity|]. reflexivity.
Qed.











(** ** The cause a child takes from its parent *)

(** Firings with the cause [e] take [w] to [w']: the signals change as in
    one firing, and the listeners of the signals that fired have run. *)
Record flows (e : option Cause) (w w' : World) : Prop := mkFlows {
  fl_evolves : evolves w w';
  fl_signals : changes e w w';
  fl_ran : ∀ q l, fired_listener w w' q l → ran e w' l
}.

Lemma flows_refl (e : option Cause) (w : World) : flows e w w.
Proof.
  split; [done|apply changes_refl|].
  intros q l Hf. by destruct (fired_listener_same w w q l).
Qed.

Lemma flows_trans (e : option Cause) (w1 w2 w3 : World) :
  flows e w1 w2 → flows e w2 w3 → flows e w1 w3.
Proof.
  intros [Hev12 Hch12 Hr12] [Hev23 Hch23 Hr23]. split.
  - by etrans.
  - by eapply changes_trans.
  - intros q l (sg & Hq & Ha & Hl & Hab).
    destruct (Hch12 q sg Hq) as (sg2 & Hq2 & Hc2).
    destruct (aborted sg2) eqn:Ha2.
    + eapply ran_later; [done| |].
      * intros c. by apply changes_status_fired.
      * apply (Hr12 q). exists sg. split_and!; try done.
        unfold is_aborted. by rewrite Hq2.
    + apply change_pending in Hc2; [|done]. subst sg2.
      apply (Hr23 q). by exists sg.
Qed.

Lemma fires_flows (e : option Cause) (w w' : World) :
  fires e w w' → flows e w w'.
Proof. intros [? ? ? ? ? ?]. by split. Qed.

Lemma fire_timer_flows (id : nat) (w w' : World) :
  WF w → fire_timer id w = Some w' → flows (Some DeadlineExceeded) w w'.
Proof.
  intros Hwf Hfire. pose proof (fire_timer_evolves _ _ _ Hfire) as Hev.
  unfold fire_timer in Hfire.
  destruct (timers w !! id) as [t|] eqn:Ht; simplify_eq/=.
  destruct (t_armed t); simplify_eq/=; [|apply flows_refl].
  match type of Hfire with signal_cancel _ _ ?x = _ => set (wa := x) in * end.
  destruct (signal_cancel_fires (t_signal t) (Some DeadlineExceeded) wa)
    as (w'' & Hw'' & Hf & _).
  { eapply WF_evolves; [done|]. split; cbn; try done.
    eapply Forall2_insert_same; [apply _|done|]. by split_and!. }
  { by eapply signal_cancel_Some. }
  rewrite Hw'' in Hfire. injection Hfire as ->.
  split; [done|apply Hf|apply Hf].
Qed.

Lemma run_timers_flows (ids : list nat) (w w' : World) :
  WF w → run_timers ids w = Some w' → flows (Some DeadlineExceeded) w w'.
Proof.
  revert w. induction ids as [|id ids IH]; intros w Hwf H; simplify_eq/=.
  { apply flows_refl. }
  destruct (fire_timer id w) as [w1|] eqn:Hw1; simplify_eq/=.
  eapply flows_trans; [by eapply fire_timer_flows|].
  apply IH; [|done]. eapply WF_evolves; [done|]. by eapply fire_timer_evolves.
Qed.

Lemma delay_flows (ms : Z) (w w' : World) :
  WF w → delay ms w = Some w' → flows (Some DeadlineExceeded) w w'.
Proof.
  intros Hwf. unfold delay. intros H.
  destruct (run_timers _ w) as [w1|] eqn:Hw1; simplify_eq/=.
  destruct (run_timers_flows _ w w1 Hwf Hw1) as [Hev Hch Hr].
  split.
  - etrans; [done|]. apply evolves_set_now.
  - done.
  - done.
Qed.

(** An operation that fires a signal does so with one cause, and the
    listeners of the signal have run with that cause. *)
Lemma step_fired (op : Op) (w w' : World) (q : nat) (l : Listener) :
  WF w → op_ok w op = true → step op w = Some w' →
  fired_listener w w' q l →
  ∃ e, status w' q = Some (e, true) ∧ ran e w' l.
Proof.
  intros Hwf Hok Hstep Hf.
  assert (∀ e, flows e w w' → ∃ e, status w' q = Some (e, true) ∧ ran e w' l)
    as Hflows.
  { intros e [_ Hch Hr]. exists e. split; [|by apply (Hr q)].
    destruct Hf as (sg & Hq & Ha & _ & Hab).
    destruct (Hch q sg Hq) as (sg' & Hq' & Hc).
    unfold is_aborted in Hab. rewrite Hq' in Hab.
    unfold status. rewrite Hq'. cbn.
    destruct Hc as [->|[[? _]|(_ & -> & -> & _)]]; [congruence..|done]. }
  assert (preserves w w' → False) as Hpres.
  { intros Hpv. destruct Hf as (sg & Hq & Ha & _ & Hab).
    destruct (pv_signals _ _ Hpv q sg Hq) as (sg' & Hq' & _ & Ha').
    unfold is_aborted in Hab. rewrite Hq' in Hab. congruence. }
  assert (signals w' = signals w → False) as Hsame.
  { intros Heq. by destruct (fired_listener_same w w' q l). }
  destruct op as [ctx|ctx ms|ctx ex|ctx|p v|p r|p a|ms]; cbn in Hstep, Hok.
  - destruct (new_WithCancel ctx w) as [[node w0]|] eqn:Hn; simplify_eq/=.
    destruct Hpres.
    by destruct (new_WithCancel_after ctx node w w' Hok Hn) as (_ & ? & _).
  - destruct (new_WithTimeout ctx ms w) as [[node w0]|] eqn:Hn; simplify_eq/=.
    destruct Hpres.
    by destruct (new_WithTimeout_after ctx node ms w w' Hok Hn) as (_ & ? & _).
  - destruct (new_ContextPromise ctx ex w) as [[p w0]|] eqn:Hn; simplify_eq/=.
    destruct Hpres.
    by destruct (new_ContextPromise_after ctx ex p w w' Hok Hn) as (_ & ? & _).
  - assert (∃ s, signal_cancel s (Some Canceled) w = Some w') as [s Hc].
    { destruct ctx as [| | ? s| ? s]; try done; by exists s. }
    destruct (signal_cancel_fires s (Some Canceled) w) as (w'' & Hw'' & Hfi & _);
      [done|by eapply signal_cancel_Some|].
    rewrite Hw'' in Hc. injection Hc as ->.
    by apply (Hflows (Some Canceled)), fires_flows.
  - destruct Hsame. by eapply signals_settle.
  - destruct Hsame. by eapply signals_settle.
  - destruct Hsame. by destruct (thenable_calls_frame _ _ _ _ Hstep) as [? _].
  - apply (Hflows (Some DeadlineExceeded)). by eapply delay_flows.
Qed.

(** X13.  When an operation fires the signal of a parent, each child built
    over it takes the parent's cause, whatever the child recorded before:
    after the operation [error()] of the child is [error()] of the parent,
    and is non-null. *)
Theorem child_takes_parent_cause (ops1 ops2 : list Op)
    (parent child : Context) (ms : Z) (op : Op) (ps : nat)
    (w w1 w2 w3 : World) :
  run ops1 empty_world = Some w → valid_ctx w parent = true →
  new_WithCancel parent w = Some (child, w1)
  ∨ new_WithTimeout parent ms w = Some (child, w1) →
  run ops2 w1 = Some w2 →
  op_ok w2 op = true → step op w2 = Some w3 →
  done parent = Some ps →
  is_aborted ps w2 = false → is_aborted ps w3 = true →
  error child w3 = error parent w3 ∧ error child w3 ≠ None.
Proof.
  intros Hrun1 Hvalid Hnew Hrun2 Hok Hstep Hd Hpend Hab.
  destruct (run_sound ops1 _ _ Sound_empty Hrun1) as [Hs _].
  set (s := length (signals w)).
  assert (Sound w1 ∧ done child = Some s
          ∧ (is_aborted ps w = true
             ∨ ∃ psg l, signals w1 !! ps = Some psg ∧ aborted psg = false
                        ∧ l ∈ listeners psg
                        ∧ fn_code (l_fn l) = CPropagate s ps))
    as (Hs1 & Hdc & Hcase).
  { destruct Hnew as [Hn|Hn].
    - destruct (new_WithCancel_sound parent child w w1 Hs Hvalid Hn)
        as [Hs1 _].
      destruct (new_WithCancel_after parent child w w1 Hvalid Hn)
        as (-> & _ & _ & _ & [[_ Hedge]|(ps' & psg & Hd' & Hpsg & Ha & _)]).
      + split_and!; [done..|]. right. by apply Hedge.
      + split_and!; [done..|]. left. simplify_eq. unfold is_aborted.
        by rewrite Hpsg.
    - destruct (new_WithTimeout_sound parent ms child w w1 Hs Hvalid Hn)
        as [Hs1 _].
      destruct (new_WithTimeout_after parent child ms w w1 Hvalid Hn)
        as (-> & _ & _ & [(_ & _ & Hedge)
                         |(ps' & psg & Hd' & Hpsg & Ha & _)]).
      + split_and!; [done..|]. right. by apply Hedge.
      + split_and!; [done..|]. left. simplify_eq. unfold is_aborted.
        by rewrite Hpsg. }
  assert (moves w w1) as Hm01.
  { destruct Hnew as [Hn|Hn].
    - by destruct (new_WithCancel_sound parent child w w1 Hs Hvalid Hn).
    - by destruct (new_WithTimeout_sound parent ms child w w1 Hs Hvalid Hn). }
  destruct (run_sound ops2 _ _ Hs1 Hrun2) as [Hs2 Hm].
  destruct Hcase as [Hab0|(psg & l & Hpsg & Ha & Hl & Hcode)].
  { apply (moves_is_aborted w w1) in Hab0; [|done].
    apply (moves_is_aborted w1 w2) in Hab0; [|done]. congruence. }
  destruct (mv_signals _ _ Hm ps psg Hpsg) as (psg2 & Hpsg2 & _ & Hpre).
  assert (aborted psg2 = false) as Ha2.
  { unfold is_aborted in Hpend. by rewrite Hpsg2 in Hpend. }
  destruct (step_fired op w2 w3 ps l (s_wf _ Hs2) Hok Hstep)
    as (e & Hst & Hran).
  { exists psg2. split_and!; try done.
    eapply elem_of_prefix; [done|]. by apply Hpre. }
  unfold ran in Hran. rewrite Hcode in Hran.
  rewrite (error_done child s), (error_done parent ps) by done.
  unfold status in Hst, Hran.
  destruct (signals w3 !! ps) as [sgp|] eqn:Hsgp; [|done].
  destruct (signals w3 !! s) as [sgs|] eqn:Hsgs; [|done].
  cbn in *. injection Hst as Hep Hap. injection Hran as Hes Has.
  split; [congruence|].
  destruct (step_sound op w2 Hs2 Hok) as (w3' & Hw3' & Hs3 & _).
  rewrite Hstep in Hw3'. injection Hw3' as <-.
  apply (s_consistent _ Hs3 s sgs Hsgs) in Has as [c Hc]. congruence.
Qed.

(** ** A context promise and its context *)





(** An executor that hands a thenable to [resolve]: the promise follows
    the thenable; the [cancel()] of its context, which comes later, does
    not reject it; the call of the thenable settles it. *)
Example promise_following_a_thenable :
  let ctx := WithCancel Background 0 in
  let done_ := ThenableCalls 0 (DoResolve (Plain (JSString "done"%string))) in
  ∃ w w1 w2 w3,
    run [NewWithCancel Background] empty_world = Some w
    ∧ new_ContextPromise ctx [DoResolve (Thenable 7)] w = Some (0, w1)
    ∧ promises w1 !! 0 = Some (Following 7)
    ∧ step (CallCancel ctx) w1 = Some w2
    ∧ is_aborted 0 w2 = true
    ∧ promises w2 !! 0 = Some (Following 7)
    ∧ step done_ w2 = Some w3
    ∧ promises w3 !! 0 = Some (Fulfilled (JSString "done"%string)).
Proof.
  intros ctx done_. eexists _, _, _, _.
  split; [vm_compute; reflexivity|]. split; [vm_compute; reflexivity|].
  split; [reflexivity|]. split; [vm_compute; reflexivity|].
  split; [reflexivity|]. split; [reflexivity|].
  split; [vm_compute; reflexivity|]. reflexivity.
Qed.

(** ** The theorems above, on small runs *)

Lemma error_iff_aborted_witness :
  let t := WithTimeout Background 0 in
  ∃ w, run [NewWithTimeout Background 50; CallCancel t] empty_world = Some w
       ∧ done t = Some 0
       ∧ (is_aborted 0 w = true ↔ error t w ≠ None).
Proof.
  intros t. eexists. split; [vm_compute; reflexivity|].
  split; [reflexivity|].
  apply (error_iff_aborted [NewWithTimeout Background 50; CallCancel t]);
    [vm_compute; reflexivity|reflexivity].
Defined.

Lemma fired_signal_holds_no_listener_witness :
  let p := WithCancel Background 0 in
  ∃ w, run [NewWithCancel Background; NewWithCancel p] empty_world = Some w
       ∧ ∀ s l, listener_at w s l → l_once l = true ∧ is_aborted s w = false.
Proof.
  intros p. eexists. split; [vm_compute; reflexivity|].
  apply (fired_signal_holds_no_listener
           [NewWithCancel Background; NewWithCancel p]).
  vm_compute. reflexivity.
Defined.

Lemma armed_timer_signal_not_fired_witness :
  ∃ w, run [NewWithTimeout Background 50] empty_world = Some w
       ∧ timers w !! 0 = Some (mkTimer 50 0 true)
       ∧ is_aborted 0 w = false.
Proof.
  eexists. split; [vm_compute; reflexivity|]. split; [reflexivity|].
  apply (armed_timer_signal_not_fired [NewWithTimeout Background 50] _ 0
           (mkTimer 50 0 true)); [vm_compute; reflexivity|reflexivity..].
Defined.

Lemma operations_run_to_their_end_witness :
  let t := WithTimeout Background 0 in
  ∃ w, run [NewWithTimeout Background 50; NewWithCancel t] empty_world
       = Some w
       ∧ op_ok w (CallCancel t) = true
       ∧ ∃ w', step (CallCancel t) w = Some w'
               ∧ run ([NewWithTimeout Background 50; NewWithCancel t]
                      ++ [CallCancel t]) empty_world = Some w'.
Proof.
  intros t. eexists. split; [vm_compute; reflexivity|].
  split; [reflexivity|].
  apply (operations_run_to_their_end
           [NewWithTimeout Background 50; NewWithCancel t]);
    [vm_compute; reflexivity|reflexivity].
Defined.

Lemma child_canceled_with_parent_witness :
  let parent := WithCancel Background 0 in
  let child := WithTimeout parent 1 in
  ∃ w w1 w2,
    run [NewWithCancel Background] empty_world = Some w
    ∧ valid_ctx w parent = true
    ∧ new_WithTimeout parent 50 w = Some (child, w1)
    ∧ run [Await 10; CallCancel parent] w1 = Some w2
    ∧ is_aborted 0 w2 = true
    ∧ ∃ s, done child = Some s ∧ is_aborted s w2 = true
           ∧ error child w2 ≠ None.
Proof.
  intros parent child. eexists _, _, _.
  split; [vm_compute; reflexivity|]. split; [reflexivity|].
  split; [vm_compute; reflexivity|]. split; [vm_compute; reflexivity|].
  split; [reflexivity|].
  eapply (child_canceled_with_parent [NewWithCancel Background]
            [Await 10; CallCancel parent] parent child 50 0);
    [vm_compute; reflexivity|reflexivity|right; vm_compute; reflexivity
    |vm_compute; reflexivity|reflexivity|reflexivity].
Defined.

Lemma promise_settled_with_context_witness :
  let ctx := WithCancel Background 0 in
  ∃ w w1 w2,
    run [NewWithCancel Background] empty_world = Some w
    ∧ valid_ctx w ctx = true
    ∧ new_ContextPromise ctx [] w = Some (0, w1)
    ∧ run [CallCancel ctx] w1 = Some w2
    ∧ is_aborted 0 w2 = true
    ∧ ∃ st, promises w2 !! 0 = Some st ∧ st ≠ Pending
            ∧ (forallb plain [] = true →
               forallb (resolves_plainly 0) [CallCancel ctx] = true →
               is_settled st = true).
Proof.
  intros ctx. eexists _, _, _.
  split; [vm_compute; reflexivity|]. split; [reflexivity|].
  split; [vm_compute; reflexivity|]. split; [vm_compute; reflexivity|].
  split; [reflexivity|].
  eapply (promise_settled_with_context [NewWithCancel Background]
            [CallCancel ctx] ctx [] 0 0);
    [vm_compute; reflexivity|reflexivity|vm_compute; reflexivity
    |vm_compute; reflexivity|reflexivity|reflexivity].
Defined.


Lemma child_takes_parent_cause_witness :
  let parent := WithTimeout Background 0 in
  let child := WithTimeout parent 1 in
  ∃ w w1 w2 w3,
    run [NewWithTimeout Background 100] empty_world = Some w
    ∧ valid_ctx w parent = true
    ∧ new_WithTimeout parent 50 w = Some (child, w1)
    ∧ run [CallCancel child] w1 = Some w2
    ∧ op_ok w2 (Await 100) = true
    ∧ step (Await 100) w2 = Some w3
    ∧ is_aborted 0 w2 = false ∧ is_aborted 0 w3 = true
    ∧ error child w2 = Some Canceled
    ∧ error child w3 = error parent w3 ∧ error child w3 ≠ None.
Proof.
  intros parent child. eexists _, _, _, _.
  split; [vm_compute; reflexivity|]. split; [reflexivity|].
  split; [vm_compute; reflexivity|]. split; [vm_compute; reflexivity|].
  split; [reflexivity|]. split; [vm_compute; reflexivity|].
  split; [reflexivity|]. split; [reflexivity|]. split; [reflexivity|].
  eapply (child_takes_parent_cause [NewWithTimeout Background 100]
            [CallCancel child] parent child 50 (Await 100) 0);
    [vm_compute; reflexivity|reflexivity|right; vm_compute; reflexivity
    |vm_compute; reflexivity|reflexivity|vm_compute; reflexivity
    |reflexivity|reflexivity|reflexivity].
Defined.
